(** * The deprovisioning controller of karpenter-core, and two of its neighbours

    A shallow embedding of
    - [pkg/controllers/deprovisioning/controller.go] (the control loop and the
      command executor),
    - [SingleNodeConsolidation.ComputeCommand],
    - [pkg/controllers/machine/liveness.go],
    and a model of the event recorder whose test suite is part of the
    repository.

    The controller talks to collaborators (the API server, the cluster state
    cache, the provisioner, the event recorder, the strategies).  Every such
    call is recorded, with its answer, in a history; the answers that the
    controller cannot determine are given by an arbitrary environment [Env].
    Theorems quantify over the environment, so they hold for every behaviour of
    the collaborators.

    Not modelled: the log lines, the histogram of [metrics.Measure] and the
    delays between the attempts of [retry.Do].  The cancellation of the
    context of a tick belongs to the environment; it is read where the code
    reads it itself, in [workqueue.ParallelizeUntil], and shows elsewhere as
    the failure of a request. *)

From stdpp Require Import gmap strings list pretty.

Open Scope string_scope.
Open Scope list_scope.
Open Scope Z_scope.

(** ** Data *)

(** Instants and durations, in nanoseconds.  Instant [0] is Go's zero
    [time.Time]. *)
Definition Time := Z.
Definition Duration := Z.

Definition Second : Duration := 1000000000.

(** Go's [error] values.  A nil error is [None] of [option error].
    - [ApiError reason code]: a status error of the API machinery with that
      reason and that HTTP code;
    - [NotFound name]: the status error of [errors.NewNotFound], whose reason
      is [NotFound] and whose code is 404, about the object [name];
    - [Errorf format args]: the error of [fmt.Errorf]; an [ArgError] is the
      operand of a [%w], so the error wraps it;
    - [MultiErr e1 e2 rest]: the errors joined by [multierr]. *)
Local Unset Elimination Schemes.
Inductive error :=
| ApiError (reason : string) (code : Z)
| NotFound (name : string)
| Errorf (format : string) (args : list fmtArg)
| MultiErr (e1 e2 : error) (rest : list error)
with fmtArg :=
| ArgError (e : error)
| ArgInt (n : Z)
| ArgString (s : string).
Local Set Elimination Schemes.

(** [metav1.StatusReasonNotFound], [http.StatusNotFound] *)
Definition StatusReasonNotFound : string := "NotFound".
Definition StatusNotFound : Z := 404.

(** [knownReasons] of the API machinery's [errors] package. *)
Definition knownReasons : list string :=
  ["Unauthorized"; "Forbidden"; "NotFound"; "AlreadyExists"; "Conflict";
   "Gone"; "Invalid"; "ServerTimeout"; "Timeout"; "TooManyRequests";
   "BadRequest"; "MethodNotAllowed"; "NotAcceptable";
   "RequestEntityTooLarge"; "UnsupportedMediaType"; "InternalError";
   "Expired"; "ServiceUnavailable"].

(** The test of [errors.IsNotFound] on a status error: its reason is
    [NotFound], or its reason is not a known one and its code is 404. *)
Definition notFoundStatus (reason : string) (code : Z) : bool :=
  bool_decide (reason = StatusReasonNotFound)
  || (negb (bool_decide (reason ∈ knownReasons))
      && bool_decide (code = StatusNotFound)).

(** The first status error in [e], looked for as [errors.As] does: [e]
    itself, then the errors it wraps or joins, in order and in depth.
    [Some true] when it passes the test of [errors.IsNotFound], [Some false]
    when it does not, [None] when [e] holds no status error. *)
Fixpoint statusNotFound (e : error) : option bool :=
  match e with
  | ApiError reason code => Some (notFoundStatus reason code)
  | NotFound _ => Some true
  | Errorf _ args =>
      (fix wrapped (args : list fmtArg) : option bool :=
         match args with
         | [] => None
         | ArgError e' :: rest =>
             match statusNotFound e' with
             | Some b => Some b
             | None => wrapped rest
             end
         | _ :: rest => wrapped rest
         end) args
  | MultiErr e1 e2 rest =>
      match statusNotFound e1 with
      | Some b => Some b
      | None =>
          match statusNotFound e2 with
          | Some b => Some b
          | None =>
              (fix joined (es : list error) : option bool :=
                 match es with
                 | [] => None
                 | e' :: rest =>
                     match statusNotFound e' with
                     | Some b => Some b
                     | None => joined rest
                     end
                 end) rest
          end
      end
  end.

(** [errors.IsNotFound]: the status error that [reasonAndCodeForError] finds
    in the error, through [%w] and through joined errors, has the reason
    [NotFound], or a reason that is not known with the code 404. *)
Definition IsNotFound (e : option error) : bool :=
  match e with
  | Some e => default false (statusNotFound e)
  | None => false
  end.

(** [multierr]: nil errors are dropped, multi-errors are flattened, a single
    error is returned as it is; a multi-error holds two errors or more. *)
Definition errorList (e : option error) : list error :=
  match e with
  | None => []
  | Some (MultiErr e1 e2 rest) => e1 :: e2 :: rest
  | Some e => [e]
  end.

Definition fromSlice (es : list error) : option error :=
  match es with
  | [] => None
  | [e] => Some e
  | e1 :: e2 :: rest => Some (MultiErr e1 e2 rest)
  end.

Definition multierr_Combine (errs : list (option error)) : option error :=
  fromSlice (concat (map errorList errs)).

Definition multierr_Append (left right : option error) : option error :=
  multierr_Combine [left; right].

(** [v1.Node], with the fields the controller reads or writes. *)
Record Node := mkNode {
  Name : string;
  Labels : gmap string string;
  Finalizers : list string;
  DeletionTimestamp : option Time;
  Unschedulable : bool;
}.

(** [var node v1.Node] *)
Definition zeroNode : Node :=
  {| Name := ""; Labels := ∅; Finalizers := []; DeletionTimestamp := None;
     Unschedulable := false |}.

(** [IsZero] of a [metav1.Time] pointer: nil counts as zero. *)
Definition IsZero (t : option Time) : bool :=
  match t with
  | None => true
  | Some t => t =? 0
  end.

Definition setUnschedulable (b : bool) (n : Node) : Node :=
  {| Name := Name n; Labels := Labels n; Finalizers := Finalizers n;
     DeletionTimestamp := DeletionTimestamp n; Unschedulable := b |}.

Definition setName (s : string) (n : Node) : Node :=
  {| Name := s; Labels := Labels n; Finalizers := Finalizers n;
     DeletionTimestamp := DeletionTimestamp n; Unschedulable := Unschedulable n |}.

Definition setDeletionTimestamp (t : option Time) (n : Node) : Node :=
  {| Name := Name n; Labels := Labels n; Finalizers := Finalizers n;
     DeletionTimestamp := t; Unschedulable := Unschedulable n |}.

(** Modelled from the spec: the key of the `initialized` label,
    [v1alpha5.LabelNodeInitialized], is declared outside the files at hand. *)
Definition LabelNodeInitialized : string := "karpenter.sh/initialized".

(** [_, ok := n.Labels[v1alpha5.LabelNodeInitialized]] *)
Definition initialized (n : Node) : bool :=
  bool_decide (is_Some (Labels n !! LabelNodeInitialized)).

(** Modelled from the spec: the declaration of [action] is outside the files
    at hand.  "action ∈ { doNothing, retry, delete, replace }". *)
Inductive action := actionDelete | actionReplace | actionRetry | actionDoNothing.

(** Modelled from the spec: the declaration of the replacement machines
    ([scheduling.Machine]) is outside the files at hand.  "each is a pod-set +
    a set of acceptable instance types ordered by price ascending". *)
Record Machine := mkMachine {
  machinePods : list string;
  machineInstanceTypes : list string;
}.

(** Modelled from the spec: the declaration of [Command] is outside the files
    at hand.  "Command: the unit of decision": [action], [nodesToRemove],
    [replacementNodes]. *)
Record Command := mkCommand {
  nodesToRemove : list Node;
  cmdAction : action;
  replacementNodes : list Machine;
}.

(** Modelled from the spec: the declaration of [CandidateNode] is outside the
    files at hand.  "CandidateNode: a node plus derived facts"; the controller
    only hands the candidates on. *)
Record CandidateNode := mkCandidate {
  candNode : Node;
}.

(** [Command{action: a}] *)
Definition CommandOf (a : action) : Command :=
  {| nodesToRemove := []; cmdAction := a; replacementNodes := [] |}.

Global Instance action_eq_dec : EqDecision action.
Proof. solve_decision. Defined.

(** The strategies, in the order of [NewController]. *)
Inductive Deprovisioner :=
| Expiration
| Drift
| Emptiness
| EmptyNodeConsolidation
| MultiNodeConsolidation
| SingleNodeConsolidation.

Global Instance Deprovisioner_eq_dec : EqDecision Deprovisioner.
Proof. solve_decision. Defined.

(** Modelled from the spec: the events of [deprovisioning/events], declared
    outside the files at hand.  "Observable events: TerminatingNode,
    LaunchingNode, WaitingOnReadiness, WaitingOnDeletion".  The reason string
    [command.String()] is kept as the command itself. *)
Inductive Event :=
| TerminatingNode (node : Node) (reason : Command)
| LaunchingNode (node : Node) (reason : Command)
| WaitingOnReadiness (node : Node)
| WaitingOnDeletion (node : Node).

(** The counters the controller increments:
    [deprovisioningActionsPerformedCounter], [metrics.NodesTerminatedCounter]
    and [metrics.NodesCreatedCounter], with their labels or their increment. *)
Inductive Metric :=
| ActionsPerformed (d : Deprovisioner) (a : action)
| NodesTerminated (d : Deprovisioner) (a : action)
| NodesCreated (n : nat).

(** [reconcile.Result] *)
Record Result := mkResult {
  Requeue : bool;
  RequeueAfter : Duration;
}.

Definition emptyResult : Result := {| Requeue := false; RequeueAfter := 0 |}.

(** ** Collaborators *)

(** The state the controller shares with others: the node objects of the API
    server, and the cluster state cache's marks and [consolidated] flag. *)
Record Sys := mkSys {
  apiNodes : gmap string Node;
  marked : gset string;
  consolidated : bool;
}.

Inductive ApiRequest :=
| ReqGet (name : string)
| ReqPatch (name : string)
| ReqDelete (name : string).

(** A call on a collaborator, with its answer. *)
Inductive Call :=
| CGet (name : string) (res : Node * option error)
| CPatch (node : Node) (res : option error)
| CDelete (node : Node) (res : option error)
| CLaunchMachines (ms : list Machine) (res : list string * option error)
| CMarkForDeletion (names : list string)
| CUnmarkForDeletion (names : list string)
| CSetConsolidated (b : bool)
| CConsolidated (res : bool)
| CPublish (e : Event)
| CMetric (m : Metric)
| CCandidateNodes (d : Deprovisioner) (res : list CandidateNode * option error)
| CComputeCommand (d : Deprovisioner) (cands : list CandidateNode)
    (res : Command * option error)
| CSortAndFilter (cands : list CandidateNode)
    (res : list CandidateNode * option error)
| CComputeConsolidation (cand : CandidateNode) (res : Command * option error)
| CIsValid (cmd : Command) (res : bool * option error).

Definition History := list Call.

(** What the controller does not decide.  Every answer may depend on all that
    happened before. *)
Record Env := mkEnv {
  (** what other actors did to the shared state since the previous call *)
  others : History → Sys → Sys;
  (** the failure, if any, of a request to the API server *)
  apiFault : History → ApiRequest → option error;
  clockNow : History → Time;
  (** whether the context of the tick is done *)
  cancelled : History → bool;
  (** [provisioner.LaunchMachines] *)
  launchMachines : History → list Machine → list string * option error;
  (** [candidateNodes] with the strategy's [ShouldDeprovision] *)
  candidateNodes : History → Deprovisioner → list CandidateNode * option error;
  (** [ComputeCommand] of the strategies other than single node consolidation *)
  computeCommand :
    History → Deprovisioner → list CandidateNode → Command * option error;
  sortAndFilterCandidates :
    History → list CandidateNode → list CandidateNode * option error;
  computeConsolidation : History → CandidateNode → Command * option error;
  isValid : History → Command → bool * option error;
}.

Record World := mkWorld {
  sys : Sys;
  history : History;
}.

(** ** The monad of the controller: state passing over [World] *)

Definition M (A : Type) : Type := World → A * World.

Definition ret {A} (a : A) : M A := λ w, (a, w).

Definition bind {A B} (m : M A) (k : A → M B) : M B :=
  λ w, let (a, w') := m w in k a w'.

Notation "'let*' x ':=' m 'in' k" := (bind m (λ x, k))
  (at level 10, x name, m at level 100, k at level 200, only parsing).
Notation "'let*' ' p ':=' m 'in' k" := (bind m (λ x, let 'p := x in k))
  (at level 10, p pattern, m at level 100, k at level 200, only parsing).
Notation "m ;; k" := (bind m (λ _, k))
  (at level 100, k at level 200, right associativity, only parsing).

(** [for _, x := range xs { acc = body(acc, x) }] *)
Fixpoint forRange {A B} (body : B → A → M B) (acc : B) (xs : list A) : M B :=
  match xs with
  | [] => ret acc
  | x :: rest => let* acc' := body acc x in forRange body acc' rest
  end.

(** [retry.Do(f, retry.Attempts(attempts), retry.LastErrorOnly(true))]: [f]
    is tried until it returns nil, at most [attempts] times; the delays
    between the attempts are not modelled.  [l] is the state that the closure
    [f] keeps from one attempt to the next. *)
Fixpoint retry_Do {L} (attempts : nat) (f : L → M (option error * L)) (l : L)
  : M (option error) :=
  match attempts with
  | O => ret None
  | S n =>
      let* '(err, l') := f l in
      match err with
      | None => ret None
      | Some e =>
          match n with
          | O => ret (Some e)
          | S _ => retry_Do n f l'
          end
      end
  end.

(** [waitRetryOptions]: [retry.Attempts(60)] *)
Definition waitRetryAttempts : nat := 60.

Section Controller.

Context (env : Env).

(** A call on a collaborator: the others have had their turn since the
    previous call, the collaborator answers, and the call is recorded. *)
Definition call {A} (f : History → Sys → A * Sys) (record : A → Call) : M A :=
  λ w,
    let s := others env (history w) (sys w) in
    let (a, s') := f (history w) s in
    (a, {| sys := s'; history := history w ++ [record a] |}).

(** *** The API server *)

(** [kubeClient.Get(ctx, client.ObjectKey{Name: name}, &node)] into a zero
    [node]: the object kept under [name], served with that name. *)
Definition kubeGet (name : string) : M (Node * option error) :=
  call (λ h s,
          match apiFault env h (ReqGet name) with
          | Some e => ((zeroNode, Some e), s)
          | None =>
              match apiNodes s !! name with
              | Some n => ((setName name n, None), s)
              | None => ((zeroNode, Some (NotFound name)), s)
              end
          end)
       (CGet name).

(** [kubeClient.Patch(ctx, &node, client.MergeFrom(persisted))]: the merge
    patch carries the fields in which [node] differs from [persisted]; the
    controller changes [Spec.Unschedulable] only. *)
Definition mergeFrom (node persisted current : Node) : Node :=
  if bool_decide (Unschedulable node = Unschedulable persisted) then current
  else setUnschedulable (Unschedulable node) current.

Definition kubePatch (node persisted : Node) : M (option error) :=
  call (λ h s,
          match apiFault env h (ReqPatch (Name node)) with
          | Some e => (Some e, s)
          | None =>
              match apiNodes s !! Name node with
              | Some current =>
                  (None,
                   {| apiNodes :=
                        <[Name node := mergeFrom node persisted current]>
                          (apiNodes s);
                      marked := marked s;
                      consolidated := consolidated s |})
              | None => (Some (NotFound (Name node)), s)
              end
          end)
       (CPatch node).

(** [kubeClient.Delete(ctx, node)]: an object with finalizers gets its
    deletion timestamp, an object without is removed. *)
Definition deleteObject (now : Time) (current : Node) : option Node :=
  match Finalizers current with
  | [] => None
  | _ :: _ =>
      match DeletionTimestamp current with
      | Some _ => Some current
      | None => Some (setDeletionTimestamp (Some now) current)
      end
  end.

Definition kubeDelete (node : Node) : M (option error) :=
  call (λ h s,
          match apiFault env h (ReqDelete (Name node)) with
          | Some e => (Some e, s)
          | None =>
              match apiNodes s !! Name node with
              | Some current =>
                  (None,
                   {| apiNodes :=
                        match deleteObject (clockNow env h) current with
                        | Some n => <[Name node := n]> (apiNodes s)
                        | None => delete (Name node) (apiNodes s)
                        end;
                      marked := marked s;
                      consolidated := consolidated s |})
              | None => (Some (NotFound (Name node)), s)
              end
          end)
       (CDelete node).

(** *** The provisioner, the cluster state, the recorder, the metrics *)

Definition LaunchMachines (ms : list Machine) : M (list string * option error) :=
  call (λ h s, (launchMachines env h ms, s)) (CLaunchMachines ms).

(** Modelled from the spec: the cluster state cache is outside the files at
    hand.  "MarkForDeletion: a soft, in-memory flag in the cluster cache";
    "ClusterConsolidated flag: a boolean". *)
Definition MarkForDeletion (names : list string) : M unit :=
  call (λ _ s,
          (tt, {| apiNodes := apiNodes s;
                  marked := marked s ∪ list_to_set names;
                  consolidated := consolidated s |}))
       (λ _, CMarkForDeletion names).

Definition UnmarkForDeletion (names : list string) : M unit :=
  call (λ _ s,
          (tt, {| apiNodes := apiNodes s;
                  marked := marked s ∖ list_to_set names;
                  consolidated := consolidated s |}))
       (λ _, CUnmarkForDeletion names).

Definition SetConsolidated (b : bool) : M unit :=
  call (λ _ s,
          (tt, {| apiNodes := apiNodes s; marked := marked s;
                  consolidated := b |}))
       (λ _, CSetConsolidated b).

Definition Consolidated : M bool :=
  call (λ _ s, (consolidated s, s)) CConsolidated.

Definition Publish (e : Event) : M unit :=
  call (λ _ s, (tt, s)) (λ _, CPublish e).

Definition count (m : Metric) : M unit :=
  call (λ _ s, (tt, s)) (λ _, CMetric m).

(** *** [controller.go] *)

(** [pollingPeriod] *)
Definition pollingPeriod : Duration := 10 * Second.

(** The body of the loop of [setNodesUnschedulable]. *)
Definition setNodeUnschedulable (isUnschedulable : bool)
    (multiErr : option error) (nodeName : string) : M (option error) :=
  let* '(node, err) := kubeGet nodeName in
  let multiErr :=
    match err with
    | Some e =>
        multierr_Append multiErr (Some (Errorf "getting node, %w" [ArgError e]))
    | None => multiErr
    end in
  (* node is being deleted already, so no need to un-cordon *)
  if negb isUnschedulable && negb (IsZero (DeletionTimestamp node))
  then ret multiErr
  (* already matches the state we want to be in *)
  else if bool_decide (Unschedulable node = isUnschedulable)
  then ret multiErr
  else
    let persisted := node in
    let node := setUnschedulable isUnschedulable node in
    let* err := kubePatch node persisted in
    match err with
    | Some e =>
        ret (multierr_Append multiErr
               (Some (Errorf "patching node %s, %w"
                        [ArgString (Name node); ArgError e])))
    | None => ret multiErr
    end.

Definition setNodesUnschedulable (isUnschedulable : bool)
    (nodeNames : list string) : M (option error) :=
  forRange (setNodeUnschedulable isUnschedulable) None nodeNames.

(** [select { case <-ctx.Done(): ...; default: ... }]: whether the context is
    done, now.  The context makes no call on a collaborator. *)
Definition ctxDone : M bool := λ w, (cancelled env (history w), w).

(** [workqueue.ParallelizeUntil(ctx, workers, pieces, doWorkPiece)] with as
    many workers as pieces: a worker takes a piece, does it unless the context
    is done, and goes on to the next; the call returns when no piece is left.
    A piece found with the context done is not done at all.  The workers are
    run one after the other here, piece [0] first; [s] is the state shared by
    the pieces (the slice [errs]). *)
Definition ParallelizeUntil {S} (pieces : nat) (doWorkPiece : S → nat → M S)
    (s : S) : M S :=
  forRange
    (λ s p, let* stop := ctxDone in if stop then ret s else doWorkPiece s p)
    s (seq 0 pieces).

(** The closure given to [retry.Do] in [launchReplacementNodes]; [once] tells
    whether [sync.Once] has run. *)
Definition readinessAttempt (action : Command) (nodeName : string)
    (once : bool) : M (option error * bool) :=
  let* '(k8Node, err) := kubeGet nodeName in
  match err with
  | Some e => ret (Some (Errorf "getting node, %w" [ArgError e]), once)
  | None =>
      (if once then ret tt else Publish (LaunchingNode k8Node action));;
      if negb (initialized k8Node) then
        (* make the user aware of why deprovisioning is paused *)
        Publish (WaitingOnReadiness k8Node);;
        ret (Some (Errorf "node is not initialized" []), true)
      else ret (None, true)
  end.

(** The piece of work of [ParallelizeUntil] in [launchReplacementNodes]. *)
Definition waitForReadiness (action : Command) (nodeNames : list string)
    (errs : list (option error)) (i : nat) : M (list (option error)) :=
  let* err :=
    retry_Do waitRetryAttempts
      (readinessAttempt action (default "" (nodeNames !! i))) false in
  match err with
  | Some e => ret (<[i := Some e]> errs)
  | None => ret errs
  end.

(** [launchReplacementNodes] launches replacement nodes and blocks until it
    is ready. *)
Definition launchReplacementNodes (action : Command) : M (option error) :=
  let nodeNamesToRemove := map Name (nodesToRemove action) in
  (* cordon the old nodes before we launch the replacements *)
  let* err := setNodesUnschedulable true nodeNamesToRemove in
  match err with
  | Some e => ret (Some (Errorf "cordoning nodes, %w" [ArgError e]))
  | None =>
      let* '(nodeNames, err) := LaunchMachines (replacementNodes action) in
      match err with
      | Some e =>
          (* uncordon the nodes as the launch may fail *)
          let* err' := setNodesUnschedulable false nodeNamesToRemove in
          ret (multierr_Append (Some e) err')
      | None =>
          if negb (length nodeNames =? length (replacementNodes action))%nat
          then
            ret (Some (Errorf "expected %d node names, got %d"
                         [ArgInt (Z.of_nat (length (replacementNodes action)));
                          ArgInt (Z.of_nat (length nodeNames))]))
          else
            count (NodesCreated (length nodeNames));;
            (* the new nodes are created, so mark the old nodes for deletion *)
            MarkForDeletion nodeNamesToRemove;;
            (* wait for nodes to be ready *)
            let* errs :=
              ParallelizeUntil (length nodeNames)
                (waitForReadiness action nodeNames)
                (replicate (length nodeNames) None) in
            let multiErr := multierr_Combine errs in
            match multiErr with
            | Some e =>
                UnmarkForDeletion nodeNamesToRemove;;
                let* err' := setNodesUnschedulable false nodeNamesToRemove in
                ret (multierr_Combine
                       [err';
                        Some (Errorf "timed out checking node readiness, %w"
                                [ArgError e])])
            | None => ret None
            end
      end
  end.

(** The closure given to [retry.Do] in [waitForDeletion]. *)
Definition deletionAttempt (node : Node) (_ : unit) : M (option error * unit) :=
  let* '(_, nerr) := kubeGet (Name node) in
  (* we expect the not found error, at which point the node is deleted *)
  if IsNotFound nerr then ret (None, tt)
  else
    Publish (WaitingOnDeletion node);;
    match nerr with
    | Some e =>
        ret (Some (Errorf "expected node to be not found, %w" [ArgError e]), tt)
    | None => ret (Some (Errorf "expected node to be not found" []), tt)
    end.

(** [waitForDeletion]: the error of the wait is logged, not returned. *)
Definition waitForDeletion (node : Node) : M unit :=
  let* _ := retry_Do waitRetryAttempts (deletionAttempt node) tt in
  ret tt.

Definition executeCommand (d : Deprovisioner) (command : Command)
  : M (option error) :=
  count (ActionsPerformed d (cmdAction command));;
  let* err :=
    if bool_decide (cmdAction command = actionReplace)
    then launchReplacementNodes command
    else ret None in
  match err with
  | Some e =>
      (* if we failed to launch the replacement, don't deprovision *)
      ret (Some (Errorf "launching replacement node, %w" [ArgError e]))
  | None =>
      forRange
        (λ _ oldNode,
           Publish (TerminatingNode oldNode command);;
           let* err := kubeDelete oldNode in
           match err with
           | Some _ => ret tt
           | None => count (NodesTerminated d (cmdAction command))
           end)
        tt (nodesToRemove command);;
      (* wait for the nodes to be deleted *)
      forRange (λ _ oldnode, waitForDeletion oldnode)
        tt (nodesToRemove command);;
      ret None
  end.

(** *** [SingleNodeConsolidation.ComputeCommand] *)

(** The loop over the candidates, with its flag [failedValidation]; the end
    of the list is the code after the loop. *)
Fixpoint singleNodeCandidates (failedValidation : bool)
    (candidates : list CandidateNode) : M (Command * option error) :=
  match candidates with
  | [] =>
      (* we failed validation, so we need to retry *)
      if failedValidation then ret (CommandOf actionRetry, None)
      else ret (CommandOf actionDoNothing, None)
  | node :: rest =>
      (* compute a possible consolidation option *)
      let* '(cmd, err) :=
        call (λ h s, (computeConsolidation env h node, s))
          (CComputeConsolidation node) in
      match err with
      | Some _ => singleNodeCandidates failedValidation rest
      | None =>
          if bool_decide (cmdAction cmd = actionDoNothing)
             || bool_decide (cmdAction cmd = actionRetry)
          then singleNodeCandidates failedValidation rest
          else
            let* '(valid, err) :=
              call (λ h s, (isValid env h cmd, s)) (CIsValid cmd) in
            match err with
            | Some _ => singleNodeCandidates failedValidation rest
            | None =>
                if negb valid then singleNodeCandidates true rest
                else if bool_decide (cmdAction cmd = actionReplace)
                        || bool_decide (cmdAction cmd = actionDelete)
                then ret (cmd, None)
                else singleNodeCandidates failedValidation rest
            end
      end
  end.

(** [Command{}], returned next to an error.  Its action is the zero value of
    [action], taken to be the first of the four; no caller reads it. *)
Definition zeroCommand : Command := CommandOf actionDelete.

Definition SingleNodeConsolidation_ComputeCommand
    (candidates : list CandidateNode) : M (Command * option error) :=
  let* isConsolidated := Consolidated in
  if isConsolidated then ret (CommandOf actionDoNothing, None)
  else
    let* '(candidates, err) :=
      call (λ h s, (sortAndFilterCandidates env h candidates, s))
        (CSortAndFilter candidates) in
    match err with
    | Some e =>
        ret (zeroCommand, Some (Errorf "sorting candidates, %w" [ArgError e]))
    | None => singleNodeCandidates false candidates
    end.

(** *** The control loop *)

(** [d.ComputeCommand(ctx, candidates...)]: the method of single node
    consolidation is the one above, those of the other strategies belong to
    the environment.  The answer is recorded in both cases. *)
Definition ComputeCommand (d : Deprovisioner) (candidates : list CandidateNode)
  : M (Command * option error) :=
  match d with
  | SingleNodeConsolidation =>
      let* res := SingleNodeConsolidation_ComputeCommand candidates in
      call (λ _ s, (res, s)) (CComputeCommand d candidates)
  | _ =>
      call (λ h s, (computeCommand env h d candidates, s))
        (CComputeCommand d candidates)
  end.

(** [c.deprovisioners], as [NewController] fills it. *)
Definition deprovisioners : list Deprovisioner :=
  [Expiration; Drift; Emptiness; EmptyNodeConsolidation;
   MultiNodeConsolidation; SingleNodeConsolidation].

(** The loop of [Reconcile] over the strategies; the end of the list is the
    code after the loop. *)
Fixpoint reconcileLoop (ds : list Deprovisioner) : M (Result * option error) :=
  match ds with
  | [] =>
      (* all deprovisioners did nothing, so return nothing to do *)
      SetConsolidated true;;
      ret ({| Requeue := false; RequeueAfter := pollingPeriod |}, None)
  | d :: rest =>
      let* '(candidates, err) :=
        call (λ h s, (candidateNodes env h d, s)) (CCandidateNodes d) in
      match err with
      | Some e =>
          ret (emptyResult,
               Some (Errorf "determining candidate nodes, %w" [ArgError e]))
      | None =>
          (* if there are no candidate nodes, move to the next deprovisioner *)
          if (length candidates =? 0)%nat then reconcileLoop rest
          else
            (* determine the deprovisioning action *)
            let* '(cmd, err) := ComputeCommand d candidates in
            match err with
            | Some e =>
                ret (emptyResult,
                     Some (Errorf "computing deprovisioning decision, %w"
                             [ArgError e]))
            | None =>
                if bool_decide (cmdAction cmd = actionDoNothing)
                then reconcileLoop rest
                else if bool_decide (cmdAction cmd = actionRetry)
                then ret ({| Requeue := true; RequeueAfter := 0 |}, None)
                else
                  (* attempt to deprovision *)
                  let* err := executeCommand d cmd in
                  match err with
                  | Some e =>
                      ret (emptyResult,
                           Some (Errorf "deprovisioning nodes, %w" [ArgError e]))
                  | None =>
                      ret ({| Requeue := true; RequeueAfter := 0 |}, None)
                  end
            end
      end
  end.

Definition Reconcile : M (Result * option error) :=
  reconcileLoop deprovisioners.

End Controller.

(** ** Runs and their traces *)

(** The calls made by [m] from [w], oldest first. *)
Definition trace {A} (m : M A) (w : World) : list Call :=
  drop (length (history w)) (history (m w).2).

(** [m], started in [w], returns [a] in [w'] after the calls [tr]. *)
Definition runs {A} (m : M A) (w : World) (a : A) (tr : list Call)
    (w' : World) : Prop :=
  m w = (a, w') ∧ history w' = history w ++ tr.

(** Kinds of calls. *)
Definition isDelete (c : Call) : bool :=
  match c with CDelete _ _ => true | _ => false end.
Definition isPatch (c : Call) : bool :=
  match c with CPatch _ _ => true | _ => false end.
Definition isLaunch (c : Call) : bool :=
  match c with CLaunchMachines _ _ => true | _ => false end.
Definition isMark (c : Call) : bool :=
  match c with CMarkForDeletion _ => true | _ => false end.
Definition isUnmark (c : Call) : bool :=
  match c with CUnmarkForDeletion _ => true | _ => false end.
Definition isTerminating (c : Call) : bool :=
  match c with CPublish (TerminatingNode _ _) => true | _ => false end.
Definition isExecution (c : Call) : bool :=
  match c with CMetric (ActionsPerformed _ _) => true | _ => false end.

(** A call that changes the cluster: a patch, a delete, a launch, or a mark. *)
Definition isMutation (c : Call) : bool :=
  isPatch c || isDelete c || isLaunch c || isMark c || isUnmark c.

(** The calls of a cordon ([v = true]) or of an un-cordon ([v = false]). *)
Definition cordonCall (v : bool) (c : Call) : Prop :=
  match c with
  | CGet _ _ => True
  | CPatch n _ => Unschedulable n = v
  | _ => False
  end.

(** The calls of the wait for readiness. *)
Definition readinessCall (c : Call) : Prop :=
  match c with
  | CGet _ _ => True
  | CPublish (LaunchingNode _ _) => True
  | CPublish (WaitingOnReadiness _) => True
  | _ => False
  end.

(** The calls of the wait for deletion. *)
Definition deletionWaitCall (c : Call) : Prop :=
  match c with
  | CGet _ _ => True
  | CPublish (WaitingOnDeletion _) => True
  | _ => False
  end.

(** The call is a [Get] of [name] that answered a node with the `initialized`
    label. *)
Definition observes (name : string) (c : Call) : bool :=
  match c with
  | CGet name' (k8Node, None) => bool_decide (name' = name) && initialized k8Node
  | _ => false
  end.

(** [tr] has such a call. *)
Definition observedInitialized (name : string) (tr : list Call) : Prop :=
  Exists (λ c, observes name c = true) tr.

(** The nodes of the [Delete] calls of [tr], in order. *)
Definition deletes (tr : list Call) : list Node :=
  omap (λ c, match c with CDelete n _ => Some n | _ => None end) tr.

Section Runs.

Context (env : Env).

Lemma runs_trace {A} (m : M A) w a tr w' :
  runs m w a tr w' → trace m w = tr ∧ (m w).1 = a ∧ (m w).2 = w'.
Proof.
  intros [Hm Hh]. unfold trace. rewrite Hm. simpl. rewrite Hh.
  by rewrite drop_app_length.
Qed.

Lemma runs_ret {A} (a : A) w : runs (ret a) w a [] w.
Proof. split; [done | by rewrite app_nil_r]. Qed.

Lemma runs_bind {A B} (m : M A) (k : A → M B) w a tr1 w1 b tr2 w2 :
  runs m w a tr1 w1 → runs (k a) w1 b tr2 w2 →
  runs (bind m k) w b (tr1 ++ tr2) w2.
Proof.
  intros [Hm Hh] [Hk Hh']. split.
  - unfold bind. by rewrite Hm.
  - by rewrite Hh', Hh, app_assoc.
Qed.

Lemma runs_call {A} (f : History → Sys → A * Sys) (record : A → Call) w :
  let s := others env (history w) (sys w) in
  runs (call env f record) w (f (history w) s).1 [record (f (history w) s).1]
    {| sys := (f (history w) s).2;
       history := history w ++ [record (f (history w) s).1] |}.
Proof. intros s. split; [|done]. unfold call. fold s. by destruct (f _ s). Qed.

(** [spec m w Φ]: the run of [m] from [w] ends, and its result, its calls and
    its final world satisfy [Φ]. *)
Definition spec {A} (m : M A) (w : World)
    (Φ : A → list Call → World → Prop) : Prop :=
  ∃ a tr w', runs m w a tr w' ∧ Φ a tr w'.

Lemma spec_ret {A} (a : A) w (Φ : A → list Call → World → Prop) :
  Φ a [] w → spec (ret a) w Φ.
Proof. intros H. exists a, [], w. split; [apply runs_ret | done]. Qed.

Lemma spec_bind {A B} (m : M A) (k : A → M B) w
    (Φ : B → list Call → World → Prop) :
  spec m w (λ a tr1 w1, spec (k a) w1 (λ b tr2 w2, Φ b (tr1 ++ tr2) w2)) →
  spec (bind m k) w Φ.
Proof.
  intros (a & tr1 & w1 & Hm & b & tr2 & w2 & Hk & H).
  exists b, (tr1 ++ tr2), w2. split; [by eapply runs_bind | done].
Qed.

Lemma spec_mono {A} (m : M A) w (Φ Ψ : A → list Call → World → Prop) :
  spec m w Φ → (∀ a tr w', Φ a tr w' → Ψ a tr w') → spec m w Ψ.
Proof. intros (a & tr & w' & Hm & H) HΦ. exists a, tr, w'. eauto. Qed.

Lemma spec_call {A} (f : History → Sys → A * Sys) (record : A → Call) w
    (Φ : A → list Call → World → Prop) :
  (let s := others env (history w) (sys w) in
   Φ (f (history w) s).1 [record (f (history w) s).1]
     {| sys := (f (history w) s).2;
        history := history w ++ [record (f (history w) s).1] |}) →
  spec (call env f record) w Φ.
Proof. intros H. eexists _, _, _. split; [apply runs_call | apply H]. Qed.

Lemma spec_ctxDone w (Φ : bool → list Call → World → Prop) :
  Φ (cancelled env (history w)) [] w → spec (ctxDone env) w Φ.
Proof.
  intros H. exists (cancelled env (history w)), [], w. split; [|done].
  split; [done | by rewrite app_nil_r].
Qed.

Lemma spec_elim {A} (m : M A) w (Φ : A → list Call → World → Prop) :
  spec m w Φ → Φ (m w).1 (trace m w) (m w).2.
Proof.
  intros (a & tr & w' & Hm & H).
  by destruct (runs_trace _ _ _ _ _ Hm) as (-> & -> & ->).
Qed.

Lemma spec_runs {A} (m : M A) w (Φ : A → list Call → World → Prop) :
  spec m w Φ → spec m w (λ a tr w', runs m w a tr w' ∧ Φ a tr w').
Proof. intros (a & tr & w' & Hm & H). exists a, tr, w'. eauto. Qed.

(** A run has one result: what two specifications say of it holds together. *)
Lemma spec_and {A} (m : M A) w (Φ Ψ : A → list Call → World → Prop) :
  spec m w Φ → spec m w Ψ → spec m w (λ a tr w', Φ a tr w' ∧ Ψ a tr w').
Proof.
  intros (a & tr & w' & Hm & H) HΨ%spec_elim. exists a, tr, w'.
  split; [done|]. split; [done|].
  by destruct (runs_trace _ _ _ _ _ Hm) as (<- & <- & <-).
Qed.

End Runs.

(** ** The executor *)

Lemma multierr_Append_Some l e : multierr_Append l (Some e) ≠ None.
Proof.
  unfold multierr_Append, multierr_Combine. simpl. rewrite app_nil_r.
  destruct l as [[]|], e; simpl; try done; by destruct rest.
Qed.

Lemma multierr_Append_Some_l e r : multierr_Append (Some e) r ≠ None.
Proof.
  unfold multierr_Append, multierr_Combine. simpl. rewrite app_nil_r.
  destruct e, r as [[]|]; simpl; done.
Qed.

(** What a cordon ([v = true]) or an un-cordon ([v = false]) may do to the
    object kept under one name. *)
Definition upd (v : bool) (o o' : option Node) : Prop :=
  o' = o ∨ ∃ n, o = Some n ∧ o' = Some (setUnschedulable v n).

Lemma upd_refl v o : upd v o o.
Proof. by left. Qed.

Lemma upd_trans v o1 o2 o3 : upd v o1 o2 → upd v o2 o3 → upd v o1 o3.
Proof.
  intros [->|(n & -> & ->)] [->|(n' & H & ->)]; try (by left).
  - right. eauto.
  - right. eauto.
  - right. inversion H; subst. eauto.
Qed.

Lemma upd_keeps v o o' n :
  upd v o o' → o = Some n →
  ∃ n', o' = Some n' ∧ DeletionTimestamp n' = DeletionTimestamp n ∧
        (Unschedulable n = v → Unschedulable n' = v).
Proof.
  intros [->|(n0 & -> & ->)] H.
  - eauto.
  - inversion H; subst. eexists. split; [done|]. by simpl.
Qed.

(** One step of a run. *)
Ltac spec_step :=
  lazymatch goal with
  | |- spec (bind _ _) _ _ => apply spec_bind
  | |- spec (ret _) _ _ => apply spec_ret
  | |- spec (call _ _ _) _ _ => apply spec_call; simpl
  | |- spec (kubeGet _ _) _ _ => apply spec_call; simpl
  | |- spec (kubePatch _ _ _) _ _ => apply spec_call; simpl
  | |- spec (kubeDelete _ _) _ _ => apply spec_call; simpl
  | |- spec (LaunchMachines _ _) _ _ => apply spec_call; simpl
  | |- spec (MarkForDeletion _ _) _ _ => apply spec_call; simpl
  | |- spec (UnmarkForDeletion _ _) _ _ => apply spec_call; simpl
  | |- spec (SetConsolidated _ _) _ _ => apply spec_call; simpl
  | |- spec (Consolidated _) _ _ => apply spec_call; simpl
  | |- spec (Publish _ _) _ _ => apply spec_call; simpl
  | |- spec (count _ _) _ _ => apply spec_call; simpl
  | |- spec (ctxDone _) _ _ => apply spec_ctxDone
  end.

Section Executor.

Context (env : Env).

(** The others leave alone the objects and the marks of the names in [Q]. *)
Definition quietOn (Q : string → Prop) : Prop :=
  ∀ h s x, Q x →
    apiNodes (others env h s) !! x = apiNodes s !! x ∧
    (x ∈ marked (others env h s) ↔ x ∈ marked s).

(** The API server answers the requests about [x]. *)
Definition served (x : string) : Prop :=
  ∀ h, apiFault env h (ReqGet x) = None ∧ apiFault env h (ReqPatch x) = None.

(** The context of the tick is never cancelled. *)
Definition live : Prop := ∀ h, cancelled env h = false.

(** The objects and the marks of the names in [Q] are the same in both
    worlds. *)
Definition sameOn (Q : string → Prop) (w w' : World) : Prop :=
  ∀ x, Q x →
    apiNodes (sys w') !! x = apiNodes (sys w) !! x ∧
    (x ∈ marked (sys w') ↔ x ∈ marked (sys w)).

Lemma sameOn_refl Q w : sameOn Q w w.
Proof. by intros x Hx. Qed.

Lemma sameOn_trans Q w1 w2 w3 : sameOn Q w1 w2 → sameOn Q w2 w3 → sameOn Q w1 w3.
Proof.
  intros H1 H2 x Hx. destruct (H1 x Hx) as [E1 M1], (H2 x Hx) as [E2 M2].
  split; [congruence | tauto].
Qed.

Context (Q : string → Prop).

(** A call that touches neither the objects nor the marks. *)
Lemma spec_passive {A} (g : History → A) (record : A → Call) w
    (Φ : A → list Call → World → Prop) :
  (∀ w', (quietOn Q → sameOn Q w w') →
         consolidated (sys w') = consolidated (others env (history w) (sys w)) →
         Φ (g (history w)) [record (g (history w))] w') →
  spec (call env (λ h s, (g h, s)) record) w Φ.
Proof.
  intros H. apply spec_call. simpl. apply H; [|done].
  intros Hq x Hx. simpl. by apply Hq.
Qed.

Lemma kubeGet_spec name w (Φ : Node * option error → list Call → World → Prop) :
  (∀ node err w',
     (quietOn Q → sameOn Q w w') →
     match err with
     | None => ∃ n0, apiNodes (sys w') !! name = Some n0 ∧ node = setName name n0
     | Some _ => node = zeroNode
     end →
     (apiFault env (history w) (ReqGet name) = None →
      is_Some (apiNodes (sys w') !! name) → err = None) →
     Φ (node, err) [CGet name (node, err)] w') →
  spec (kubeGet env name) w Φ.
Proof.
  intros H. apply spec_call. simpl.
  destruct (apiFault env (history w) (ReqGet name)) as [e|] eqn:Hf; simpl.
  - apply H; [intros Hq x Hx; by apply Hq | done | done].
  - destruct (apiNodes (others env (history w) (sys w)) !! name) as [n0|] eqn:Hl;
      simpl.
    + apply H; [intros Hq x Hx; by apply Hq | | done]. simpl. eauto.
    + apply H; [intros Hq x Hx; by apply Hq | done |]. simpl.
      rewrite Hl. by intros _ [? ?].
Qed.

Lemma kubePatch_spec node persisted w
    (Φ : option error → list Call → World → Prop) :
  (∀ err w',
     (quietOn Q → ∀ x, Q x →
        (x ∈ marked (sys w') ↔ x ∈ marked (sys w)) ∧
        match err with
        | None =>
            (x = Name node ∧ ∃ cur, apiNodes (sys w) !! x = Some cur ∧
               apiNodes (sys w') !! x = Some (mergeFrom node persisted cur)) ∨
            (x ≠ Name node ∧ apiNodes (sys w') !! x = apiNodes (sys w) !! x)
        | Some _ => apiNodes (sys w') !! x = apiNodes (sys w) !! x
        end) →
     (quietOn Q → Q (Name node) →
      apiFault env (history w) (ReqPatch (Name node)) = None →
      is_Some (apiNodes (sys w) !! Name node) → err = None) →
     Φ err [CPatch node err] w') →
  spec (kubePatch env node persisted) w Φ.
Proof.
  intros H. apply spec_call. simpl.
  destruct (apiFault env (history w) (ReqPatch (Name node))) as [e|] eqn:Hf; simpl.
  - apply H; [|done]. intros Hq x Hx. simpl. destruct (Hq (history w) (sys w) x Hx).
    done.
  - destruct (apiNodes (others env (history w) (sys w)) !! Name node)
      as [cur|] eqn:Hl; simpl.
    + apply H; [|done]. intros Hq x Hx. simpl.
      destruct (Hq (history w) (sys w) x Hx) as [E Hm]. split; [done|].
      destruct (decide (x = Name node)) as [->|Hne].
      * left. split; [done|]. exists cur. rewrite lookup_insert_eq.
        split; [congruence | done].
      * right. split; [done|]. rewrite lookup_insert_ne; [|done]. done.
    + apply H.
      * intros Hq x Hx. simpl. by destruct (Hq (history w) (sys w) x Hx).
      * intros Hq Hx _ [cur Hcur].
        destruct (Hq (history w) (sys w) _ Hx) as [E _]. congruence.
Qed.

Definition cordonPost (v : bool) (acc : option error) (names : list string)
    (w : World) (r : option error) (tr : list Call) (w' : World) : Prop :=
  Forall (cordonCall v) tr ∧
  (r = None → acc = None) ∧
  (quietOn Q → ∀ y, Q y →
     upd v (apiNodes (sys w) !! y) (apiNodes (sys w') !! y) ∧
     (y ∈ marked (sys w') ↔ y ∈ marked (sys w))) ∧
  (quietOn Q → v = true → r = None → ∀ x, x ∈ names → Q x →
     ∃ n, apiNodes (sys w') !! x = Some n ∧ Unschedulable n = true) ∧
  (quietOn Q → v = false → ∀ x n, x ∈ names → Q x → served x →
     apiNodes (sys w) !! x = Some n →
     ∃ n', apiNodes (sys w') !! x = Some n' ∧
           DeletionTimestamp n' = DeletionTimestamp n ∧
           (IsZero (DeletionTimestamp n) = true → Unschedulable n' = false)).

Lemma setNodeUnschedulable_spec v acc x w :
  spec (setNodeUnschedulable env v acc x) w (cordonPost v acc [x] w).
Proof.
  unfold setNodeUnschedulable. spec_step. apply kubeGet_spec.
  intros node err w1 Hsame Hget Hserved.
  set (acc1 := match err with
               | Some e => multierr_Append acc
                             (Some (Errorf "getting node, %w" [ArgError e]))
               | None => acc
               end).
  assert (Hacc1 : acc1 = None → acc = None ∧ err = None).
  { unfold acc1. destruct err; [|done]. intros H.
    by apply multierr_Append_Some in H. }
  assert (Hframe1 : quietOn Q → ∀ y, Q y →
            upd v (apiNodes (sys w) !! y) (apiNodes (sys w1) !! y) ∧
            (y ∈ marked (sys w1) ↔ y ∈ marked (sys w))).
  { intros Hq y Hy. destruct (Hsame Hq y Hy) as [E Hm]. split; [by left|done]. }
  assert (Hfound : quietOn Q → Q x → served x → ∀ n,
            apiNodes (sys w) !! x = Some n →
            err = None ∧ node = setName x n ∧ apiNodes (sys w1) !! x = Some n).
  { intros Hq Hx Hs n Hn. destruct (Hsame Hq x Hx) as [E _].
    rewrite Hn in E. assert (err = None) as ->.
    { apply Hserved; [apply Hs | by rewrite E]. }
    destruct Hget as (n0 & Hn0 & ->). split_and!; try done. congruence. }
  destruct (negb v && negb (IsZero (DeletionTimestamp node))) eqn:Hdel.
  { spec_step. apply andb_prop in Hdel as [Hv Hdel].
    apply negb_true_iff in Hv as ->. apply negb_true_iff in Hdel.
    split_and!; try done.
    - repeat constructor.
    - intros H. by apply Hacc1.
    - intros Hq _ x' n Hx' HQ Hs Hn. apply list_elem_of_singleton in Hx' as ->.
      destruct (Hfound Hq HQ Hs n Hn) as (_ & -> & Hn1).
      exists n. split_and!; try done. simpl in Hdel. congruence. }
  destruct (bool_decide (Unschedulable node = v)) eqn:Hsame_v.
  { spec_step. apply bool_decide_eq_true in Hsame_v.
    split_and!; try done.
    - repeat constructor.
    - intros H. by apply Hacc1.
    - intros Hq -> Hr x' Hx' HQ. apply list_elem_of_singleton in Hx' as ->.
      apply Hacc1 in Hr as [_ ->]. destruct Hget as (n0 & Hn0 & ->).
      exists n0. by split.
    - intros Hq -> x' n Hx' HQ Hs Hn. apply list_elem_of_singleton in Hx' as ->.
      destruct (Hfound Hq HQ Hs n Hn) as (_ & -> & Hn1).
      exists n. by split_and!. }
  apply bool_decide_eq_false in Hsame_v.
  spec_step. apply kubePatch_spec. intros err0 w2 Hpatch Hpatched.
  simpl in Hpatch, Hpatched.
  assert (Hmerge : ∀ cur, mergeFrom (setUnschedulable v node) node cur
                          = setUnschedulable v cur).
  { intros cur. unfold mergeFrom. simpl. rewrite bool_decide_eq_false_2; [done|].
    congruence. }
  assert (Hframe2 : quietOn Q → ∀ y, Q y →
            upd v (apiNodes (sys w) !! y) (apiNodes (sys w2) !! y) ∧
            (y ∈ marked (sys w2) ↔ y ∈ marked (sys w))).
  { intros Hq y Hy. destruct (Hframe1 Hq y Hy) as [U1 M1].
    destruct (Hpatch Hq y Hy) as [M2 U2]. split; [|tauto].
    eapply upd_trans; [apply U1|].
    destruct err0; [left; done|].
    destruct U2 as [(-> & cur & Hcur & Hcur')|[_ E]]; [|by left].
    right. exists cur. by rewrite Hcur', Hmerge. }
  assert (Hset : quietOn Q → Q x → err = None → err0 = None →
            ∃ n0, apiNodes (sys w1) !! x = Some n0 ∧
                  apiNodes (sys w2) !! x = Some (setUnschedulable v n0)).
  { intros Hq Hx -> ->. destruct Hget as (n0 & Hn0 & ->). simpl in Hpatch.
    destruct (Hpatch Hq x Hx) as [_ [(_ & cur & Hcur & Hcur')|[Hne _]]]; [|done].
    exists n0. split; [done|]. rewrite Hcur', Hmerge. congruence. }
  destruct err0 as [e0|]; spec_step.
  - split_and!; try done.
    + repeat constructor.
    + intros H. by apply multierr_Append_Some in H.
    + intros _ _ H. by apply multierr_Append_Some in H.
    + intros Hq -> x' n Hx' HQ Hs Hn. apply list_elem_of_singleton in Hx' as ->.
      destruct (Hfound Hq HQ Hs n Hn) as (-> & -> & Hn1). simpl in Hpatched.
      assert (Some e0 = None) as He; [|done].
      apply Hpatched; [done | done | apply Hs | by rewrite Hn1].
  - split_and!; try done.
    + repeat constructor.
    + intros H. by apply Hacc1.
    + intros Hq -> Hr x' Hx' HQ. apply list_elem_of_singleton in Hx' as ->.
      apply Hacc1 in Hr as [_ ->].
      destruct (Hset Hq HQ eq_refl eq_refl) as (n0 & _ & Hn2).
      eexists. split; [apply Hn2|done].
    + intros Hq -> x' n Hx' HQ Hs Hn. apply list_elem_of_singleton in Hx' as ->.
      destruct (Hfound Hq HQ Hs n Hn) as (-> & -> & Hn1).
      destruct (Hset Hq HQ eq_refl eq_refl) as (n0 & Hn0 & Hn2).
      eexists. split; [apply Hn2|]. rewrite Hn1 in Hn0. by inversion Hn0.
Qed.

Lemma forRange_cordon_spec v names : ∀ acc w,
  spec (forRange (setNodeUnschedulable env v) acc names) w
    (cordonPost v acc names w).
Proof.
  induction names as [|x rest IH]; intros acc w; simpl.
  - spec_step. split_and!; try done.
    + intros _ y _. split; [apply upd_refl | done].
    + intros _ _ _ x Hx. by apply elem_of_nil in Hx.
    + intros _ _ x n Hx. by apply elem_of_nil in Hx.
  - spec_step. eapply spec_mono; [apply setNodeUnschedulable_spec|].
    intros acc1 tr1 w1 (F1 & A1 & U1 & C1 & N1).
    eapply spec_mono; [apply IH|].
    intros r tr2 w2 (F2 & A2 & U2 & C2 & N2).
    unfold cordonPost. split_and!.
    + by apply Forall_app.
    + auto.
    + intros Hq y Hy. destruct (U1 Hq y Hy) as [Ua Ma], (U2 Hq y Hy) as [Ub Mb].
      split; [by eapply upd_trans | tauto].
    + intros Hq Hv Hr x' Hx' HQ. apply elem_of_cons in Hx' as [->|Hx'].
      * destruct (C1 Hq Hv (A2 Hr) x) as (n & Hn & Hu); [by left | done |].
        destruct (U2 Hq x HQ) as [Ub _].
        destruct (upd_keeps _ _ _ _ Ub Hn) as (n' & Hn' & _ & Hk).
        exists n'. split; [done|]. rewrite <- Hv. apply Hk. congruence.
      * by apply C2.
    + intros Hq Hv x' n Hx' HQ Hs Hn. apply elem_of_cons in Hx' as [->|Hx'].
      * destruct (N1 Hq Hv x n) as (n1 & Hn1 & Hd1 & Hu1); [by left | done..|].
        destruct (U2 Hq x HQ) as [Ub _].
        destruct (upd_keeps _ _ _ _ Ub Hn1) as (n' & Hn' & Hd' & Hk).
        exists n'. split_and!; [done | congruence |].
        intros Hz. rewrite <- Hv. apply Hk. rewrite Hv. by apply Hu1.
      * destruct (U1 Hq x' HQ) as [Ua _].
        destruct (upd_keeps _ _ _ _ Ua Hn) as (n1 & Hn1 & Hd1 & _).
        destruct (N2 Hq Hv x' n1) as (n' & Hn' & Hd' & Hu'); [done..|].
        exists n'. split_and!; [done | congruence |].
        intros Hz. apply Hu'. by rewrite Hd1.
Qed.

Lemma setNodesUnschedulable_spec v names w :
  spec (setNodesUnschedulable env v names) w (cordonPost v None names w).
Proof. apply forRange_cordon_spec. Qed.

Lemma retry_Do_spec {L} (f : L → M (option error * L)) (C : Call → Prop)
    (G : list Call → Prop) :
  (∀ tr1 tr2, G tr2 → G (tr1 ++ tr2)) →
  (∀ l w, spec (f l) w (λ r tr w',
     Forall C tr ∧ (quietOn Q → sameOn Q w w') ∧ (r.1 = None → G tr))) →
  ∀ attempts l w, spec (retry_Do attempts f l) w (λ err tr w',
     Forall C tr ∧ (quietOn Q → sameOn Q w w') ∧
     (attempts ≠ 0%nat → err = None → G tr)).
Proof.
  intros Hmono Hf. induction attempts as [|n IH]; intros l w; simpl.
  - spec_step. split_and!; [done | intros _; apply sameOn_refl | done].
  - spec_step. eapply spec_mono; [apply Hf|].
    intros [err l'] tr1 w1 (F1 & S1 & G1). simpl in G1.
    destruct err as [e|].
    + destruct n as [|n'].
      * spec_step. rewrite app_nil_r. split_and!; done.
      * eapply spec_mono; [apply IH|].
        intros err tr2 w2 (F2 & S2 & G2). split_and!.
        -- by apply Forall_app.
        -- intros Hq. eapply sameOn_trans; eauto.
        -- intros _ Herr. apply Hmono. by apply G2.
    + spec_step. rewrite app_nil_r. split_and!; auto.
Qed.

Lemma observedInitialized_app_r name tr1 tr2 :
  observedInitialized name tr2 → observedInitialized name (tr1 ++ tr2).
Proof. intros H. apply Exists_app. by right. Qed.

Lemma observedInitialized_app_l name tr1 tr2 :
  observedInitialized name tr1 → observedInitialized name (tr1 ++ tr2).
Proof. intros H. apply Exists_app. by left. Qed.

Lemma readinessAttempt_spec c name once w :
  spec (readinessAttempt env c name once) w (λ r tr w',
    Forall readinessCall tr ∧ (quietOn Q → sameOn Q w w') ∧
    (r.1 = None → observedInitialized name tr)).
Proof.
  unfold readinessAttempt. spec_step. apply kubeGet_spec.
  intros node err w1 Hsame _ _. destruct err as [e|].
  { spec_step. simpl. split_and!; [by repeat constructor | done | done]. }
  spec_step.
  assert (Hpub : spec (if once then ret tt
                       else Publish env (LaunchingNode node c)) w1
            (λ _ tr w', Forall readinessCall tr ∧ (quietOn Q → sameOn Q w1 w'))).
  { destruct once; spec_step.
    - split; [done | intros _; apply sameOn_refl].
    - split; [repeat constructor|]. intros Hq x Hx. simpl. by apply Hq. }
  eapply spec_mono; [apply Hpub|]. intros _ tr2 w2 [F2 S2].
  destruct (initialized node) eqn:Hinit; simpl.
  - spec_step. rewrite app_nil_r. split_and!.
    + constructor; done.
    + intros Hq. eapply sameOn_trans; eauto.
    + intros _. apply Exists_cons_hd. simpl.
      rewrite bool_decide_eq_true_2; [|done]. by rewrite Hinit.
  - spec_step. spec_step. spec_step. simpl. split_and!; [| |done].
    + constructor; [done|]. apply Forall_app. split; [done|].
      repeat constructor.
    + intros Hq. eapply sameOn_trans; [by apply Hsame|].
      eapply sameOn_trans; [by apply S2|].
      intros x Hx. simpl. by apply Hq.
Qed.

Lemma waitForReadiness_spec c names errs i w :
  spec (waitForReadiness env c names errs i) w (λ errs' tr w',
    Forall readinessCall tr ∧ (quietOn Q → sameOn Q w w') ∧
    length errs' = length errs ∧
    (∀ j, j ≠ i → errs' !! j = errs !! j) ∧
    (errs' !! i = Some None → ∀ name, names !! i = Some name →
       observedInitialized name tr)).
Proof.
  unfold waitForReadiness. spec_step.
  eapply spec_mono.
  { apply (retry_Do_spec _ readinessCall
             (observedInitialized (default "" (names !! i)))).
    - intros tr1 tr2. apply observedInitialized_app_r.
    - intros l w0. apply readinessAttempt_spec. }
  intros err tr1 w1 (F1 & S1 & G1). destruct err as [e|]; spec_step.
  - rewrite app_nil_r. split_and!; try done.
    + by rewrite length_insert.
    + intros j Hj. by rewrite list_lookup_insert_ne.
    + intros Hi name Hname.
      destruct (decide (i < length errs)%nat) as [Hlt|Hge].
      * rewrite list_lookup_insert_eq in Hi; [done | lia].
      * rewrite list_insert_ge in Hi; [|lia].
        apply lookup_lt_Some in Hi. lia.
  - rewrite app_nil_r. split_and!; try done.
    intros _ name Hname. rewrite Hname in G1. simpl in G1. by apply G1.
Qed.

Lemma forRange_readiness_spec c names : ∀ m k errs w,
  spec (forRange
          (λ errs p,
             let* stop := ctxDone env in
             if stop then ret errs else waitForReadiness env c names errs p)
          errs (seq k m)) w
    (λ errs' tr w',
       Forall readinessCall tr ∧ (quietOn Q → sameOn Q w w') ∧
       length errs' = length errs ∧
       (∀ j, (j < k ∨ k + m ≤ j)%nat → errs' !! j = errs !! j) ∧
       (live → ∀ j name, (k ≤ j < k + m)%nat → errs' !! j = Some None →
          names !! j = Some name → observedInitialized name tr)).
Proof.
  induction m as [|m IH]; intros k errs w; simpl.
  - spec_step. split_and!.
    + constructor.
    + intros _. apply sameOn_refl.
    + done.
    + done.
    + intros _ j name Hj. lia.
  - spec_step.
    assert (Hpiece : spec
              (let* stop := ctxDone env in
               if stop then ret errs else waitForReadiness env c names errs k)
              w
              (λ errs1 tr1 w1,
                 Forall readinessCall tr1 ∧ (quietOn Q → sameOn Q w w1) ∧
                 length errs1 = length errs ∧
                 (∀ j, j ≠ k → errs1 !! j = errs !! j) ∧
                 (live → errs1 !! k = Some None → ∀ name,
                    names !! k = Some name → observedInitialized name tr1))).
    { spec_step. spec_step.
      destruct (cancelled env (history w)) eqn:Hstop.
      - spec_step. split_and!; [done | | done | done |].
        + intros Hq. apply sameOn_refl.
        + intros Hlive. by rewrite Hlive in Hstop.
      - eapply spec_mono; [apply waitForReadiness_spec|].
        intros errs1 tr1 w1 (F1 & S1 & L1 & O1 & G1). split_and!; auto. }
    eapply spec_mono; [apply Hpiece|].
    intros errs1 tr1 w1 (F1 & S1 & L1 & O1 & G1).
    eapply spec_mono; [apply IH|].
    intros errs2 tr2 w2 (F2 & S2 & L2 & O2 & G2). split_and!.
    + by apply Forall_app.
    + intros Hq. eapply sameOn_trans; eauto.
    + congruence.
    + intros j Hj. rewrite O2; [|lia]. apply O1. lia.
    + intros Hlive j name Hj Hnone Hname.
      destruct (decide (j = k)) as [->|Hne].
      * apply observedInitialized_app_l. apply G1; [done| |done].
        rewrite <- O2; [done|lia].
      * apply observedInitialized_app_r. apply (G2 Hlive j); [lia|done..].
Qed.

Lemma fromSlice_None es : fromSlice es = None → es = [].
Proof. by destruct es as [|? [|]]. Qed.

Lemma multierr_Combine_None errs :
  multierr_Combine errs = None → ∀ e, e ∈ errs → e = None.
Proof.
  unfold multierr_Combine. intros H%fromSlice_None e He.
  induction errs as [|e' errs IH]; [by apply elem_of_nil in He|].
  simpl in H. apply app_eq_nil in H as [H1 H2].
  apply elem_of_cons in He as [->|He]; [|by apply IH].
  by destruct e' as [[]|].
Qed.

Lemma ParallelizeUntil_readiness_spec c names w :
  spec (ParallelizeUntil env (length names) (waitForReadiness env c names)
          (replicate (length names) None)) w
    (λ errs tr w',
       Forall readinessCall tr ∧ (quietOn Q → sameOn Q w w') ∧
       (live → multierr_Combine errs = None →
        ∀ name, name ∈ names → observedInitialized name tr)).
Proof.
  unfold ParallelizeUntil. eapply spec_mono; [apply forRange_readiness_spec|].
  intros errs tr w' (F & S & L & _ & G). split_and!; try done.
  intros Hlive Hnone name (j & Hj)%list_elem_of_lookup.
  apply (G Hlive j); [| |done].
  - apply lookup_lt_Some in Hj. lia.
  - rewrite length_replicate in L.
    destruct (errs !! j) as [e|] eqn:He.
    + f_equal. apply (multierr_Combine_None errs Hnone).
      apply list_elem_of_lookup. eauto.
    + apply lookup_ge_None in He. apply lookup_lt_Some in Hj. lia.
Qed.

End Executor.

(** *** The calls of [setNodesUnschedulable], one by one *)


(** The names of the [Get] calls of [tr], and the nodes of its [Patch] calls,
    in order. *)
Definition gets (tr : list Call) : list string :=
  omap (λ c, match c with CGet name _ => Some name | _ => None end) tr.

Definition patches (tr : list Call) : list Node :=
  omap (λ c, match c with CPatch n _ => Some n | _ => None end) tr.

(** The call answered with an error. *)
Definition failedCall (c : Call) : bool :=
  match c with
  | CGet _ (_, Some _) | CPatch _ (Some _) | CDelete _ (Some _)
  | CLaunchMachines _ (_, Some _) => true
  | _ => false
  end.

(** The errors that [setNodesUnschedulable] makes of the failed [Get] and
    [Patch] calls of [tr], in order. *)
Definition cordonError (c : Call) : option error :=
  match c with
  | CGet _ (_, Some e) => Some (Errorf "getting node, %w" [ArgError e])
  | CPatch n (Some e) =>
      Some (Errorf "patching node %s, %w" [ArgString (Name n); ArgError e])
  | _ => None
  end.

Definition cordonErrors (tr : list Call) : list error := omap cordonError tr.

(** The calls of [setNodesUnschedulable] for the given names: for each name a
    [Get], and a [Patch] of the node that the [Get] answered, unless that node
    is being deleted (for an un-cordon) or is as wanted already. *)
Inductive cordonSteps (v : bool) : list string → list Call → Prop :=
| cordonSteps_nil : cordonSteps v [] []
| cordonSteps_skip x xs node err tr :
    (v = false ∧ IsZero (DeletionTimestamp node) = false) ∨
    Unschedulable node = v →
    cordonSteps v xs tr →
    cordonSteps v (x :: xs) (CGet x (node, err) :: tr)
| cordonSteps_patch x xs node err res tr :
    (v = false → IsZero (DeletionTimestamp node) = true) →
    Unschedulable node ≠ v →
    cordonSteps v xs tr →
    cordonSteps v (x :: xs)
      (CGet x (node, err) :: CPatch (setUnschedulable v node) res :: tr).

Lemma errorList_Append acc format args :
  errorList (multierr_Append acc (Some (Errorf format args)))
  = errorList acc ++ [Errorf format args].
Proof.
  unfold multierr_Append, multierr_Combine. simpl.
  by destruct (errorList acc) as [|e1 [|e2 rest]].
Qed.

Lemma cordonErrors_app tr1 tr2 :
  cordonErrors (tr1 ++ tr2) = cordonErrors tr1 ++ cordonErrors tr2.
Proof. apply omap_app. Qed.

Lemma cordonSteps_app v xs ys tr1 tr2 :
  cordonSteps v xs tr1 → cordonSteps v ys tr2 →
  cordonSteps v (xs ++ ys) (tr1 ++ tr2).
Proof.
  induction 1; intros H2; simpl; [done | |].
  - apply cordonSteps_skip; auto.
  - apply cordonSteps_patch; auto.
Qed.

Section Cordon.

Context (env : Env).

Lemma setNodeUnschedulable_steps v acc x w :
  spec (setNodeUnschedulable env v acc x) w (λ r tr _,
    cordonSteps v [x] tr ∧ errorList r = errorList acc ++ cordonErrors tr).
Proof.
  unfold setNodeUnschedulable. spec_step.
  apply (kubeGet_spec env (λ _, False)). intros node err w1 _ _ _.
  set (acc1 := match err with
               | Some e => multierr_Append acc
                             (Some (Errorf "getting node, %w" [ArgError e]))
               | None => acc
               end).
  assert (Hacc1 : errorList acc1
                  = errorList acc ++ cordonErrors [CGet x (node, err)]).
  { unfold acc1. destruct err as [e|]; simpl.
    - apply errorList_Append.
    - by rewrite app_nil_r. }
  destruct (negb v && negb (IsZero (DeletionTimestamp node))) eqn:Hdel.
  { spec_step. apply andb_prop in Hdel as [Hv Hdel].
    apply negb_true_iff in Hv, Hdel. split; [|done].
    apply cordonSteps_skip; [by left | constructor]. }
  destruct (bool_decide (Unschedulable node = v)) eqn:Hsame.
  { spec_step. apply bool_decide_eq_true in Hsame. split; [|done].
    apply cordonSteps_skip; [by right | constructor]. }
  apply bool_decide_eq_false in Hsame.
  spec_step. apply (kubePatch_spec env (λ _, False)). intros err0 w2 _ _.
  assert (Hsteps : cordonSteps v [x]
            ([CGet x (node, err)] ++ [CPatch (setUnschedulable v node) err0] ++ [])).
  { apply cordonSteps_patch; [|done|constructor].
    intros ->. simpl in Hdel. by apply negb_false_iff in Hdel. }
  destruct err0 as [e0|]; spec_step; (split; [exact Hsteps|]).
  - rewrite errorList_Append, Hacc1.
    change ([CGet x (node, err)] ++
            [CPatch (setUnschedulable v node) (Some e0)] ++ [])
      with ([CGet x (node, err)] ++
            [CPatch (setUnschedulable v node) (Some e0)]).
    by rewrite cordonErrors_app, <- app_assoc.
  - rewrite Hacc1.
    change ([CGet x (node, err)] ++
            [CPatch (setUnschedulable v node) None] ++ [])
      with ([CGet x (node, err)] ++
            [CPatch (setUnschedulable v node) None]).
    rewrite cordonErrors_app. simpl. by rewrite app_nil_r.
Qed.

Lemma forRange_cordon_steps v names : ∀ acc w,
  spec (forRange (setNodeUnschedulable env v) acc names) w (λ r tr _,
    cordonSteps v names tr ∧ errorList r = errorList acc ++ cordonErrors tr).
Proof.
  induction names as [|x rest IH]; intros acc w; simpl.
  - spec_step. split; [constructor | by rewrite app_nil_r].
  - spec_step. eapply spec_mono; [apply setNodeUnschedulable_steps|].
    intros acc1 tr1 w1 [S1 E1]. eapply spec_mono; [apply IH|].
    intros r tr2 w2 [S2 E2]. split.
    + by apply (cordonSteps_app v [x] rest).
    + by rewrite E2, E1, cordonErrors_app, app_assoc.
Qed.

Lemma setNodesUnschedulable_steps v names w :
  spec (setNodesUnschedulable env v names) w (λ r tr _,
    cordonSteps v names tr ∧ errorList r = cordonErrors tr).
Proof. apply forRange_cordon_steps. Qed.

End Cordon.

Lemma cordonSteps_gets v names tr : cordonSteps v names tr → gets tr = names.
Proof. induction 1; simpl; by f_equal. Qed.

Lemma cordonSteps_calls v names tr :
  cordonSteps v names tr → Forall (cordonCall v) tr.
Proof. induction 1; repeat (constructor; [done|]); done. Qed.

Lemma cordonSteps_patch_after_get v names tr :
  cordonSteps v names tr →
  ∀ i n res, tr !! i = Some (CPatch n res) →
    ∃ j x node err,
      i = S j ∧ tr !! j = Some (CGet x (node, err)) ∧
      n = setUnschedulable v node ∧ Unschedulable node ≠ v ∧
      (v = false → IsZero (DeletionTimestamp node) = true).
Proof.
  induction 1 as [|x xs node err tr Hc Hs IH|x xs node err res tr Hd Hu Hs IH];
    intros i n r Hi.
  - done.
  - destruct i as [|i]; [done|]. simpl in Hi.
    destruct (IH i n r Hi) as (j & x' & node' & err' & -> & Hj & H1 & H2 & H3).
    exists (S j), x', node', err'. by split_and!.
  - destruct i as [|[|i]]; [done| |].
    + simpl in Hi. inversion Hi; subst. exists 0%nat, x, node, err.
      by split_and!.
    + simpl in Hi.
      destruct (IH i n r Hi) as (j & x' & node' & err' & -> & Hj & H1 & H2 & H3).
      exists (S (S j)), x', node', err'. by split_and!.
Qed.

Lemma cordonErrors_nil tr :
  Forall (cordonCall true) tr ∨ Forall (cordonCall false) tr →
  cordonErrors tr = [] ↔ Forall (λ c, failedCall c = false) tr.
Proof.
  intros Hk. assert (F : Forall (λ c, ∃ v, cordonCall v c) tr).
  { destruct Hk as [F|F]; (eapply Forall_impl; [apply F|]); eauto. }
  clear Hk. induction F as [|c tr [v Hc] _ IH]; [done|].
  unfold cordonErrors in *. simpl.
  destruct c as [x [n [e|]]|n [e|]| | | | | | | | | | | | |]; try done; simpl.
  - split; [done|]. by intros [? _]%Forall_cons.
  - rewrite IH. split; [by constructor | by intros [_ ?]%Forall_cons].
  - split; [done|]. by intros [? _]%Forall_cons.
  - rewrite IH. split; [by constructor | by intros [_ ?]%Forall_cons].
Qed.

(** *** The un-cordon and the nodes that are being deleted *)

Section Uncordon.

Context (env : Env) (Q : string → Prop).

(** The nodes of [Q] that are being deleted are the same in both worlds. *)
Definition deletingKept (w w' : World) : Prop :=
  ∀ y n, Q y → apiNodes (sys w) !! y = Some n →
    IsZero (DeletionTimestamp n) = false → apiNodes (sys w') !! y = Some n.

Lemma setNodeUnschedulable_deleting acc x w :
  spec (setNodeUnschedulable env false acc x) w
    (λ _ _ w', quietOn env Q → deletingKept w w').
Proof.
  unfold setNodeUnschedulable. spec_step. apply (kubeGet_spec env Q).
  intros node err w1 Hsame Hget _.
  assert (H1 : quietOn env Q → deletingKept w w1).
  { intros Hq y n Hy Hn _. destruct (Hsame Hq y Hy) as [E _]. congruence. }
  simpl. destruct (IsZero (DeletionTimestamp node)) eqn:Hz; simpl;
    [|by spec_step].
  destruct (bool_decide (Unschedulable node = false)) eqn:Hu; [by spec_step|].
  apply bool_decide_eq_false in Hu.
  spec_step. apply (kubePatch_spec env Q). intros err0 w2 Hpatch _.
  assert (H2 : quietOn env Q → deletingKept w w2).
  { intros Hq y n Hy Hn Hdel. destruct (Hpatch Hq y Hy) as [_ Hp].
    destruct (Hsame Hq y Hy) as [E _]. rewrite Hn in E.
    destruct err0 as [e0|]; [congruence|].
    destruct Hp as [(Hname & _)|[_ E2]]; [|congruence]. exfalso.
    simpl in Hname. destruct err as [e|].
    - subst node. by destruct Hu.
    - destruct Hget as (n0 & Hn0 & ->). simpl in Hname. subst y.
      assert (n0 = n) as -> by congruence. simpl in Hz. congruence. }
  destruct err0; by spec_step.
Qed.

Lemma forRange_uncordon_deleting names : ∀ acc w,
  spec (forRange (setNodeUnschedulable env false) acc names) w
    (λ _ _ w', quietOn env Q → deletingKept w w').
Proof.
  induction names as [|x rest IH]; intros acc w; simpl.
  - spec_step. intros _ y n _ Hn _. done.
  - spec_step. eapply spec_mono; [apply setNodeUnschedulable_deleting|].
    intros acc1 tr1 w1 H1. eapply spec_mono; [apply IH|].
    intros r tr2 w2 H2 Hq y n Hy Hn Hdel.
    apply (H2 Hq); [done | by apply (H1 Hq) | done].
Qed.

(** All that is known of an un-cordon: what it does to the nodes, its calls
    and its error. *)
Lemma uncordon_spec names w :
  spec (setNodesUnschedulable env false names) w (λ r tr w',
    cordonPost env Q false None names w r tr w' ∧
    (cordonSteps false names tr ∧ errorList r = cordonErrors tr) ∧
    (quietOn env Q → deletingKept w w')).
Proof.
  apply spec_and; [apply setNodesUnschedulable_spec|].
  apply spec_and; [apply setNodesUnschedulable_steps|].
  apply forRange_uncordon_deleting.
Qed.

End Uncordon.

(** *** The errors of the wait for readiness *)

(** The errors of an attempt of the wait for readiness. *)
Definition readinessError (e : error) : Prop :=
  e = Errorf "node is not initialized" [] ∨
  ∃ e0, e = Errorf "getting node, %w" [ArgError e0].

(** An entry of the slice [errs]: nil, or such an error. *)
Definition readinessEntry (o : option error) : Prop :=
  ∀ e, o = Some e → readinessError e.

Lemma errorList_readiness errs e :
  Forall readinessEntry errs → multierr_Combine errs = Some e →
  Forall readinessError (errorList (Some e)).
Proof.
  intros F.
  assert (Hl : Forall readinessError (concat (map errorList errs))).
  { induction F as [|o errs Ho _ IH]; [constructor|]. simpl.
    apply Forall_app_2; [|done]. destruct o as [e0|]; [|constructor].
    destruct (Ho e0 eq_refl) as [->|[e1 ->]]; simpl; constructor;
      [by left | constructor | right; eauto | constructor]. }
  intros He. unfold multierr_Combine in He.
  destruct (concat (map errorList errs)) as [|e1 [|e2 rest]]; simpl in He.
  - done.
  - inversion He; subst. apply Forall_cons in Hl as [[->|[e0 ->]] _];
      simpl; (constructor; [|constructor]); [by left | right; eauto].
  - inversion He; subst. done.
Qed.

Section ReadinessErrors.

Context (env : Env).

Lemma retry_Do_error {L} (f : L → M (option error * L)) (P : error → Prop) :
  (∀ l w, spec (f l) w (λ r _ _, ∀ e, r.1 = Some e → P e)) →
  ∀ attempts l w,
    spec (retry_Do attempts f l) w (λ err _ _, ∀ e, err = Some e → P e).
Proof.
  intros Hf. induction attempts as [|n IH]; intros l w; simpl.
  - by spec_step.
  - spec_step. eapply spec_mono; [apply Hf|].
    intros [err l'] tr1 w1 H1. simpl in H1. destruct err as [e|].
    + destruct n as [|n']; [by spec_step|].
      eapply spec_mono; [apply IH|]. by intros err tr2 w2 H2.
    + by spec_step.
Qed.

Lemma readinessAttempt_error c name once w :
  spec (readinessAttempt env c name once) w
    (λ r _ _, ∀ e, r.1 = Some e → readinessError e).
Proof.
  unfold readinessAttempt. spec_step. apply (kubeGet_spec env (λ _, False)).
  intros node err w1 _ _ _. destruct err as [e|].
  { spec_step. simpl. intros e' [= <-]. right. eauto. }
  spec_step.
  assert (Hpub : spec (if once then ret tt
                       else Publish env (LaunchingNode node c)) w1
            (λ _ _ _, True)).
  { destruct once; by spec_step. }
  eapply spec_mono; [apply Hpub|]. intros _ tr2 w2 _.
  destruct (initialized node); simpl.
  - by spec_step.
  - spec_step. spec_step. spec_step. simpl. intros e' [= <-]. by left.
Qed.

Lemma waitForReadiness_error c names errs i w :
  Forall readinessEntry errs →
  spec (waitForReadiness env c names errs i) w
    (λ errs' _ _, Forall readinessEntry errs').
Proof.
  intros F. unfold waitForReadiness. spec_step.
  eapply spec_mono.
  { apply (retry_Do_error _ readinessError). intros l w0.
    apply readinessAttempt_error. }
  intros err tr1 w1 He. destruct err as [e|]; spec_step; [|done].
  apply Forall_insert; [done|]. intros e' [= <-]. by apply He.
Qed.

Lemma ParallelizeUntil_readiness_error c names w :
  spec (ParallelizeUntil env (length names) (waitForReadiness env c names)
          (replicate (length names) None)) w
    (λ errs _ _, Forall readinessEntry errs).
Proof.
  unfold ParallelizeUntil.
  assert (H : ∀ pieces errs w0, Forall readinessEntry errs →
            spec (forRange
                    (λ errs p,
                       let* stop := ctxDone env in
                       if stop then ret errs
                       else waitForReadiness env c names errs p)
                    errs pieces) w0
              (λ errs' _ _, Forall readinessEntry errs')).
  { induction pieces as [|p pieces IH]; intros errs w0 F; simpl.
    - by spec_step.
    - spec_step. spec_step. spec_step.
      destruct (cancelled env (history w0)).
      + spec_step. by apply IH.
      + eapply spec_mono; [by apply waitForReadiness_error|].
        intros errs1 tr1 w1 F1. by apply IH. }
  apply H. apply Forall_replicate. by intros e.
Qed.

End ReadinessErrors.

(** *** [launchReplacementNodes], case by case *)

Section Launch.

Context (env : Env) (c : Command).

Let old := map Name (nodesToRemove c).

(** The others leave the nodes to remove alone. *)
Definition undisturbed : Prop := quietOn env (λ x, x ∈ map Name (nodesToRemove c)).

Definition cordoned (w' : World) : Prop :=
  ∀ x, x ∈ map Name (nodesToRemove c) →
    ∃ n, apiNodes (sys w') !! x = Some n ∧ Unschedulable n = true.

(** Every node to remove that is not being deleted is schedulable again, as
    far as the API server answered the requests about it; one that is being
    deleted is still unschedulable. *)
Definition uncordoned (w' : World) : Prop :=
  ∀ x, x ∈ map Name (nodesToRemove c) →
    ∃ n, apiNodes (sys w') !! x = Some n ∧
         (served env x → IsZero (DeletionTimestamp n) = true →
          Unschedulable n = false) ∧
         (IsZero (DeletionTimestamp n) = false → Unschedulable n = true).

Definition marksKept (w w' : World) : Prop :=
  ∀ x, x ∈ map Name (nodesToRemove c) →
    (x ∈ marked (sys w') ↔ x ∈ marked (sys w)).

Definition unmarked (w' : World) : Prop :=
  ∀ x, x ∈ map Name (nodesToRemove c) → x ∉ marked (sys w').

Inductive launchOutcome (w : World)
  : option error → list Call → World → Prop :=
| CordonFailed e tr w' :
    Forall (cordonCall true) tr →
    (undisturbed → marksKept w w') →
    launchOutcome w (Some (Errorf "cordoning nodes, %w" [ArgError e])) tr w'
| LaunchFailed names e err' trc tru w' :
    Forall (cordonCall true) trc →
    Forall (cordonCall false) tru →
    (undisturbed → marksKept w w' ∧ uncordoned w') →
    cordonSteps false (map Name (nodesToRemove c)) tru →
    errorList err' = cordonErrors tru →
    launchOutcome w (multierr_Append (Some e) err')
      (trc ++ [CLaunchMachines (replacementNodes c) (names, Some e)] ++ tru) w'
| CountMismatch names trc w' :
    Forall (cordonCall true) trc →
    length names ≠ length (replacementNodes c) →
    (undisturbed → marksKept w w' ∧ cordoned w') →
    launchOutcome w
      (Some (Errorf "expected %d node names, got %d"
               [ArgInt (Z.of_nat (length (replacementNodes c)));
                ArgInt (Z.of_nat (length names))]))
      (trc ++ [CLaunchMachines (replacementNodes c) (names, None)]) w'
| Ready names trc trw w' :
    Forall (cordonCall true) trc →
    length names = length (replacementNodes c) →
    Forall readinessCall trw →
    (live env → ∀ name, name ∈ names → observedInitialized name trw) →
    (undisturbed → cordoned w') →
    launchOutcome w None
      (trc ++ [CLaunchMachines (replacementNodes c) (names, None);
               CMetric (NodesCreated (length names));
               CMarkForDeletion (map Name (nodesToRemove c))] ++ trw) w'
| NotReady names e err' trc trw tru w' :
    Forall (cordonCall true) trc →
    length names = length (replacementNodes c) →
    Forall readinessCall trw →
    Forall (cordonCall false) tru →
    (undisturbed → unmarked w' ∧ uncordoned w') →
    cordonSteps false (map Name (nodesToRemove c)) tru →
    errorList err' = cordonErrors tru →
    Forall readinessError (errorList (Some e)) →
    launchOutcome w
      (multierr_Combine
         [err'; Some (Errorf "timed out checking node readiness, %w"
                        [ArgError e])])
      (trc ++ [CLaunchMachines (replacementNodes c) (names, None);
               CMetric (NodesCreated (length names));
               CMarkForDeletion (map Name (nodesToRemove c))] ++ trw
           ++ [CUnmarkForDeletion (map Name (nodesToRemove c))] ++ tru) w'.

Lemma uncordon_after w1 w2 err' tr w3 :
  undisturbed →
  cordoned w1 →
  (∀ x, x ∈ map Name (nodesToRemove c) →
     apiNodes (sys w2) !! x = apiNodes (sys w1) !! x) →
  cordonPost env (λ x, x ∈ map Name (nodesToRemove c)) false None
    (map Name (nodesToRemove c)) w2 err' tr w3 →
  deletingKept (λ x, x ∈ map Name (nodesToRemove c)) w2 w3 →
  uncordoned w3.
Proof.
  intros Hq Hc Hsame (_ & _ & U & _ & N) K x Hx.
  destruct (Hc x Hx) as (n & Hn & Hun). rewrite <- Hsame in Hn; [|done].
  destruct (U Hq x Hx) as [Ux _].
  destruct (upd_keeps _ _ _ _ Ux Hn) as (n' & Hn' & Hd' & _).
  exists n'. split_and!; [done | |].
  - intros Hs Hz.
    destruct (N Hq eq_refl x n Hx Hx Hs Hn) as (n'' & Hn'' & _ & Hu).
    rewrite Hn' in Hn''. inversion Hn''; subst. apply Hu. by rewrite <- Hd'.
  - intros Hz. rewrite Hd' in Hz. rewrite (K x n Hx Hn Hz) in Hn'.
    by inversion Hn'; subst.
Qed.

Lemma launchReplacementNodes_spec w :
  spec (launchReplacementNodes env c) w (launchOutcome w).
Proof.
  unfold launchReplacementNodes. spec_step.
  eapply spec_mono;
    [apply (setNodesUnschedulable_spec env (λ x, x ∈ old))|].
  intros err tr1 w1 (F1 & _ & U1 & C1 & _).
  destruct err as [e|].
  { spec_step. rewrite app_nil_r. apply CordonFailed; [done|].
    intros Hq x Hx. by apply U1. }
  spec_step. unfold LaunchMachines. apply (spec_passive env (λ x, x ∈ old)).
  intros w2 S2 _.
  destruct (launchMachines env (history w1) (replacementNodes c))
    as [names [e|]].
  - (* the launch failed *)
    spec_step.
    eapply spec_mono; [apply (uncordon_spec env (λ x, x ∈ old))|].
    intros err' tr3 w3 (P3 & [St3 Er3] & K3).
    pose proof P3 as (F3 & _ & U3 & _). spec_step.
    rewrite app_nil_r. apply LaunchFailed; [done | done | | done | done].
    intros Hq. split.
    + intros x Hx. destruct (U1 Hq x Hx) as [_ M1], (S2 Hq x Hx) as [_ M2],
        (U3 Hq x Hx) as [_ M3]. tauto.
    + apply uncordon_after with w1 w2 err' tr3; [done | | | done | by apply K3].
      * intros x Hx. by apply C1.
      * intros x Hx. by apply S2.
  - destruct (length names =? length (replacementNodes c))%nat eqn:Hlen; simpl.
    + (* the replacements are launched *)
      apply Nat.eqb_eq in Hlen.
      spec_step. unfold count. apply (spec_passive env (λ x, x ∈ old)).
      intros w3 S3 _. spec_step. spec_step.
      set (w4 := {| sys := _; history := _ |}).
      spec_step.
      eapply spec_mono;
        [apply spec_and;
           [apply (ParallelizeUntil_readiness_spec env (λ x, x ∈ old))
           |apply ParallelizeUntil_readiness_error]|].
      intros errs tr5 w5 [(F5 & S5 & G5) R5].
      assert (S4 : undisturbed → ∀ x, x ∈ old →
                apiNodes (sys w5) !! x = apiNodes (sys w1) !! x).
      { intros Hq x Hx. destruct (S2 Hq x Hx) as [E2 _], (S3 Hq x Hx) as [E3 _],
          (S5 Hq x Hx) as [E5 _]. rewrite E5. simpl.
        destruct (Hq (history w3) (sys w3) x Hx) as [E4 _]. congruence. }
      destruct (multierr_Combine errs) as [e|] eqn:Herrs.
      * (* a replacement did not become ready *)
        spec_step. spec_step. set (w6 := {| sys := _; history := _ |}).
        spec_step.
        eapply spec_mono; [apply (uncordon_spec env (λ x, x ∈ old))|].
        intros err' tr7 w7 (P7 & [St7 Er7] & K7).
        pose proof P7 as (F7 & _ & U7 & _). spec_step.
        rewrite app_nil_r.
        replace ([CLaunchMachines (replacementNodes c) (names, None)] ++
                 [CMetric (NodesCreated (length names))] ++
                 [CMarkForDeletion (map Name (nodesToRemove c))] ++
                 tr5 ++ [CUnmarkForDeletion (map Name (nodesToRemove c))] ++ tr7)
          with ([CLaunchMachines (replacementNodes c) (names, None);
                 CMetric (NodesCreated (length names));
                 CMarkForDeletion (map Name (nodesToRemove c))] ++
                 tr5 ++ [CUnmarkForDeletion (map Name (nodesToRemove c))] ++ tr7)
          by done.
        apply NotReady;
          [done | done | done | done | | done | done
          | by apply (errorList_readiness errs)].
        intros Hq. split.
        -- intros x Hx. destruct (U7 Hq x Hx) as [_ M7]. rewrite M7.
           unfold w6. simpl. rewrite elem_of_difference. intros [_ Hn].
           apply Hn. by apply elem_of_list_to_set.
        -- apply uncordon_after with w1 w6 err' tr7;
             [done | | | done | by apply K7].
           ++ intros x Hx. by apply C1.
           ++ intros x Hx. unfold w6. simpl.
              destruct (Hq (history w5) (sys w5) x Hx) as [E6 _].
              rewrite E6. by apply S4.
      * (* every replacement is ready *)
        spec_step. cbv beta. rewrite app_nil_r.
        apply (Ready w names tr1 tr5);
          [done.. | intros Hlive; by apply G5 |].
        intros Hq x Hx. rewrite (S4 Hq x Hx). by apply C1.
    + (* the number of names is not the number of replacements *)
      apply Nat.eqb_neq in Hlen. spec_step.
      apply CountMismatch; [done..|].
      intros Hq. split.
      * intros x Hx. destruct (U1 Hq x Hx) as [_ M1], (S2 Hq x Hx) as [_ M2].
        tauto.
      * intros x Hx. destruct (S2 Hq x Hx) as [E2 _]. rewrite E2. by apply C1.
Qed.

(** *** [executeCommand], case by case *)

(** The calls of the loop that deletes the old nodes: for each of them the
    [TerminatingNode] event, the delete, and the counter when the delete
    succeeded. *)
Inductive deletePhase (d : Deprovisioner) : list Node → list Call → Prop :=
| deletePhase_nil : deletePhase d [] []
| deletePhase_failed n ns e tr :
    deletePhase d ns tr →
    deletePhase d (n :: ns)
      (CPublish (TerminatingNode n c) :: CDelete n (Some e) :: tr)
| deletePhase_done n ns tr :
    deletePhase d ns tr →
    deletePhase d (n :: ns)
      (CPublish (TerminatingNode n c) :: CDelete n None
         :: CMetric (NodesTerminated d (cmdAction c)) :: tr).

Inductive executeOutcome (d : Deprovisioner) (w : World)
  : option error → list Call → World → Prop :=
| ExecuteFailed w1 e trl w' :
    cmdAction c = actionReplace →
    (undisturbed → marksKept w w1) →
    launchOutcome w1 (Some e) trl w' →
    executeOutcome d w
      (Some (Errorf "launching replacement node, %w" [ArgError e]))
      (CMetric (ActionsPerformed d (cmdAction c)) :: trl) w'
| ExecuteDone w1 w2 trl trd trw w' :
    (undisturbed → marksKept w w1) →
    (if bool_decide (cmdAction c = actionReplace)
     then launchOutcome w1 None trl w2 else trl = []) →
    deletePhase d (nodesToRemove c) trd →
    Forall deletionWaitCall trw →
    executeOutcome d w None
      (CMetric (ActionsPerformed d (cmdAction c)) :: trl ++ trd ++ trw) w'.

Lemma forRange_delete_spec d nodes : ∀ w,
  spec (forRange
          (λ _ oldNode,
             Publish env (TerminatingNode oldNode c);;
             let* err := kubeDelete env oldNode in
             match err with
             | Some _ => ret tt
             | None => count env (NodesTerminated d (cmdAction c))
             end) tt nodes) w
    (λ _ tr _, deletePhase d nodes tr).
Proof.
  induction nodes as [|n ns IH]; intros w; simpl.
  - spec_step. constructor.
  - spec_step. spec_step. spec_step. spec_step. spec_step.
    set (w2 := {| sys := _; history := _ |}).
    destruct (apiFault env _ _) as [e|]; simpl.
    + spec_step. eapply spec_mono; [apply IH|]. intros u tr w' H.
      by apply deletePhase_failed.
    + destruct (apiNodes _ !! _); simpl.
      * spec_step. eapply spec_mono; [apply IH|]. intros u tr w' H.
        by apply deletePhase_done.
      * spec_step. eapply spec_mono; [apply IH|]. intros u tr w' H.
        by apply deletePhase_failed.
Qed.

Lemma deletionAttempt_spec node u w :
  spec (deletionAttempt env node u) w (λ r tr w',
    Forall deletionWaitCall tr ∧
    (quietOn env (λ _, False) → sameOn (λ _, False) w w') ∧
    (r.1 = None → True)).
Proof.
  unfold deletionAttempt. spec_step. apply (kubeGet_spec env (λ _, False)).
  intros n nerr w1 _ _ _.
  assert (Hs : ∀ w', quietOn env (λ _, False) → sameOn (λ _, False) w w').
  { by intros w' _ x Hx. }
  destruct (IsNotFound nerr).
  - spec_step. split_and!; [by repeat constructor | apply Hs | done].
  - spec_step. spec_step. destruct nerr; spec_step;
      (split_and!; [by repeat constructor | apply Hs | done]).
Qed.

Lemma waitForDeletion_spec node w :
  spec (waitForDeletion env node) w (λ _ tr _, Forall deletionWaitCall tr).
Proof.
  unfold waitForDeletion. spec_step. eapply spec_mono.
  { apply (retry_Do_spec env (λ _, False) _ deletionWaitCall (λ _, True));
      [done|]. intros l w0. apply deletionAttempt_spec. }
  intros err tr w1 (F & _). spec_step. by rewrite app_nil_r.
Qed.

Lemma forRange_waitForDeletion_spec nodes : ∀ w,
  spec (forRange (λ _ oldnode, waitForDeletion env oldnode) tt nodes) w
    (λ _ tr _, Forall deletionWaitCall tr).
Proof.
  induction nodes as [|n ns IH]; intros w; simpl.
  - by spec_step.
  - spec_step. eapply spec_mono; [apply waitForDeletion_spec|].
    intros [] tr1 w1 F1. eapply spec_mono; [apply IH|].
    intros u2 tr2 w2 F2. by apply Forall_app.
Qed.

Lemma executeCommand_spec d w :
  spec (executeCommand env d c) w (executeOutcome d w).
Proof.
  unfold executeCommand. spec_step. unfold count.
  apply (spec_passive env (λ x, x ∈ old)). intros w1 S1 _.
  spec_step.
  destruct (bool_decide (cmdAction c = actionReplace)) eqn:Hrep.
  - apply bool_decide_eq_true in Hrep.
    eapply spec_mono; [apply launchReplacementNodes_spec|].
    intros err trl w2 Hl. destruct err as [e|].
    + spec_step. rewrite app_nil_r.
      apply ExecuteFailed with w1; [done | | done].
      intros Hq x Hx. by apply S1.
    + spec_step. eapply spec_mono; [apply forRange_delete_spec|].
      intros u1 trd w3 Hd. spec_step.
      eapply spec_mono; [apply forRange_waitForDeletion_spec|].
      intros u2 trw w4 Hw. spec_step. rewrite app_nil_r.
      apply (ExecuteDone d w w1 w2 trl trd trw w4); [| | exact Hd | exact Hw].
      * intros Hq x Hx. by apply S1.
      * rewrite bool_decide_eq_true_2; done.
  - spec_step. spec_step. eapply spec_mono; [apply forRange_delete_spec|].
    intros u1 trd w3 Hd. spec_step.
    eapply spec_mono; [apply forRange_waitForDeletion_spec|].
    intros u2 trw w4 Hw. spec_step. rewrite app_nil_r.
    apply (ExecuteDone d w w1 w1 [] trd trw w4); [| | exact Hd | exact Hw].
    + intros Hq x Hx. by apply S1.
    + by rewrite Hrep.
Qed.

End Launch.

(** ** The control loop, case by case *)

(** The calls of [SingleNodeConsolidation.ComputeCommand]. *)
Definition consolidationCall (c : Call) : Prop :=
  match c with
  | CConsolidated _ | CSortAndFilter _ _ | CComputeConsolidation _ _
  | CIsValid _ _ => True
  | _ => False
  end.

(** [IsValid] answered false, or true, without an error. *)
Definition isRejection (c : Call) : bool :=
  match c with CIsValid _ (false, None) => true | _ => false end.
Definition isApproval (c : Call) : bool :=
  match c with CIsValid _ (true, None) => true | _ => false end.

Section Loop.

Context (env : Env).

Lemma singleNodeCandidates_spec candidates : ∀ failedValidation w,
  spec (singleNodeCandidates env failedValidation candidates) w
    (λ res tr w',
       Forall consolidationCall tr ∧
       (failedValidation = true ∨ Exists (λ c, isRejection c = true) tr →
        Forall (λ c, isApproval c = false) tr →
        res = (CommandOf actionRetry, None))).
Proof.
  induction candidates as [|node rest IH]; intros failed w; simpl.
  - destruct failed; spec_step; (split; [done|]).
    + done.
    + intros [H|H]; [done | by apply Exists_nil in H].
  - spec_step. spec_step.
    set (w1 := {| sys := _; history := _ |}).
    destruct (computeConsolidation env (history w) node) as [cmd err].
    simpl.
    assert (Hskip : ∀ tr0 failed', Forall consolidationCall tr0 →
              (failed = true ∨ Exists (λ c, isRejection c = true) tr0 →
               failed' = true) →
              ∀ w0,
              spec (singleNodeCandidates env failed' rest) w0
                (λ res tr w',
                   Forall consolidationCall (tr0 ++ tr) ∧
                   (failed = true ∨
                    Exists (λ c, isRejection c = true) (tr0 ++ tr) →
                    Forall (λ c, isApproval c = false) (tr0 ++ tr) →
                    res = (CommandOf actionRetry, None)))).
    { intros tr0 failed' F0 Hf w0. eapply spec_mono; [apply IH|].
      intros res tr w' [F H]. split; [by apply Forall_app_2|].
      intros Hrej Happ. apply Forall_app in Happ as [_ Happ].
      apply H; [|done].
      destruct Hrej as [Hrej|Hrej]; [left; auto|].
      apply Exists_app in Hrej as [Hrej|Hrej]; [left; auto | by right]. }
    assert (Hno : ∀ c, isRejection c = false →
              failed = true ∨ Exists (λ c, isRejection c = true) [c] →
              failed = true).
    { intros c Hc [H|H]; [done|]. apply Exists_cons in H as [H|H];
        [congruence | by apply Exists_nil in H]. }
    destruct err as [e|].
    { apply (Hskip [_]); [by repeat constructor | by apply Hno]. }
    destruct (bool_decide (cmdAction cmd = actionDoNothing)
              || bool_decide (cmdAction cmd = actionRetry)).
    { apply (Hskip [_]); [by repeat constructor | by apply Hno]. }
    spec_step. spec_step.
    destruct (isValid env _ cmd) as [valid err] eqn:Hvalid.
    simpl.
    set (w2 := {| sys := _; history := _ |}).
    assert (Hno2 : ∀ c1 c2, isRejection c1 = false → isRejection c2 = false →
              failed = true ∨ Exists (λ c, isRejection c = true) [c1; c2] →
              failed = true).
    { intros c1 c2 H1 H2 [H|H]; [done|].
      apply Exists_cons in H as [H|H]; [congruence|].
      apply Exists_cons in H as [H|H]; [congruence | by apply Exists_nil in H]. }
    assert (Hskip2 : ∀ failed' res,
              (failed = true ∨
               Exists (λ c, isRejection c = true)
                 [CComputeConsolidation node (cmd, None); CIsValid cmd res] →
               failed' = true) →
              spec (singleNodeCandidates env failed' rest) w2
                (λ b tr2 _,
                   Forall consolidationCall
                     ([CComputeConsolidation node (cmd, None)] ++
                      [CIsValid cmd res] ++ tr2) ∧
                   (failed = true ∨
                    Exists (λ c, isRejection c = true)
                      ([CComputeConsolidation node (cmd, None)] ++
                       [CIsValid cmd res] ++ tr2) →
                    Forall (λ c, isApproval c = false)
                      ([CComputeConsolidation node (cmd, None)] ++
                       [CIsValid cmd res] ++ tr2) →
                    b = (CommandOf actionRetry, None)))).
    { intros failed' res Hf.
      apply (Hskip [CComputeConsolidation node (cmd, None); CIsValid cmd res]);
        [by repeat constructor | done]. }
    destruct err as [e|].
    { apply Hskip2. apply Hno2; [done | by destruct valid]. }
    destruct valid; simpl.
    + destruct (bool_decide (cmdAction cmd = actionReplace)
                || bool_decide (cmdAction cmd = actionDelete)).
      * spec_step. split; [by repeat constructor|].
        intros _ Happ. apply Forall_cons in Happ as [_ Happ].
        apply Forall_cons in Happ as [Happ _]. done.
      * apply Hskip2. by apply Hno2.
    + by apply Hskip2.
Qed.

(** A command that [IsValid] has approved in [tr] is the command returned,
    and is a replace or a delete. *)
Definition approvedReturned (res : Command * option error) (tr : list Call)
  : Prop :=
  ∀ cmd, CIsValid cmd (true, None) ∈ tr →
    res = (cmd, None) ∧
    (cmdAction cmd = actionReplace ∨ cmdAction cmd = actionDelete).

Lemma singleNodeCandidates_approved candidates : ∀ failed w,
  spec (singleNodeCandidates env failed candidates) w
    (λ res tr _, approvedReturned res tr).
Proof.
  induction candidates as [|node rest IH]; intros failed w; simpl.
  - destruct failed; spec_step; intros cmd Hin; by apply elem_of_nil in Hin.
  - spec_step. spec_step.
    set (w1 := {| sys := _; history := _ |}).
    destruct (computeConsolidation env (history w) node) as [cmd err].
    simpl.
    assert (Hskip : ∀ tr0 failed' w0,
              Forall (λ c, isApproval c = false) tr0 →
              spec (singleNodeCandidates env failed' rest) w0
                (λ res tr _, approvedReturned res (tr0 ++ tr))).
    { intros tr0 failed' w0 F0. eapply spec_mono; [apply IH|].
      intros res tr w' H cmd' Hin.
      apply elem_of_app in Hin as [Hin|Hin]; [|by apply H].
      by apply (proj1 (Forall_forall _ _) F0) in Hin. }
    destruct err as [e|].
    { apply (Hskip [_]). by repeat constructor. }
    destruct (bool_decide (cmdAction cmd = actionDoNothing)
              || bool_decide (cmdAction cmd = actionRetry)) eqn:Hidle.
    { apply (Hskip [_]). by repeat constructor. }
    assert (Hact : cmdAction cmd = actionReplace ∨ cmdAction cmd = actionDelete).
    { apply orb_false_elim in Hidle as [H1 H2].
      apply bool_decide_eq_false in H1, H2.
      destruct (cmdAction cmd); auto; done. }
    spec_step. spec_step.
    destruct (isValid env _ cmd) as [valid err] eqn:Hvalid.
    simpl.
    set (w2 := {| sys := _; history := _ |}).
    assert (Hskip2 : ∀ failed' res, isApproval (CIsValid cmd res) = false →
              spec (singleNodeCandidates env failed' rest) w2
                (λ b tr2 _,
                   approvedReturned b
                     ([CComputeConsolidation node (cmd, None)] ++
                      [CIsValid cmd res] ++ tr2))).
    { intros failed' res Hres.
      apply (Hskip [CComputeConsolidation node (cmd, None); CIsValid cmd res]).
      by repeat constructor. }
    destruct err as [e|].
    { apply Hskip2. by destruct valid. }
    destruct valid; simpl.
    + destruct (bool_decide (cmdAction cmd = actionReplace)
                || bool_decide (cmdAction cmd = actionDelete)) eqn:Hret.
      * spec_step. intros cmd' Hin.
        apply elem_of_cons in Hin as [Hin|Hin]; [done|].
        apply elem_of_cons in Hin as [Hin|Hin]; [|by apply elem_of_nil in Hin].
        by inversion Hin; subst.
      * exfalso. apply orb_false_elim in Hret as [H1 H2].
        apply bool_decide_eq_false in H1, H2. by destruct Hact.
    + by apply Hskip2.
Qed.

Lemma SingleNodeConsolidation_ComputeCommand_approved candidates w :
  spec (SingleNodeConsolidation_ComputeCommand env candidates) w
    (λ res tr _, approvedReturned res tr).
Proof.
  assert (Hno : ∀ res tr0 tr, Forall (λ c, isApproval c = false) tr0 →
            approvedReturned res tr → approvedReturned res (tr0 ++ tr)).
  { intros res tr0 tr F0 H cmd Hin.
    apply elem_of_app in Hin as [Hin|Hin]; [|by apply H].
    by apply (proj1 (Forall_forall _ _) F0) in Hin. }
  unfold SingleNodeConsolidation_ComputeCommand. spec_step. spec_step.
  set (w1 := {| sys := _; history := _ |}).
  destruct (consolidated _).
  { spec_step. apply (Hno _ [_] []); [by repeat constructor|].
    intros cmd Hin. by apply elem_of_nil in Hin. }
  spec_step. spec_step.
  destruct (sortAndFilterCandidates env _ candidates) as [sorted err]. simpl.
  set (w2 := {| sys := _; history := _ |}).
  destruct err as [e|].
  { spec_step. apply (Hno _ [_; _] []); [by repeat constructor|].
    intros cmd Hin. by apply elem_of_nil in Hin. }
  eapply spec_mono; [apply singleNodeCandidates_approved|].
  intros res tr w' H. apply (Hno _ [_] ([_] ++ tr)); [by repeat constructor|].
  apply (Hno _ [_] tr); [by repeat constructor | done].
Qed.

(** What a strategy's [ComputeCommand] leaves in the trace: the calls of
    single node consolidation if it is the strategy, then the answer. *)
Definition computePost (d : Deprovisioner) (cands : list CandidateNode)
    (res : Command * option error) (tr : list Call) : Prop :=
  ∃ inner,
    tr = inner ++ [CComputeCommand d cands res] ∧
    Forall consolidationCall inner ∧
    (d ≠ SingleNodeConsolidation → inner = []) ∧
    (Exists (λ c, isRejection c = true) inner →
     Forall (λ c, isApproval c = false) inner →
     res = (CommandOf actionRetry, None)) ∧
    approvedReturned res inner.

Lemma SingleNodeConsolidation_ComputeCommand_spec candidates w :
  spec (SingleNodeConsolidation_ComputeCommand env candidates) w
    (λ res tr w',
       Forall consolidationCall tr ∧
       (Exists (λ c, isRejection c = true) tr →
        Forall (λ c, isApproval c = false) tr →
        res = (CommandOf actionRetry, None))).
Proof.
  unfold SingleNodeConsolidation_ComputeCommand. spec_step. spec_step.
  set (w1 := {| sys := _; history := _ |}).
  destruct (consolidated _).
  { spec_step. split; [by repeat constructor|]. intros H.
    apply Exists_cons in H as [H|H]; [done | by apply Exists_nil in H]. }
  spec_step. spec_step.
  destruct (sortAndFilterCandidates env _ candidates) as [sorted err]. simpl.
  set (w2 := {| sys := _; history := _ |}).
  destruct err as [e|].
  { spec_step. split; [by repeat constructor|]. intros H.
    apply Exists_cons in H as [H|H]; [done|].
    apply Exists_cons in H as [H|H]; [done | by apply Exists_nil in H]. }
  eapply spec_mono; [apply singleNodeCandidates_spec|].
  intros res tr w' [F H]. split; [by repeat constructor|].
  intros Hrej Happ. apply H.
  - right. apply Exists_cons in Hrej as [Hrej|Hrej]; [done|].
    apply Exists_cons in Hrej as [Hrej|Hrej]; [done|]. done.
  - apply Forall_cons in Happ as [_ Happ]. by apply Forall_cons in Happ as [_ Happ].
Qed.

Lemma ComputeCommand_spec d cands w :
  spec (ComputeCommand env d cands) w (λ res tr w', computePost d cands res tr).
Proof.
  assert (Hother : d ≠ SingleNodeConsolidation →
            spec (call env (λ h s, (computeCommand env h d cands, s))
                    (CComputeCommand d cands)) w
              (λ res tr w', computePost d cands res tr)).
  { intros _. spec_step. exists []. split_and!; [done | done | done | |].
    - intros H. by apply Exists_nil in H.
    - intros cmd Hin. by apply elem_of_nil in Hin. }
  destruct d; try (by apply Hother).
  unfold ComputeCommand. spec_step.
  eapply spec_mono;
    [apply spec_and;
       [apply SingleNodeConsolidation_ComputeCommand_spec
       |apply SingleNodeConsolidation_ComputeCommand_approved]|].
  intros res tr w1 [[F H] Happ]. spec_step. by exists tr.
Qed.

(** The calls of the executor after its counter. *)
Definition executorCall (c : Call) : bool :=
  match c with
  | CGet _ _ | CPatch _ _ | CDelete _ _ | CLaunchMachines _ _
  | CMarkForDeletion _ | CUnmarkForDeletion _ | CPublish _
  | CMetric (NodesTerminated _ _) | CMetric (NodesCreated _) => true
  | _ => false
  end.

Lemma executeCommand_calls d c w :
  ∃ tail,
    trace (executeCommand env d c) w
      = CMetric (ActionsPerformed d (cmdAction c)) :: tail ∧
    Forall (λ call, executorCall call = true) tail.
Proof.
  assert (Hc : ∀ v l, Forall (cordonCall v) l →
            Forall (λ call, executorCall call = true) l).
  { intros v l F. eapply Forall_impl; [apply F|]. by intros []. }
  assert (Hr : ∀ l, Forall readinessCall l →
            Forall (λ call, executorCall call = true) l).
  { intros l F. eapply Forall_impl; [apply F|]. by intros [| | | | | | | |[]| | | | | |]. }
  assert (Hw : ∀ l, Forall deletionWaitCall l →
            Forall (λ call, executorCall call = true) l).
  { intros l F. eapply Forall_impl; [apply F|]. by intros [| | | | | | | |[]| | | | | |]. }
  assert (Hd : ∀ nodes l, deletePhase c d nodes l →
            Forall (λ call, executorCall call = true) l).
  { induction 1; repeat (constructor; [done|]); done. }
  assert (Hl : ∀ w1 r l w2, launchOutcome env c w1 r l w2 →
            Forall (λ call, executorCall call = true) l).
  { destruct 1;
      repeat first [ apply Forall_app_2 | apply Forall_nil_2
                   | apply Forall_cons_2; [done|]
                   | by eapply Hc | by apply Hr ]. }
  pose proof (spec_elim _ _ _ (executeCommand_spec env c d w)) as H.
  inversion H as [w1 e trl w' Hrep Hm Hlo | w1 w2 trl trd trw w' Hm Hlo Hdp Hdw].
  - exists trl. split; [done|]. by eapply Hl.
  - exists (trl ++ trd ++ trw). split; [done|].
    repeat apply Forall_app_2; [| by eapply Hd | by apply Hw].
    destruct (bool_decide (cmdAction c = actionReplace));
      [by eapply Hl | by subst].
Qed.

(** The run of the loop of [Reconcile] over the strategies [ds]. *)
Inductive sweep
  : list Deprovisioner → World → Result * option error → list Call → World
    → Prop :=
| sweep_end w w' :
    consolidated (sys w') = true →
    sweep [] w ({| Requeue := false; RequeueAfter := pollingPeriod |}, None)
      [CSetConsolidated true] w'
| sweep_candidates_failed d rest w cands e w' :
    sweep (d :: rest) w
      (emptyResult,
       Some (Errorf "determining candidate nodes, %w" [ArgError e]))
      [CCandidateNodes d (cands, Some e)] w'
| sweep_no_candidates d rest w w1 r tr w' :
    history w1 = history w ++ [CCandidateNodes d ([], None)] →
    sweep rest w1 r tr w' →
    sweep (d :: rest) w r (CCandidateNodes d ([], None) :: tr) w'
| sweep_compute_failed d rest w cands cmd e trc w' :
    cands ≠ [] →
    computePost d cands (cmd, Some e) trc →
    sweep (d :: rest) w
      (emptyResult,
       Some (Errorf "computing deprovisioning decision, %w" [ArgError e]))
      (CCandidateNodes d (cands, None) :: trc) w'
| sweep_nothing d rest w cands cmd trc w1 r tr w' :
    cands ≠ [] →
    computePost d cands (cmd, None) trc →
    cmdAction cmd = actionDoNothing →
    history w1 = history w ++ CCandidateNodes d (cands, None) :: trc →
    sweep rest w1 r tr w' →
    sweep (d :: rest) w r (CCandidateNodes d (cands, None) :: trc ++ tr) w'
| sweep_retry d rest w cands cmd trc w' :
    cands ≠ [] →
    computePost d cands (cmd, None) trc →
    cmdAction cmd = actionRetry →
    sweep (d :: rest) w ({| Requeue := true; RequeueAfter := 0 |}, None)
      (CCandidateNodes d (cands, None) :: trc) w'
| sweep_execute d rest w cands cmd trc w1 err tre w' :
    cands ≠ [] →
    computePost d cands (cmd, None) trc →
    cmdAction cmd ≠ actionDoNothing →
    cmdAction cmd ≠ actionRetry →
    history w1 = history w ++ CCandidateNodes d (cands, None) :: trc →
    runs (executeCommand env d cmd) w1 err tre w' →
    sweep (d :: rest) w
      match err with
      | Some e =>
          (emptyResult, Some (Errorf "deprovisioning nodes, %w" [ArgError e]))
      | None => ({| Requeue := true; RequeueAfter := 0 |}, None)
      end
      (CCandidateNodes d (cands, None) :: trc ++ tre) w'.

Lemma reconcileLoop_spec ds : ∀ w, spec (reconcileLoop env ds) w (sweep ds w).
Proof.
  induction ds as [|d rest IH]; intros w; simpl.
  - spec_step. spec_step. spec_step. by apply sweep_end.
  - spec_step. spec_step.
    destruct (candidateNodes env (history w) d) as [cands err]. simpl.
    set (w1 := {| sys := _; history := _ |}).
    destruct err as [e|].
    { spec_step. apply sweep_candidates_failed. }
    destruct cands as [|cand cands]; simpl.
    { eapply spec_mono; [apply IH|]. intros r tr w' H.
      by apply sweep_no_candidates with w1. }
    spec_step.
    eapply spec_mono; [apply spec_runs, ComputeCommand_spec|].
    intros [cmd err] trc w2 [[_ Hh] Hc]. simpl in Hh.
    rewrite <- app_assoc in Hh. simpl in Hh.
    destruct err as [e|].
    { spec_step. rewrite app_nil_r. by apply sweep_compute_failed with cmd. }
    destruct (bool_decide (cmdAction cmd = actionDoNothing)) eqn:Hnothing.
    { apply bool_decide_eq_true in Hnothing.
      eapply spec_mono; [apply IH|]. intros r tr w' H.
      by apply sweep_nothing with cmd w2. }
    apply bool_decide_eq_false in Hnothing.
    destruct (bool_decide (cmdAction cmd = actionRetry)) eqn:Hretry.
    { apply bool_decide_eq_true in Hretry. spec_step. rewrite app_nil_r.
      by apply sweep_retry with cmd. }
    apply bool_decide_eq_false in Hretry.
    spec_step.
    eapply spec_mono; [apply spec_runs, executeCommand_spec|].
    intros err tre w3 [Hruns _].
    assert (Hsweep := sweep_execute d rest w (cand :: cands) cmd trc w2 err
                        tre w3).
    destruct err as [e|]; spec_step; rewrite app_nil_r; by apply Hsweep.
Qed.

End Loop.

(** ** Claims about the executor *)

Lemma cordonCall_kind v c :
  cordonCall v c →
  isDelete c = false ∧ isLaunch c = false ∧ isMark c = false ∧
  isUnmark c = false ∧ isTerminating c = false ∧ isExecution c = false.
Proof. by destruct c. Qed.

Lemma readinessCall_kind c :
  readinessCall c →
  isDelete c = false ∧ isLaunch c = false ∧ isMark c = false ∧
  isUnmark c = false ∧ isTerminating c = false ∧ isExecution c = false ∧
  isPatch c = false.
Proof. destruct c as [| | | | | | | |[]| | | | | |]; by simpl. Qed.

Lemma deletionWaitCall_kind c :
  deletionWaitCall c →
  isDelete c = false ∧ isLaunch c = false ∧ isMark c = false ∧
  isUnmark c = false ∧ isTerminating c = false ∧ isExecution c = false ∧
  isPatch c = false.
Proof. destruct c as [| | | | | | | |[]| | | | | |]; by simpl. Qed.

Lemma deletePhase_deletes c d nodes tr :
  deletePhase c d nodes tr → deletes tr = nodes.
Proof. induction 1; simpl; by f_equal. Qed.

Lemma deletionWait_deletes tr : Forall deletionWaitCall tr → deletes tr = [].
Proof.
  induction 1 as [|c tr Hc _ IH]; [done|].
  unfold deletes in *. by destruct c.
Qed.

Lemma deletes_app tr1 tr2 : deletes (tr1 ++ tr2) = deletes tr1 ++ deletes tr2.
Proof. apply omap_app. Qed.

Lemma multierr_Combine_Some errs e : multierr_Combine (errs ++ [Some e]) ≠ None.
Proof.
  unfold multierr_Combine. rewrite map_app, concat_app. simpl.
  rewrite app_nil_r. intros H%fromSlice_None. apply app_eq_nil in H as [_ H].
  by destruct e.
Qed.

(** X24.  As long as the context of the tick is not cancelled: when
    [executeCommand] succeeds on a replace command, its calls split in two:
    in the first part the replacements are launched, as many names as
    replacements asked for come back, and every one of these names is seen by
    a [Get] with the `initialized` label, with no [Delete] at all; the
    [Delete] calls, one for each node to remove, are all in the second
    part. *)
Theorem replacements_initialized_before_delete env d c w :
  live env →
  cmdAction c = actionReplace →
  (executeCommand env d c w).1 = None →
  ∃ names pre post,
    trace (executeCommand env d c) w = pre ++ post ∧
    CLaunchMachines (replacementNodes c) (names, None) ∈ pre ∧
    length names = length (replacementNodes c) ∧
    (∀ name, name ∈ names → observedInitialized name pre) ∧
    Forall (λ call, isDelete call = false) pre ∧
    deletes post = nodesToRemove c.
Proof.
  intros Hlive Hrep Hr.
  pose proof (spec_elim _ _ _ (executeCommand_spec env c d w)) as H.
  rewrite Hr in H.
  inversion H as [|w1 w2 trl trd trw w' _ Hl Hd Hw Htr]; subst.
  rewrite bool_decide_eq_true_2 in Hl by done.
  inversion Hl as [| names e err' trc tru w3 Fc Fu Hst _ _ Hnone
                   | | names trc trw' w3 Fc Hlen Fw Hobs Hst
                   | names e err' trc trw' tru w3 Fc Hlen Fw Fu Hst _ _ _ Hnone ];
    subst.
  - by apply multierr_Append_Some_l in Hnone.
  - exists names,
      (CMetric (ActionsPerformed d (cmdAction c)) ::
       trc ++ [CLaunchMachines (replacementNodes c) (names, None);
               CMetric (NodesCreated (length names));
               CMarkForDeletion (map Name (nodesToRemove c))] ++ trw'),
      (trd ++ trw).
    split_and!.
    + done.
    + apply elem_of_cons. right. apply elem_of_app. right.
      apply elem_of_cons. by left.
    + done.
    + intros name Hname. apply Exists_cons_tl, Exists_app. right.
      apply Exists_app. right. by apply (Hobs Hlive).
    + constructor; [done|]. apply Forall_app. split.
      * eapply Forall_impl; [apply Fc|]. intros call Hc.
        by apply cordonCall_kind in Hc as (? & _).
      * repeat (constructor; [done|]).
        eapply Forall_impl; [apply Fw|]. intros call Hc.
        by apply readinessCall_kind in Hc as (? & _).
    + rewrite deletes_app, (deletePhase_deletes _ _ _ _ Hd),
        (deletionWait_deletes _ Hw). by rewrite app_nil_r.
  - by apply (multierr_Combine_Some [err']) in Hnone.
Qed.

Lemma deletePhase_kind c d nodes tr :
  deletePhase c d nodes tr →
  Forall (λ call, isLaunch call = false ∧ isPatch call = false ∧
                  isMark call = false ∧ isUnmark call = false ∧
                  isExecution call = false) tr.
Proof. induction 1; repeat (constructor; [done|]); done. Qed.

(** A call of a known kind is not in a trace without calls of that kind. *)
Ltac absurd_elem H :=
  lazymatch type of H with
  | ?call ∈ ?tr =>
      lazymatch goal with
      | F : Forall (cordonCall _) tr |- _ =>
          exfalso; exact (proj1 (Forall_forall _ _) F _ H)
      | F : Forall readinessCall tr |- _ =>
          exfalso; exact (proj1 (Forall_forall _ _) F _ H)
      | F : Forall deletionWaitCall tr |- _ =>
          exfalso; exact (proj1 (Forall_forall _ _) F _ H)
      | F : deletePhase _ _ _ tr |- _ =>
          exfalso;
          let K := fresh in
          pose proof (proj1 (Forall_forall _ _) (deletePhase_kind _ _ _ _ F)
                        _ H) as K;
          simpl in K; destruct K as (? & ? & ? & ? & ?); discriminate
      end
  end.

(** A joined error that holds an error is not nil. *)
Ltac absurd_err :=
  match goal with
  | H : multierr_Append (Some _) _ = None |- _ =>
      by apply multierr_Append_Some_l in H
  | H : None = multierr_Append (Some _) _ |- _ =>
      symmetry in H; by apply multierr_Append_Some_l in H
  | H : multierr_Combine [?e; Some _] = None |- _ =>
      by apply (multierr_Combine_Some [e]) in H
  | H : None = multierr_Combine [?e; Some _] |- _ =>
      symmetry in H; by apply (multierr_Combine_Some [e]) in H
  end.

Ltac elem_cases H :=
  repeat first
    [ apply elem_of_nil in H; destruct H
    | absurd_elem H
    | apply elem_of_app in H as [H|H]
    | apply elem_of_cons in H as [H|H];
        [first [discriminate H | injection H as; subst]|] ].

(** C9.  When the launch succeeds with a number of names that is not the
    number of replacements, [launchReplacementNodes] returns the "expected %d
    node names" error; all it has done is the cordon and the launch: no
    un-cordon and no mark; the marks of the old nodes are as before and, the
    others leaving the old nodes alone, every old node is unschedulable. *)
Theorem count_mismatch_leaves_nodes_cordoned env c w names :
  undisturbed env c →
  CLaunchMachines (replacementNodes c) (names, None)
    ∈ trace (launchReplacementNodes env c) w →
  length names ≠ length (replacementNodes c) →
  (launchReplacementNodes env c w).1
    = Some (Errorf "expected %d node names, got %d"
              [ArgInt (Z.of_nat (length (replacementNodes c)));
               ArgInt (Z.of_nat (length names))]) ∧
  Forall (λ call, cordonCall true call ∨ isLaunch call = true)
    (trace (launchReplacementNodes env c) w) ∧
  marksKept c w (launchReplacementNodes env c w).2 ∧
  cordoned c (launchReplacementNodes env c w).2.
Proof.
  intros Hq Hin Hlen.
  pose proof (spec_elim _ _ _ (launchReplacementNodes_spec env c w)) as H.
  inversion H as [ e tr w' Fc Hst
                 | names' e err' trc tru w' Fc Fu Hst
                 | names' trc w' Fc Hlen' Hst
                 | names' trc trw w' Fc Hlen' Fw Hobs Hst
                 | names' e err' trc trw tru w' Fc Hlen' Fw Fu Hst ];
    match goal with E : _ = trace _ _ |- _ => rewrite <- E in *; clear E end.
  - elem_cases Hin.
  - elem_cases Hin.
  - elem_cases Hin. destruct (Hst Hq) as [Hm Hc]. split_and!; try done.
    apply Forall_app_2.
    + eapply Forall_impl; [apply Fc|]. intros call Hcall. by left.
    + constructor; [by right | constructor].
  - elem_cases Hin. done.
  - elem_cases Hin. done.
Qed.

(** The run of [executeCommand], once more: the counter, the calls of
    [launchReplacementNodes] if the command is a replace, and calls that
    neither launch, patch nor mark. *)
Lemma executeCommand_parts env d c w :
  ∃ w1 trl rest,
    trace (executeCommand env d c) w
      = CMetric (ActionsPerformed d (cmdAction c)) :: trl ++ rest ∧
    (undisturbed env c → marksKept c w w1) ∧
    Forall (λ call, isLaunch call = false ∧ isPatch call = false ∧
                    isMark call = false ∧ isUnmark call = false) rest ∧
    match (executeCommand env d c w).1 with
    | Some err =>
        ∃ e, err = Errorf "launching replacement node, %w" [ArgError e] ∧
             cmdAction c = actionReplace ∧ rest = [] ∧
             launchOutcome env c w1 (Some e) trl (executeCommand env d c w).2
    | None =>
        if bool_decide (cmdAction c = actionReplace)
        then ∃ w2, launchOutcome env c w1 None trl w2
        else trl = []
    end.
Proof.
  pose proof (spec_elim _ _ _ (executeCommand_spec env c d w)) as H.
  inversion H as [w1 e trl w' Hrep Hm Hl | w1 w2 trl trd trw w' Hm Hl Hd Hw].
  - exists w1, trl, []. rewrite app_nil_r. split_and!; try done. eauto.
  - exists w1, trl, (trd ++ trw). split_and!; try done.
    + apply Forall_app_2.
      * eapply Forall_impl; [apply (deletePhase_kind _ _ _ _ Hd)|].
        intros call Hc. simpl in Hc. tauto.
      * eapply Forall_impl; [apply Hw|]. intros call Hc.
        apply deletionWaitCall_kind in Hc. tauto.
    + destruct (bool_decide (cmdAction c = actionReplace)); eauto.
Qed.

Lemma marksKept_trans c w1 w2 w3 :
  marksKept c w1 w2 → marksKept c w2 w3 → marksKept c w1 w3.
Proof.
  intros H1 H2 x Hx. specialize (H1 x Hx). specialize (H2 x Hx). tauto.
Qed.

Lemma launch_not_in_rest ms res (rest : list Call) :
  Forall (λ call, isLaunch call = false ∧ isPatch call = false ∧
                  isMark call = false ∧ isUnmark call = false) rest →
  CLaunchMachines ms res ∈ rest → False.
Proof.
  intros F Hin. apply (proj1 (Forall_forall _ _) F) in Hin. simpl in Hin.
  by destruct Hin.
Qed.

(** C6, as the code has it.  When [LaunchMachines] fails on a replace
    command, the calls of [executeCommand] are the counter, the cordon, the
    failed launch and then the un-cordon of the old nodes, name by name; the
    error returned wraps the launch error joined with the error of this
    un-cordon, which holds the errors of its failed calls; nothing is deleted
    or marked.  The others leaving the old nodes alone, the marks of the old
    nodes are as before, every old node that is not being deleted is
    schedulable again, as far as the API server answered the requests about
    it, and every old node that is being deleted is still unschedulable. *)
Theorem launch_failure_uncordons env d c w names e :
  cmdAction c = actionReplace →
  CLaunchMachines (replacementNodes c) (names, Some e)
    ∈ trace (executeCommand env d c) w →
  ∃ trc tru err' e',
    trace (executeCommand env d c) w
      = CMetric (ActionsPerformed d (cmdAction c)) :: trc
        ++ [CLaunchMachines (replacementNodes c) (names, Some e)] ++ tru ∧
    Forall (cordonCall true) trc ∧
    cordonSteps false (map Name (nodesToRemove c)) tru ∧
    errorList err' = cordonErrors tru ∧
    multierr_Append (Some e) err' = Some e' ∧
    (executeCommand env d c w).1
      = Some (Errorf "launching replacement node, %w" [ArgError e']) ∧
    Forall (λ call, isDelete call = false ∧ isMark call = false)
      (trace (executeCommand env d c) w) ∧
    (undisturbed env c →
     marksKept c w (executeCommand env d c w).2 ∧
     uncordoned env c (executeCommand env d c w).2).
Proof.
  intros Hrep Hin.
  destruct (executeCommand_parts env d c w)
    as (w1 & trl & rest & Htr & Hm & Frest & Hres).
  rewrite Htr in *. clear Htr.
  apply elem_of_cons in Hin as [Hin|Hin]; [discriminate|].
  apply elem_of_app in Hin as [Hin|Hin];
    [|by apply launch_not_in_rest in Hin].
  destruct (executeCommand env d c w).1 as [err|].
  - destruct Hres as (e0 & -> & _ & -> & Hl). rewrite app_nil_r.
    remember (Some e0) as r0 eqn:Hr0 in Hl.
    inversion Hl as [ e1 tr w' Fc Hst
                    | names' e1 err' trc tru w' Fc Fu Hst Hsteps Herr Hr
                    | names' trc w' Fc Hlen' Hst
                    |
                    | names' e1 err' trc trw tru w' Fc Hlen' Fw Fu Hst ];
      subst; elem_cases Hin.
    exists trc, tru, err', e0. split_and!; try done.
    + constructor; [done|]. apply Forall_app_2; [|constructor; [done|]].
      * eapply Forall_impl; [apply Fc|]. intros call Hc.
        apply cordonCall_kind in Hc. tauto.
      * eapply Forall_impl; [apply Fu|]. intros call Hc.
        apply cordonCall_kind in Hc. tauto.
    + intros Hq. destruct (Hst Hq) as [Hmk Hu]. split; [|done].
      eapply marksKept_trans; eauto.
  - rewrite bool_decide_eq_true_2 in Hres by done. destruct Hres as [w2 Hl].
    remember (@None error) as r0 eqn:Hr0 in Hl.
    inversion Hl as [ | names' e1 err' trc tru w' Fc Fu Hst Hsteps Herr Hr | |
                      names' trc trw w' Fc Hlen' Fw Hobs Hst
                    | names' e1 err' trc trw tru w' Fc Hlen' Fw Fu Hst
                        Hsteps Herr Hre Hr ];
      subst; try congruence; elem_cases Hin; absurd_err.
Qed.


Lemma launchOutcome_kind env c w r tr w' :
  launchOutcome env c w r tr w' →
  Forall (λ call, isTerminating call = false ∧ isDelete call = false) tr.
Proof.
  assert (Hc : ∀ v l, Forall (cordonCall v) l →
            Forall (λ call, isTerminating call = false ∧ isDelete call = false) l).
  { intros v l F. eapply Forall_impl; [apply F|]. intros call Hc.
    apply cordonCall_kind in Hc. tauto. }
  assert (Hw : ∀ l, Forall readinessCall l →
            Forall (λ call, isTerminating call = false ∧ isDelete call = false) l).
  { intros l F. eapply Forall_impl; [apply F|]. intros call Hr.
    apply readinessCall_kind in Hr. tauto. }
  destruct 1;
    repeat first [ apply Forall_app_2 | apply Forall_nil_2
                 | apply Forall_cons_2; [done|] | by eapply Hc | by apply Hw ].
Qed.

(** C5, as the code has it.  The [TerminatingNode] event of an old node is
    published in the loop that deletes the old nodes, just before the [Delete]
    of that node.  The calls of [executeCommand] that returns nil are: a first
    part without [TerminatingNode] and without [Delete] (for a replace
    command the cordon, the launch, the mark and the wait for readiness; for
    another command the counter alone), then for each old node in turn its
    [TerminatingNode] event and its [Delete], then the wait for the deletions;
    nothing is patched, launched or marked after the first part.  When
    [executeCommand] returns an error no [TerminatingNode] event is
    published. *)
Theorem terminating_event_just_before_each_delete env d c w :
  ((executeCommand env d c w).1 ≠ None ∧
   Forall (λ call, isTerminating call = false ∧ isDelete call = false)
     (trace (executeCommand env d c) w)) ∨
  ((executeCommand env d c w).1 = None ∧
   ∃ pre del post,
     trace (executeCommand env d c) w = pre ++ del ++ post ∧
     Forall (λ call, isTerminating call = false ∧ isDelete call = false) pre ∧
     deletePhase c d (nodesToRemove c) del ∧
     Forall deletionWaitCall post ∧
     Forall (λ call, isPatch call = false ∧ isLaunch call = false ∧
                     isMark call = false) (del ++ post) ∧
     (cmdAction c ≠ actionReplace →
      pre = [CMetric (ActionsPerformed d (cmdAction c))])).
Proof.
  pose proof (spec_elim _ _ _ (executeCommand_spec env c d w)) as H.
  inversion H as [w1 e trl w' Hrep Hm Hl | w1 w2 trl trd trw w' Hm Hl Hd Hw].
  - left. split; [done|]. constructor; [done|]. by eapply launchOutcome_kind.
  - right. split; [done|].
    exists (CMetric (ActionsPerformed d (cmdAction c)) :: trl), trd, trw.
    split_and!; try done.
    + constructor; [done|].
      destruct (bool_decide (cmdAction c = actionReplace));
        [by eapply launchOutcome_kind | by subst].
    + apply Forall_app_2.
      * eapply Forall_impl; [apply (deletePhase_kind _ _ _ _ Hd)|].
        intros call Hc. simpl in Hc. tauto.
      * eapply Forall_impl; [apply Hw|]. intros call Hc.
        apply deletionWaitCall_kind in Hc. tauto.
    + intros Hne. rewrite bool_decide_eq_false_2 in Hl by done. by subst.
Qed.

(** *** A cluster to run the executor on *)

Module Scenario.

(** The clock of the API server, which keeps whole seconds: some second of
    the year 2024. *)
Definition now : Time := 63839000100 * Second.

(** Nobody interferes, no request fails, one replacement named [new] is
    launched; the strategies find nothing. *)
Definition calm : Env :=
  {| others := λ _ s, s;
     apiFault := λ _ _, None;
     clockNow := λ _, now;
     cancelled := λ _, false;
     launchMachines := λ _ _, (["new"], None);
     candidateNodes := λ _ _, ([], None);
     computeCommand := λ _ _ _, (CommandOf actionDoNothing, None);
     sortAndFilterCandidates := λ _ cs, (cs, None);
     computeConsolidation := λ _ _, (CommandOf actionDoNothing, None);
     isValid := λ _ _, (true, None) |}.

Definition nodeX : Node :=
  {| Name := "x"; Labels := ∅; Finalizers := []; DeletionTimestamp := None;
     Unschedulable := false |}.

Definition nodeNew : Node :=
  {| Name := "new"; Labels := {[ LabelNodeInitialized := "true" ]};
     Finalizers := []; DeletionTimestamp := None; Unschedulable := false |}.

Definition replaceX : Command :=
  {| nodesToRemove := [nodeX]; cmdAction := actionReplace;
     replacementNodes := [{| machinePods := ["p"];
                             machineInstanceTypes := ["small"] |}] |}.

(** The old node and its initialized replacement are both there. *)
Definition ready : World :=
  {| sys := {| apiNodes := {[ "x" := nodeX; "new" := nodeNew ]};
               marked := ∅; consolidated := false |};
     history := [] |}.

(** As [calm], but the launch fails. *)
Definition launchFails : Env :=
  {| others := λ _ s, s;
     apiFault := λ _ _, None;
     clockNow := λ _, now;
     cancelled := λ _, false;
     launchMachines := λ _ _,
       ([], Some (ApiError "InsufficientCapacity" 500));
     candidateNodes := λ _ _, ([], None);
     computeCommand := λ _ _ _, (CommandOf actionDoNothing, None);
     sortAndFilterCandidates := λ _ cs, (cs, None);
     computeConsolidation := λ _ _, (CommandOf actionDoNothing, None);
     isValid := λ _ _, (true, None) |}.

(** As [calm], but two names come back from the launch. *)
Definition oneTooMany : Env :=
  {| others := λ _ s, s;
     apiFault := λ _ _, None;
     clockNow := λ _, now;
     cancelled := λ _, false;
     launchMachines := λ _ _, (["new"; "newer"], None);
     candidateNodes := λ _ _, ([], None);
     computeCommand := λ _ _ _, (CommandOf actionDoNothing, None);
     sortAndFilterCandidates := λ _ cs, (cs, None);
     computeConsolidation := λ _ _, (CommandOf actionDoNothing, None);
     isValid := λ _ _, (true, None) |}.

(** As [calm], but the manager shuts down while the replacement is launched:
    from the launch on the context of the tick is done and the requests made
    with it come back with its error. *)
Definition shutdown : Env :=
  {| others := λ _ s, s;
     apiFault := λ h _,
       if existsb isLaunch h then Some (Errorf "context canceled" [])
       else None;
     clockNow := λ _, now;
     cancelled := λ h, existsb isLaunch h;
     launchMachines := λ _ _, (["new"], None);
     candidateNodes := λ _ _, ([], None);
     computeCommand := λ _ _ _, (CommandOf actionDoNothing, None);
     sortAndFilterCandidates := λ _ cs, (cs, None);
     computeConsolidation := λ _ _, (CommandOf actionDoNothing, None);
     isValid := λ _ _, (true, None) |}.

(** The old node alone: the replacement never shows up. *)
Definition alone : World :=
  {| sys := {| apiNodes := {[ "x" := nodeX ]};
               marked := ∅; consolidated := false |};
     history := [] |}.

(** A node that is being deleted, since fifty seconds: its finalizer holds
    it back. *)
Definition nodeY : Node :=
  {| Name := "y"; Labels := ∅; Finalizers := ["karpenter.sh/termination"];
     DeletionTimestamp := Some (63839000050 * Second);
     Unschedulable := false |}.

Definition replaceY : Command :=
  {| nodesToRemove := [nodeY]; cmdAction := actionReplace;
     replacementNodes := [{| machinePods := ["p"];
                             machineInstanceTypes := ["small"] |}] |}.

Definition leaving : World :=
  {| sys := {| apiNodes := {[ "y" := nodeY ]};
               marked := ∅; consolidated := false |};
     history := [] |}.

(** Only single node consolidation finds candidates: [x], then [z]; each
    could be deleted; validation rejects the deletion of [x] alone. *)
Definition nodeZ : Node :=
  {| Name := "z"; Labels := ∅; Finalizers := []; DeletionTimestamp := None;
     Unschedulable := false |}.

Definition deletion (cand : CandidateNode) : Command :=
  {| nodesToRemove := [candNode cand]; cmdAction := actionDelete;
     replacementNodes := [] |}.

Definition rejectsX : Env :=
  {| others := λ _ s, s;
     apiFault := λ _ _, None;
     clockNow := λ _, now;
     cancelled := λ _, false;
     launchMachines := λ _ _, (["new"], None);
     candidateNodes := λ _ d,
       match d with
       | SingleNodeConsolidation =>
           ([{| candNode := nodeX |}; {| candNode := nodeZ |}], None)
       | _ => ([], None)
       end;
     computeCommand := λ _ _ _, (CommandOf actionDoNothing, None);
     sortAndFilterCandidates := λ _ cs, (cs, None);
     computeConsolidation := λ _ cand, (deletion cand, None);
     isValid := λ _ cmd,
       (negb (bool_decide (map Name (nodesToRemove cmd) = ["x"])), None) |}.

(** As [rejectsX], but validation rejects every command. *)
Definition rejectsAll : Env :=
  {| others := λ _ s, s;
     apiFault := λ _ _, None;
     clockNow := λ _, now;
     cancelled := λ _, false;
     launchMachines := λ _ _, (["new"], None);
     candidateNodes := λ _ d,
       match d with
       | SingleNodeConsolidation =>
           ([{| candNode := nodeX |}; {| candNode := nodeZ |}], None)
       | _ => ([], None)
       end;
     computeCommand := λ _ _ _, (CommandOf actionDoNothing, None);
     sortAndFilterCandidates := λ _ cs, (cs, None);
     computeConsolidation := λ _ cand, (deletion cand, None);
     isValid := λ _ _, (false, None) |}.

Definition pair : World :=
  {| sys := {| apiNodes := {[ "x" := nodeX; "z" := nodeZ ]};
               marked := ∅; consolidated := false |};
     history := [] |}.

(** A short name for each call, to read traces. *)
Definition label (c : Call) : string :=
  match c with
  | CGet name (_, None) => "get " +:+ name
  | CGet name (_, Some _) => "get " +:+ name +:+ ": error"
  | CPatch n None =>
      "patch " +:+ Name n +:+
      (if Unschedulable n then " unschedulable" else " schedulable")
  | CPatch n (Some _) => "patch " +:+ Name n +:+ ": error"
  | CDelete n None => "delete " +:+ Name n
  | CDelete n (Some _) => "delete " +:+ Name n +:+ ": error"
  | CLaunchMachines _ (_, None) => "launch"
  | CLaunchMachines _ (_, Some _) => "launch: error"
  | CMarkForDeletion _ => "mark"
  | CUnmarkForDeletion _ => "unmark"
  | CSetConsolidated _ => "set consolidated"
  | CConsolidated _ => "consolidated?"
  | CPublish (TerminatingNode n _) => "event TerminatingNode " +:+ Name n
  | CPublish (LaunchingNode n _) => "event LaunchingNode " +:+ Name n
  | CPublish (WaitingOnReadiness n) => "event WaitingOnReadiness " +:+ Name n
  | CPublish (WaitingOnDeletion n) => "event WaitingOnDeletion " +:+ Name n
  | CMetric (ActionsPerformed _ _) => "count action"
  | CMetric (NodesTerminated _ _) => "count terminated"
  | CMetric (NodesCreated _) => "count created"
  | CCandidateNodes _ _ => "candidates"
  | CComputeCommand _ _ _ => "command"
  | CSortAndFilter _ _ => "sort"
  | CComputeConsolidation _ _ => "consolidation"
  | CIsValid _ (valid, _) => if valid then "valid" else "not valid"
  end.

End Scenario.

(** The replace of [x] by [new], which is ready: scenario D of the spec. *)
Example replace_trace :
  map Scenario.label
    (trace (executeCommand Scenario.calm SingleNodeConsolidation
              Scenario.replaceX) Scenario.ready)
  = ["count action"; "get x"; "patch x unschedulable"; "launch";
     "count created"; "mark"; "get new"; "event LaunchingNode new";
     "event TerminatingNode x"; "delete x"; "count terminated"; "get x: error"].
Proof. vm_compute. reflexivity. Qed.

(** The launch fails: scenario E of the spec, and the same with a node that
    is being deleted. *)
Example launch_failure_trace :
  map Scenario.label
    (trace (executeCommand Scenario.launchFails SingleNodeConsolidation
              Scenario.replaceX) Scenario.alone)
  = ["count action"; "get x"; "patch x unschedulable"; "launch: error";
     "get x"; "patch x schedulable"].
Proof. vm_compute. reflexivity. Qed.

Example launch_failure_trace_deleting :
  map Scenario.label
    (trace (executeCommand Scenario.launchFails SingleNodeConsolidation
              Scenario.replaceY) Scenario.leaving)
  = ["count action"; "get y"; "patch y unschedulable"; "launch: error";
     "get y"].
Proof. vm_compute. reflexivity. Qed.

(** The tick in which validation rejects [x] and approves [z]. *)
Example second_candidate_trace :
  map Scenario.label (trace (Reconcile Scenario.rejectsX) Scenario.pair)
  = ["candidates"; "candidates"; "candidates"; "candidates"; "candidates";
     "candidates"; "consolidated?"; "sort"; "consolidation"; "not valid";
     "consolidation"; "valid"; "command"; "count action";
     "event TerminatingNode z"; "delete z"; "count terminated";
     "get z: error"].
Proof. vm_compute. reflexivity. Qed.


Lemma launchFails_undisturbed c : undisturbed Scenario.launchFails c.
Proof. by intros h s x Hx. Qed.

Lemma oneTooMany_undisturbed c : undisturbed Scenario.oneTooMany c.
Proof. by intros h s x Hx. Qed.

Lemma calm_live : live Scenario.calm.
Proof. by intros h. Qed.

Lemma not_observedInitialized name tr :
  forallb (λ call, negb (observes name call)) tr = true →
  ¬ observedInitialized name tr.
Proof.
  intros Hall Hex. apply Exists_exists in Hex as (call & Hin & Hobs).
  apply list_elem_of_In in Hin.
  apply (proj1 (forallb_forall _ _) Hall), negb_true_iff in Hin. congruence.
Qed.

(** C1, where the code departs from it.  The context of the tick is done
    once the replacement is launched: [ParallelizeUntil] runs no piece of the
    wait for readiness, [errs] stays nil, and [executeCommand] goes on to the
    [TerminatingNode] event and the [Delete] of the old node [x] and returns
    nil, although no [Get] ever asked for the replacement [new], which is not
    even there. *)
Lemma cancelled_context_skips_readiness_wait :
  let run := executeCommand Scenario.shutdown SingleNodeConsolidation
               Scenario.replaceX in
  cmdAction Scenario.replaceX = actionReplace ∧
  (run Scenario.alone).1 = None ∧
  take 8 (map Scenario.label (trace run Scenario.alone))
    = ["count action"; "get x"; "patch x unschedulable"; "launch";
       "count created"; "mark"; "event TerminatingNode x";
       "delete x: error"] ∧
  deletes (trace run Scenario.alone) = nodesToRemove Scenario.replaceX ∧
  gets (trace run Scenario.alone) = replicate 61 "x" ∧
  ¬ observedInitialized "new" (trace run Scenario.alone).
Proof.
  split_and!; try (vm_compute; reflexivity).
  apply not_observedInitialized. vm_compute. reflexivity.
Qed.

Lemma replacements_initialized_before_delete_witness :
  ∃ names pre post,
    trace (executeCommand Scenario.calm SingleNodeConsolidation
             Scenario.replaceX) Scenario.ready = pre ++ post ∧
    CLaunchMachines (replacementNodes Scenario.replaceX) (names, None) ∈ pre ∧
    length names = length (replacementNodes Scenario.replaceX) ∧
    (∀ name, name ∈ names → observedInitialized name pre) ∧
    Forall (λ call, isDelete call = false) pre ∧
    deletes post = nodesToRemove Scenario.replaceX.
Proof.
  apply (replacements_initialized_before_delete Scenario.calm
           SingleNodeConsolidation Scenario.replaceX Scenario.ready).
  - apply calm_live.
  - reflexivity.
  - vm_compute. reflexivity.
Defined.

(** C5, as the spec states it: every [TerminatingNode] event of an old node
    is published before any patch and before the launch. *)
Definition terminating_event_first (c : Command) (tr : list Call) : Prop :=
  ∀ pre call post,
    tr = pre ++ call :: post →
    isPatch call || isLaunch call = true →
    ∀ n, n ∈ nodesToRemove c → CPublish (TerminatingNode n c) ∈ pre.

(** The successful replace of [x]: its first calls are the counter, the [Get]
    and the [Patch] of the cordon; no event comes before that patch. *)
Lemma terminating_event_first_fails :
  ¬ terminating_event_first Scenario.replaceX
      (trace (executeCommand Scenario.calm SingleNodeConsolidation
                Scenario.replaceX) Scenario.ready).
Proof.
  intros H.
  set (tr := trace (executeCommand Scenario.calm SingleNodeConsolidation
                      Scenario.replaceX) Scenario.ready) in H.
  specialize (H (take 2 tr) (default (CSetConsolidated false) (tr !! 2%nat))
                (drop 3 tr)).
  assert (Hin : CPublish (TerminatingNode Scenario.nodeX Scenario.replaceX)
                  ∈ take 2 tr).
  { apply H.
    - vm_compute. reflexivity.
    - vm_compute. reflexivity.
    - apply elem_of_cons. by left. }
  vm_compute in Hin.
  apply elem_of_cons in Hin as [Hin|Hin]; [discriminate Hin|].
  apply elem_of_cons in Hin as [Hin|Hin]; [discriminate Hin|].
  by apply elem_of_nil in Hin.
Qed.

(** C6, as the spec states it: after a failed launch every old node is
    schedulable. *)
Definition launch_failure_uncordons_all (env : Env) (d : Deprovisioner)
    (c : Command) (w : World) : Prop :=
  ∀ names e,
    CLaunchMachines (replacementNodes c) (names, Some e)
      ∈ trace (executeCommand env d c) w →
    (executeCommand env d c w).1 ≠ None ∧
    Forall (λ call, isDelete call = false ∧ isMark call = false)
      (trace (executeCommand env d c) w) ∧
    ∀ x, x ∈ map Name (nodesToRemove c) →
      ∃ n, apiNodes (sys (executeCommand env d c w).2) !! x = Some n ∧
           Unschedulable n = false.

(** A node that is being deleted is cordoned like any other, and is skipped
    by the un-cordon: nobody interferes, every request is answered, and [y] is
    unschedulable when [executeCommand] returns. *)
Lemma launch_failure_uncordons_all_fails :
  undisturbed Scenario.launchFails Scenario.replaceY ∧
  served Scenario.launchFails "y" ∧
  ¬ launch_failure_uncordons_all Scenario.launchFails SingleNodeConsolidation
      Scenario.replaceY Scenario.leaving.
Proof.
  split_and!; [apply launchFails_undisturbed | done |]. intros H.
  destruct (H [] (ApiError "InsufficientCapacity" 500)) as (_ & _ & Hx).
  { apply (list_elem_of_lookup_2 _ 3). vm_compute. reflexivity. }
  destruct (Hx "y") as (n & Hn & Hu); [apply elem_of_cons; by left|].
  vm_compute in Hn. inversion Hn; subst. discriminate Hu.
Qed.

Lemma launch_failure_uncordons_witness :
  ∃ trc tru err' e',
    trace (executeCommand Scenario.launchFails SingleNodeConsolidation
             Scenario.replaceX) Scenario.alone
      = CMetric (ActionsPerformed SingleNodeConsolidation
                   (cmdAction Scenario.replaceX)) :: trc
        ++ [CLaunchMachines (replacementNodes Scenario.replaceX)
              ([], Some (ApiError "InsufficientCapacity" 500))] ++ tru ∧
    Forall (cordonCall true) trc ∧
    cordonSteps false (map Name (nodesToRemove Scenario.replaceX)) tru ∧
    errorList err' = cordonErrors tru ∧
    multierr_Append (Some (ApiError "InsufficientCapacity" 500)) err' = Some e' ∧
    (executeCommand Scenario.launchFails SingleNodeConsolidation
       Scenario.replaceX Scenario.alone).1
      = Some (Errorf "launching replacement node, %w" [ArgError e']) ∧
    Forall (λ call, isDelete call = false ∧ isMark call = false)
      (trace (executeCommand Scenario.launchFails SingleNodeConsolidation
                Scenario.replaceX) Scenario.alone) ∧
    (undisturbed Scenario.launchFails Scenario.replaceX →
     marksKept Scenario.replaceX Scenario.alone
       (executeCommand Scenario.launchFails SingleNodeConsolidation
          Scenario.replaceX Scenario.alone).2 ∧
     uncordoned Scenario.launchFails Scenario.replaceX
       (executeCommand Scenario.launchFails SingleNodeConsolidation
          Scenario.replaceX Scenario.alone).2).
Proof.
  apply (launch_failure_uncordons Scenario.launchFails SingleNodeConsolidation
           Scenario.replaceX Scenario.alone []
           (ApiError "InsufficientCapacity" 500)).
  - reflexivity.
  - apply (list_elem_of_lookup_2 _ 3). vm_compute. reflexivity.
Defined.




Lemma count_mismatch_leaves_nodes_cordoned_witness :
  undisturbed Scenario.oneTooMany Scenario.replaceX ∧
  length ["new"; "newer"] ≠ length (replacementNodes Scenario.replaceX) ∧
  cordoned Scenario.replaceX
    (launchReplacementNodes Scenario.oneTooMany Scenario.replaceX
       Scenario.alone).2.
Proof.
  split_and!; [apply oneTooMany_undisturbed | simpl; lia |].
  apply (count_mismatch_leaves_nodes_cordoned Scenario.oneTooMany
           Scenario.replaceX Scenario.alone ["new"; "newer"]).
  - apply oneTooMany_undisturbed.
  - apply (list_elem_of_lookup_2 _ 2). vm_compute. reflexivity.
  - simpl. lia.
Defined.

(** ** Claims about the control loop *)

(** The strategies whose candidates were asked for, the commands that were
    computed, and the commands that were executed, in order. *)
Definition consulted (tr : list Call) : list Deprovisioner :=
  omap (λ c, match c with CCandidateNodes d _ => Some d | _ => None end) tr.

Definition computed (tr : list Call) : list (Deprovisioner * Command) :=
  omap (λ c, match c with
             | CComputeCommand d _ (cmd, None) => Some (d, cmd)
             | _ => None
             end) tr.

Definition executions (tr : list Call) : list (Deprovisioner * action) :=
  omap (λ c, match c with
             | CMetric (ActionsPerformed d a) => Some (d, a)
             | _ => None
             end) tr.

Lemma consulted_app tr1 tr2 :
  consulted (tr1 ++ tr2) = consulted tr1 ++ consulted tr2.
Proof. apply omap_app. Qed.

Lemma computed_app tr1 tr2 :
  computed (tr1 ++ tr2) = computed tr1 ++ computed tr2.
Proof. apply omap_app. Qed.

Lemma executions_app tr1 tr2 :
  executions (tr1 ++ tr2) = executions tr1 ++ executions tr2.
Proof. apply omap_app. Qed.

Lemma consolidationCalls_silent tr :
  Forall consolidationCall tr →
  consulted tr = [] ∧ computed tr = [] ∧ executions tr = [] ∧
  Forall (λ c, isExecution c = false ∧ isMutation c = false) tr.
Proof.
  induction 1 as [|c tr Hc _ (IH1 & IH2 & IH3 & IH4)]; [done|].
  unfold consulted, computed, executions in *.
  destruct c; try done; simpl; by rewrite ?IH1, ?IH2, ?IH3; repeat constructor.
Qed.

Lemma executorCalls_silent tr :
  Forall (λ c, executorCall c = true) tr →
  consulted tr = [] ∧ computed tr = [] ∧ executions tr = [] ∧
  Forall (λ c, isRejection c = false) tr.
Proof.
  induction 1 as [|c tr Hc _ (IH1 & IH2 & IH3 & IH4)]; [done|].
  unfold consulted, computed, executions in *.
  destruct c as [| | | | | | | | |[]| | | | |]; try done; simpl;
    by rewrite ?IH1, ?IH2, ?IH3; repeat constructor.
Qed.

Lemma computePost_calls d cands res trc :
  computePost d cands res trc →
  consulted trc = [] ∧ executions trc = [] ∧
  computed trc = match res with (cmd, None) => [(d, cmd)] | _ => [] end ∧
  Forall (λ c, isExecution c = false ∧ isMutation c = false) trc.
Proof.
  intros (inner & -> & F & _).
  destruct (consolidationCalls_silent _ F) as (H1 & H2 & H3 & H4).
  unfold consulted, computed, executions in *.
  rewrite !omap_app, H1, H2, H3. simpl. split_and!; try done.
  - by destruct res as [cmd [e|]].
  - apply Forall_app_2; [done | by repeat constructor].
Qed.

(** A call after which the loop goes on to the next strategy: candidates
    found without an error, a [doNothing] command computed without an
    error. *)
Definition idle (c : Call) : Prop :=
  match c with
  | CCandidateNodes _ (_, err) => err = None
  | CComputeCommand _ _ (cmd, err) =>
      err = None ∧ cmdAction cmd = actionDoNothing
  | _ => True
  end.

Lemma computePost_idle d cands cmd err trc :
  computePost d cands (cmd, err) trc → Forall idle trc →
  err = None ∧ cmdAction cmd = actionDoNothing.
Proof.
  intros (inner & -> & _) F. apply Forall_app in F as [_ F].
  by apply Forall_cons in F as [F _].
Qed.

Lemma sweep_idle env ds w r tr w' :
  sweep env ds w r tr w' → Forall idle tr →
  r = ({| Requeue := false; RequeueAfter := pollingPeriod |}, None) ∧
  consolidated (sys w') = true ∧
  consulted tr = ds.
Proof.
  induction 1 as [ w w' Hc
                 | d rest w cands e w'
                 | d rest w w1 r tr w' Hh Hs IH
                 | d rest w cands cmd e trc w' Hne Hp
                 | d rest w cands cmd trc w1 r tr w' Hne Hp Ha Hh Hs IH
                 | d rest w cands cmd trc w' Hne Hp Ha
                 | d rest w cands cmd trc w1 err tre w' Hne Hp Hn Hr Hh Hruns ];
    intros F.
  - done.
  - by apply Forall_cons in F as [F _].
  - apply Forall_cons in F as [_ F].
    destruct (IH F) as (-> & Hc & Hcons). split_and!; try done.
    change (consulted (CCandidateNodes d ([], None) :: tr))
      with (d :: consulted tr). by rewrite Hcons.
  - apply Forall_cons in F as [_ F].
    by destruct (computePost_idle _ _ _ _ _ Hp F).
  - apply Forall_cons in F as [_ F]. apply Forall_app in F as [Fc F].
    destruct (IH F) as (-> & Hc & Hcons). split_and!; try done.
    destruct (computePost_calls _ _ _ _ Hp) as (Hq & _).
    change (consulted (CCandidateNodes d (cands, None) :: trc ++ tr))
      with (d :: consulted (trc ++ tr)).
    by rewrite consulted_app, Hq, Hcons.
  - apply Forall_cons in F as [_ F].
    destruct (computePost_idle _ _ _ _ _ Hp F). congruence.
  - apply Forall_cons in F as [_ F]. apply Forall_app in F as [Fc F].
    by destruct (computePost_idle _ _ _ _ _ Hp Fc).
Qed.

(** C7.  When every strategy of a sweep finds no candidates or computes a
    [doNothing] command, none with an error, all six strategies are consulted,
    the [consolidated] flag is true when [Reconcile] returns, and [Reconcile]
    asks to be called again after [pollingPeriod], which is 10 seconds. *)
Theorem idle_sweep_consolidates env w :
  Forall idle (trace (Reconcile env) w) →
  (Reconcile env w).1
    = ({| Requeue := false; RequeueAfter := pollingPeriod |}, None) ∧
  pollingPeriod = 10 * 1000000000 ∧
  consolidated (sys (Reconcile env w).2) = true ∧
  consulted (trace (Reconcile env) w) = deprovisioners.
Proof.
  intros F.
  pose proof (spec_elim _ _ _ (reconcileLoop_spec env deprovisioners w)) as H.
  destruct (sweep_idle _ _ _ _ _ _ H F) as (Hr & Hc & Hd). by split_and!.
Qed.

Lemma idle_sweep_consolidates_witness :
  Forall idle (trace (Reconcile Scenario.calm) Scenario.alone) ∧
  (Reconcile Scenario.calm Scenario.alone).1
    = ({| Requeue := false; RequeueAfter := 10 * 1000000000 |}, None) ∧
  consolidated (sys (Reconcile Scenario.calm Scenario.alone).2) = true.
Proof.
  assert (F : Forall idle (trace (Reconcile Scenario.calm) Scenario.alone)).
  { vm_compute. repeat constructor. }
  destruct (idle_sweep_consolidates Scenario.calm Scenario.alone F)
    as (Hr & Hp & Hc & _).
  split_and!; [exact F | | exact Hc]. rewrite Hr. reflexivity.
Defined.

(** A command that is neither [doNothing] nor [retry]. *)
Definition actionable (cmd : Command) : Prop :=
  cmdAction cmd ≠ actionDoNothing ∧ cmdAction cmd ≠ actionRetry.

(** In the trace [tr] of a run from [w] that ends in [w'], the command [cmd]
    of the strategy [d] is computed after [doNothing] commands only, is
    executed at once, and nothing follows its execution. *)
Definition executedFirst (env : Env) (w : World) (tr : list Call) (w' : World)
    (d : Deprovisioner) (cmd : Command) : Prop :=
  ∃ pre cands w1,
    tr = pre ++ CComputeCommand d cands (cmd, None)
             :: trace (executeCommand env d cmd) w1 ∧
    history w1 = history w ++ pre ++ [CComputeCommand d cands (cmd, None)] ∧
    w' = (executeCommand env d cmd w1).2 ∧
    Forall (λ dc, cmdAction dc.2 = actionDoNothing) (computed pre) ∧
    executions pre = [].

Lemma executedFirst_cons env w w1 tr w' d cmd pre :
  history w1 = history w ++ pre →
  Forall (λ dc, cmdAction dc.2 = actionDoNothing) (computed pre) →
  executions pre = [] →
  executedFirst env w1 tr w' d cmd →
  executedFirst env w (pre ++ tr) w' d cmd.
Proof.
  intros Hh Hc He (pre' & cands & w2 & -> & Hh2 & -> & Hc2 & He2).
  exists (pre ++ pre'), cands, w2. split_and!.
  - by rewrite <- app_assoc.
  - rewrite Hh2, Hh. by rewrite <- !app_assoc.
  - done.
  - rewrite computed_app. by apply Forall_app_2.
  - by rewrite executions_app, He, He2.
Qed.

Lemma sweep_order env ds w r tr w' :
  sweep env ds w r tr w' →
  consulted tr `prefix_of` ds ∧
  (executions tr = [] ∨
   ∃ d cmd, executions tr = [(d, cmdAction cmd)] ∧ (d, cmd) ∈ computed tr ∧
            actionable cmd) ∧
  (∀ d cmd, (d, cmd) ∈ computed tr → actionable cmd →
            executedFirst env w tr w' d cmd).
Proof.
  induction 1 as [ w w' Hc
                 | d rest w cands e w'
                 | d rest w w1 r tr w' Hh Hs IH
                 | d rest w cands cmd e trc w' Hne Hp
                 | d rest w cands cmd trc w1 r tr w' Hne Hp Ha Hh Hs IH
                 | d rest w cands cmd trc w' Hne Hp Ha
                 | d rest w cands cmd trc w1 err tre w' Hne Hp Hn Hr Hh Hruns ].
  - split_and!; [apply prefix_nil | by left |].
    intros d cmd Hin. by apply elem_of_nil in Hin.
  - split_and!; [apply prefix_cons, prefix_nil | by left |].
    intros d' cmd Hin. by apply elem_of_nil in Hin.
  - destruct IH as (IH1 & IH2 & IH3). split_and!.
    + by apply prefix_cons.
    + done.
    + intros d' cmd Hin Hact.
      apply (executedFirst_cons env w w1 tr w' d' cmd
               [CCandidateNodes d ([], None)]); auto.
  - destruct (computePost_calls _ _ _ _ Hp) as (Hq & He & Hc & _).
    change (consulted (CCandidateNodes d (cands, None) :: trc))
      with (d :: consulted trc).
    change (executions (CCandidateNodes d (cands, None) :: trc))
      with (executions trc).
    change (computed (CCandidateNodes d (cands, None) :: trc))
      with (computed trc).
    rewrite Hq, He, Hc. split_and!; [apply prefix_cons, prefix_nil | by left |].
    intros d' cmd' Hin. by apply elem_of_nil in Hin.
  - destruct (computePost_calls _ _ _ _ Hp) as (Hq & He & Hc & _).
    destruct IH as (IH1 & IH2 & IH3).
    change (consulted (CCandidateNodes d (cands, None) :: trc ++ tr))
      with (d :: consulted (trc ++ tr)).
    change (executions (CCandidateNodes d (cands, None) :: trc ++ tr))
      with (executions (trc ++ tr)).
    change (computed (CCandidateNodes d (cands, None) :: trc ++ tr))
      with (computed (trc ++ tr)).
    rewrite consulted_app, executions_app, computed_app, Hq, He, Hc. simpl.
    split_and!.
    + by apply prefix_cons.
    + destruct IH2 as [IH2|(d' & cmd' & E & Hin & Hact)]; [by left|].
      right. exists d', cmd'. split_and!; [done | | done].
      apply elem_of_cons. by right.
    + intros d' cmd' Hin Hact. apply elem_of_cons in Hin as [Hin|Hin].
      { inversion Hin; subst. by destruct Hact. }
      apply (executedFirst_cons env w w1 tr w' d' cmd'
               (CCandidateNodes d (cands, None) :: trc)); auto.
      * change (computed (CCandidateNodes d (cands, None) :: trc))
          with (computed trc). rewrite Hc. by repeat constructor.
  - destruct (computePost_calls _ _ _ _ Hp) as (Hq & He & Hc & _).
    change (consulted (CCandidateNodes d (cands, None) :: trc))
      with (d :: consulted trc).
    change (executions (CCandidateNodes d (cands, None) :: trc))
      with (executions trc).
    change (computed (CCandidateNodes d (cands, None) :: trc))
      with (computed trc).
    rewrite Hq, He, Hc. split_and!; [apply prefix_cons, prefix_nil | by left |].
    intros d' cmd' Hin [_ Hact]. apply elem_of_cons in Hin as [Hin|Hin].
    + by inversion Hin; subst.
    + by apply elem_of_nil in Hin.
  - destruct (computePost_calls _ _ _ _ Hp) as (Hq & He & Hc & _).
    destruct (runs_trace _ _ _ _ _ Hruns) as (Htre & _ & Hw').
    destruct (executeCommand_calls env d cmd w1) as (tail & Htail & Ft).
    destruct (executorCalls_silent _ Ft) as (Tq & Tc & Te & _).
    change (consulted (CCandidateNodes d (cands, None) :: trc ++ tre))
      with (d :: consulted (trc ++ tre)).
    change (executions (CCandidateNodes d (cands, None) :: trc ++ tre))
      with (executions (trc ++ tre)).
    change (computed (CCandidateNodes d (cands, None) :: trc ++ tre))
      with (computed (trc ++ tre)).
    rewrite consulted_app, executions_app, computed_app, Hq, He, Hc.
    rewrite <- Htre, Htail.
    change (consulted (CMetric (ActionsPerformed d (cmdAction cmd)) :: tail))
      with (consulted tail).
    change (executions (CMetric (ActionsPerformed d (cmdAction cmd)) :: tail))
      with ((d, cmdAction cmd) :: executions tail).
    change (computed (CMetric (ActionsPerformed d (cmdAction cmd)) :: tail))
      with (computed tail).
    rewrite Tq, Tc, Te. simpl. split_and!.
    + apply prefix_cons, prefix_nil.
    + right. exists d, cmd. split_and!; [done | | done].
      apply elem_of_cons. by left.
    + intros d' cmd' Hin _. apply elem_of_cons in Hin as [Hin|Hin];
        [|by apply elem_of_nil in Hin].
      inversion Hin; subst d' cmd'.
      destruct Hp as (inner & -> & Fi & _).
      destruct (consolidationCalls_silent _ Fi) as (_ & Ic & Ie & _).
      exists (CCandidateNodes d (cands, None) :: inner), cands, w1.
      split_and!.
      * rewrite <- Htail. simpl. by rewrite <- app_assoc.
      * by rewrite Hh.
      * done.
      * change (computed (CCandidateNodes d (cands, None) :: inner))
          with (computed inner). by rewrite Ic.
      * change (executions (CCandidateNodes d (cands, None) :: inner))
          with (executions inner). by rewrite Ie.
Qed.

Lemma computePost_rejected d cands res trc :
  computePost d cands res trc →
  Exists (λ c, isRejection c = true) trc →
  Forall (λ c, isApproval c = false) trc →
  d = SingleNodeConsolidation ∧ res = (CommandOf actionRetry, None).
Proof.
  intros (inner & -> & F & Hd & Hr & _) Hrej Happ.
  apply Forall_app in Happ as [Happ _].
  apply Exists_app in Hrej as [Hrej|Hrej].
  - split; [|by apply Hr].
    destruct (decide (d = SingleNodeConsolidation)) as [|Hne]; [done|].
    rewrite (Hd Hne) in Hrej. by apply Exists_nil in Hrej.
  - apply Exists_cons in Hrej as [Hrej|Hrej]; [done | by apply Exists_nil in Hrej].
Qed.

Lemma sweep_rejected env ds w r tr w' :
  sweep env ds w r tr w' →
  Exists (λ c, isRejection c = true) tr →
  Forall (λ c, isApproval c = false) tr →
  (∃ cands, CComputeCommand SingleNodeConsolidation cands
              (CommandOf actionRetry, None) ∈ tr) ∧
  r = ({| Requeue := true; RequeueAfter := 0 |}, None) ∧
  Forall (λ c, isExecution c = false ∧ isMutation c = false) tr.
Proof.
  induction 1 as [ w w' Hc
                 | d rest w cands e w'
                 | d rest w w1 r tr w' Hh Hs IH
                 | d rest w cands cmd e trc w' Hne Hp
                 | d rest w cands cmd trc w1 r tr w' Hne Hp Ha Hh Hs IH
                 | d rest w cands cmd trc w' Hne Hp Ha
                 | d rest w cands cmd trc w1 err tre w' Hne Hp Hn Hr Hh Hruns ];
    intros Hrej Happ;
    (apply Exists_cons in Hrej as [Hrej|Hrej]; [done|]);
    apply Forall_cons in Happ as [_ Happ].
  - by apply Exists_nil in Hrej.
  - by apply Exists_nil in Hrej.
  - destruct (IH Hrej Happ) as ((cs & Hin) & -> & F). split_and!; [|done|].
    + exists cs. by apply elem_of_cons; right.
    + by constructor.
  - by destruct (computePost_rejected _ _ _ _ Hp Hrej Happ).
  - apply Forall_app in Happ as [Happ1 Happ2].
    destruct (computePost_calls _ _ _ _ Hp) as (_ & _ & _ & Fc).
    apply Exists_app in Hrej as [Hrej|Hrej].
    { destruct (computePost_rejected _ _ _ _ Hp Hrej Happ1) as [_ E].
      inversion E; subst. done. }
    destruct (IH Hrej Happ2) as ((cs & Hin) & -> & F). split_and!; [|done|].
    + exists cs. apply elem_of_cons; right. apply elem_of_app. by right.
    + constructor; [done|]. by apply Forall_app_2.
  - destruct (computePost_rejected _ _ _ _ Hp Hrej Happ) as [-> E].
    inversion E; subst.
    destruct (computePost_calls _ _ _ _ Hp) as (_ & _ & _ & Fc).
    destruct Hp as (inner & -> & _).
    split_and!; [|done|by constructor].
    exists cands. apply elem_of_cons; right. apply elem_of_app; right.
    apply elem_of_cons. by left.
  - apply Forall_app in Happ as [Happ1 Happ2].
    apply Exists_app in Hrej as [Hrej|Hrej].
    { destruct (computePost_rejected _ _ _ _ Hp Hrej Happ1) as [_ E].
      inversion E; subst. done. }
    exfalso. destruct (runs_trace _ _ _ _ _ Hruns) as (<- & _).
    destruct (executeCommand_calls env d cmd w1) as (tail & Htr & Ft).
    rewrite Htr in Hrej. apply Exists_cons in Hrej as [Hrej|Hrej]; [done|].
    destruct (executorCalls_silent _ Ft) as (_ & _ & _ & Fr).
    apply Exists_exists in Hrej as (c & Hc & Hrc).
    apply (proj1 (Forall_forall _ _) Fr) in Hc. congruence.
Qed.

Lemma computed_elem d cands cmd tr :
  CComputeCommand d cands (cmd, None) ∈ tr → (d, cmd) ∈ computed tr.
Proof.
  intros Hin. apply list_elem_of_omap.
  by exists (CComputeCommand d cands (cmd, None)).
Qed.

Lemma sweep_approved env ds w r tr w' cmd :
  sweep env ds w r tr w' →
  CIsValid cmd (true, None) ∈ tr →
  (∃ cands, CComputeCommand SingleNodeConsolidation cands (cmd, None) ∈ tr) ∧
  actionable cmd.
Proof.
  assert (Hin_trc : ∀ d cands res trc,
            computePost d cands res trc → CIsValid cmd (true, None) ∈ trc →
            d = SingleNodeConsolidation ∧ res = (cmd, None) ∧
            actionable cmd ∧ CComputeCommand d cands res ∈ trc).
  { intros d cands res trc (inner & -> & _ & Hd & _ & Ha) Hin.
    apply elem_of_app in Hin as [Hin|Hin].
    - destruct (Ha cmd Hin) as [-> Hact]. split_and!.
      + destruct (decide (d = SingleNodeConsolidation)) as [|Hne]; [done|].
        rewrite (Hd Hne) in Hin. by apply elem_of_nil in Hin.
      + done.
      + split; destruct Hact as [E|E]; rewrite E; done.
      + apply elem_of_app. right. apply elem_of_cons. by left.
    - apply elem_of_cons in Hin as [Hin|Hin]; [done|].
      by apply elem_of_nil in Hin. }
  induction 1 as [ w w' Hc
                 | d rest w cands e w'
                 | d rest w w1 r tr w' Hh Hs IH
                 | d rest w cands cmd0 e trc w' Hne Hp
                 | d rest w cands cmd0 trc w1 r tr w' Hne Hp Ha Hh Hs IH
                 | d rest w cands cmd0 trc w' Hne Hp Ha
                 | d rest w cands cmd0 trc w1 err tre w' Hne Hp Hn Hr Hh Hruns ];
    intros Hin;
    (apply elem_of_cons in Hin as [Hin|Hin]; [done|]).
  - by apply elem_of_nil in Hin.
  - by apply elem_of_nil in Hin.
  - destruct (IH Hin) as ((cs & Hcs) & Hact). split; [|done].
    exists cs. apply elem_of_cons. by right.
  - by destruct (Hin_trc _ _ _ _ Hp Hin) as (_ & E & _).
  - apply elem_of_app in Hin as [Hin|Hin].
    + destruct (Hin_trc _ _ _ _ Hp Hin) as (_ & E & [Hact _] & _).
      inversion E; subst. done.
    + destruct (IH Hin) as ((cs & Hcs) & Hact). split; [|done].
      exists cs. apply elem_of_cons. right. apply elem_of_app. by right.
  - destruct (Hin_trc _ _ _ _ Hp Hin) as (_ & E & [_ Hact] & _).
    inversion E; subst. done.
  - apply elem_of_app in Hin as [Hin|Hin].
    + destruct (Hin_trc _ _ _ _ Hp Hin) as (-> & E & Hact & Hc).
      inversion E; subst. split; [|done].
      exists cands. apply elem_of_cons. right. apply elem_of_app. by left.
    + exfalso. destruct (runs_trace _ _ _ _ _ Hruns) as (<- & _).
      destruct (executeCommand_calls env d cmd0 w1) as (tail & Htr & Ft).
      rewrite Htr in Hin. apply elem_of_cons in Hin as [Hin|Hin]; [done|].
      by apply (proj1 (Forall_forall _ _) Ft) in Hin.
Qed.

Lemma sweep_executes_once env ds w r tr w' d cmd :
  sweep env ds w r tr w' →
  (d, cmd) ∈ computed tr → actionable cmd →
  executedFirst env w tr w' d cmd ∧ executions tr = [(d, cmdAction cmd)].
Proof.
  intros H Hin Hact. destruct (sweep_order _ _ _ _ _ _ H) as (_ & H2 & H3).
  split; [by apply H3|].
  destruct H2 as [E|(d' & cmd' & E & Hin' & Hact')].
  - destruct (H3 d cmd Hin Hact) as (pre & cands & w1 & Htr & _).
    destruct (executeCommand_calls env d cmd w1) as (tail & Htail & _).
    rewrite Htr, Htail, executions_app in E.
    apply app_eq_nil in E as [_ E]. discriminate E.
  - destruct (H3 d cmd Hin Hact) as (pre & cands & w1 & Htr & _ & _ & _ & Hp).
    destruct (executeCommand_calls env d cmd w1) as (tail & Htail & _).
    rewrite E in *. rewrite Htr, Htail, executions_app, Hp in E.
    simpl in E.
    change (executions (CComputeCommand d cands (cmd, None)
                          :: CMetric (ActionsPerformed d (cmdAction cmd))
                          :: tail))
      with ((d, cmdAction cmd) :: executions tail) in E.
    inversion E. done.
Qed.

(** C4, as the code has it.  When in a tick [IsValid] has rejected the
    command of a candidate of single node consolidation and has approved
    none, the [ComputeCommand] of single node consolidation has returned the
    retry command, [Reconcile] asks to be called again at once, and it has
    executed no command and changed nothing in the cluster.  When [IsValid]
    has approved a command, whatever it has rejected before, the
    [ComputeCommand] of single node consolidation has returned that command,
    which is executed at once and is the only command executed in the tick;
    [Reconcile] returns when its execution returns. *)
Theorem failed_validation_retries env w :
  (Exists (λ c, isRejection c = true) (trace (Reconcile env) w) →
   Forall (λ c, isApproval c = false) (trace (Reconcile env) w) →
   (∃ cands, CComputeCommand SingleNodeConsolidation cands
               (CommandOf actionRetry, None) ∈ trace (Reconcile env) w) ∧
   (Reconcile env w).1 = ({| Requeue := true; RequeueAfter := 0 |}, None) ∧
   Forall (λ c, isExecution c = false ∧ isMutation c = false)
     (trace (Reconcile env) w)) ∧
  (∀ cmd,
     CIsValid cmd (true, None) ∈ trace (Reconcile env) w →
     (∃ cands, CComputeCommand SingleNodeConsolidation cands (cmd, None)
                 ∈ trace (Reconcile env) w) ∧
     executedFirst env w (trace (Reconcile env) w) (Reconcile env w).2
       SingleNodeConsolidation cmd ∧
     executions (trace (Reconcile env) w)
       = [(SingleNodeConsolidation, cmdAction cmd)]).
Proof.
  pose proof (spec_elim _ _ _ (reconcileLoop_spec env deprovisioners w)) as H.
  split.
  - intros Hrej Happ. by apply (sweep_rejected _ _ _ _ _ _ H).
  - intros cmd Hin.
    destruct (sweep_approved _ _ _ _ _ _ _ H Hin) as ((cands & Hc) & Hact).
    split; [by exists cands|].
    apply (sweep_executes_once _ _ _ _ _ _ _ _ H); [|done].
    by apply computed_elem with cands.
Qed.

Lemma existsb_Exists {A} (f : A → bool) (l : list A) :
  existsb f l = true → Exists (λ x, f x = true) l.
Proof.
  intros (x & Hx & Hf)%existsb_exists. apply Exists_exists. exists x.
  split; [by apply list_elem_of_In | done].
Qed.

Lemma forallb_Forall {A} (f : A → bool) (l : list A) :
  forallb f l = true → Forall (λ x, f x = true) l.
Proof.
  intros H. apply Forall_forall. intros x Hx%list_elem_of_In.
  by apply (proj1 (forallb_forall _ _) H).
Qed.

Lemma failed_validation_retries_witness :
  (Exists (λ c, isRejection c = true)
     (trace (Reconcile Scenario.rejectsAll) Scenario.pair) ∧
   Forall (λ c, isApproval c = false)
     (trace (Reconcile Scenario.rejectsAll) Scenario.pair) ∧
   (Reconcile Scenario.rejectsAll Scenario.pair).1
     = ({| Requeue := true; RequeueAfter := 0 |}, None)) ∧
  (CIsValid (Scenario.deletion {| candNode := Scenario.nodeZ |}) (true, None)
     ∈ trace (Reconcile Scenario.rejectsX) Scenario.pair ∧
   executions (trace (Reconcile Scenario.rejectsX) Scenario.pair)
     = [(SingleNodeConsolidation, actionDelete)]).
Proof.
  assert (Hrej : Exists (λ c, isRejection c = true)
                   (trace (Reconcile Scenario.rejectsAll) Scenario.pair)).
  { apply existsb_Exists. vm_compute. reflexivity. }
  assert (Happ : Forall (λ c, isApproval c = false)
                   (trace (Reconcile Scenario.rejectsAll) Scenario.pair)).
  { eapply Forall_impl;
      [apply (forallb_Forall (λ c, negb (isApproval c)));
       vm_compute; reflexivity|].
    intros c Hc. by apply negb_true_iff. }
  assert (Hin : CIsValid (Scenario.deletion {| candNode := Scenario.nodeZ |})
                  (true, None)
                  ∈ trace (Reconcile Scenario.rejectsX) Scenario.pair).
  { apply (list_elem_of_lookup_2 _ 11). vm_compute. reflexivity. }
  split.
  - split_and!; [exact Hrej | exact Happ |].
    apply (proj1 (failed_validation_retries Scenario.rejectsAll Scenario.pair)
             Hrej Happ).
  - split; [exact Hin|].
    apply (proj2 (failed_validation_retries Scenario.rejectsX Scenario.pair)
             _ Hin).
Defined.

(** C4, as the spec states it: a rejection for any candidate makes the tick
    a retry, with no command executed. *)
Definition any_rejection_retries (env : Env) (w : World) : Prop :=
  Exists (λ c, isRejection c = true) (trace (Reconcile env) w) →
  (∃ cands, CComputeCommand SingleNodeConsolidation cands
              (CommandOf actionRetry, None) ∈ trace (Reconcile env) w) ∧
  (Reconcile env w).1 = ({| Requeue := true; RequeueAfter := 0 |}, None) ∧
  Forall (λ c, isExecution c = false ∧ isMutation c = false)
    (trace (Reconcile env) w).

(** The deletion of [x] is rejected, the deletion of [z] is approved next:
    [ComputeCommand] returns the deletion of [z], and it is executed. *)
Lemma any_rejection_retries_fails :
  ¬ any_rejection_retries Scenario.rejectsX Scenario.pair.
Proof.
  intros H. destruct H as (_ & _ & F).
  { apply existsb_Exists. vm_compute. reflexivity. }
  assert (Hex : trace (Reconcile Scenario.rejectsX) Scenario.pair !! 13%nat
                = Some (CMetric (ActionsPerformed SingleNodeConsolidation
                                   actionDelete))).
  { vm_compute. reflexivity. }
  destruct (Forall_lookup_1 _ _ _ _ F Hex) as [Hx _]. discriminate Hx.
Qed.

Lemma consolidationCall_idle tr :
  Forall consolidationCall tr → Forall idle tr.
Proof. intros F. eapply Forall_impl; [apply F|]. by intros []. Qed.

Lemma executorCall_idle tr :
  Forall (λ c, executorCall c = true) tr → Forall idle tr.
Proof. intros F. eapply Forall_impl; [apply F|]. by intros []. Qed.

(** The loop begins with the candidates of its first strategy. *)
Lemma sweep_first env d rest w r tr w' :
  sweep env (d :: rest) w r tr w' →
  ∃ res tl, tr = CCandidateNodes d res :: tl.
Proof. inversion 1; subst; eauto. Qed.

(** The loop goes on as long as the calls are idle, and the first call that
    is not ends the consultation: no candidates are asked for and no command
    is computed after it. *)
Lemma sweep_stops env ds w r tr w' :
  sweep env ds w r tr w' →
  Forall idle tr ∨
  ∃ pre call post,
    tr = pre ++ call :: post ∧ Forall idle pre ∧ ¬ idle call ∧
    consulted post = [] ∧ computed post = [].
Proof.
  induction 1 as [ w w' Hc
                 | d rest w cands e w'
                 | d rest w w1 r tr w' Hh Hs IH
                 | d rest w cands cmd e trc w' Hne Hp
                 | d rest w cands cmd trc w1 r tr w' Hne Hp Ha Hh Hs IH
                 | d rest w cands cmd trc w' Hne Hp Ha
                 | d rest w cands cmd trc w1 err tre w' Hne Hp Hn Hr Hh Hruns ].
  - left. by repeat constructor.
  - right. exists [], (CCandidateNodes d (cands, Some e)), [].
    by split_and!.
  - destruct IH as [F|(pre & call & post & -> & F & Hni & Hq & Hc)].
    + left. by constructor.
    + right. exists (CCandidateNodes d ([], None) :: pre), call, post.
      split_and!; try done. by constructor.
  - right. destruct Hp as (inner & -> & Fi & _).
    exists (CCandidateNodes d (cands, None) :: inner),
      (CComputeCommand d cands (cmd, Some e)), [].
    split_and!; try done.
    + constructor; [done|]. by apply consolidationCall_idle.
    + by intros [? _].
  - destruct Hp as (inner & -> & Fi & _).
    assert (Fc : Forall idle (CCandidateNodes d (cands, None)
                              :: inner ++ [CComputeCommand d cands (cmd, None)])).
    { constructor; [done|]. apply Forall_app_2.
      - by apply consolidationCall_idle.
      - by repeat constructor. }
    destruct IH as [F|(pre & call & post & -> & F & Hni & Hq & Hc)].
    + left. rewrite app_comm_cons. by apply Forall_app_2.
    + right.
      exists ((CCandidateNodes d (cands, None)
               :: inner ++ [CComputeCommand d cands (cmd, None)]) ++ pre),
        call, post.
      split_and!; try done.
      * simpl. by rewrite <- !app_assoc.
      * by apply Forall_app_2.
  - right. destruct Hp as (inner & -> & Fi & _).
    exists (CCandidateNodes d (cands, None) :: inner),
      (CComputeCommand d cands (cmd, None)), [].
    split_and!; try done.
    + constructor; [done|]. by apply consolidationCall_idle.
    + intros [_ E]. congruence.
  - right. destruct Hp as (inner & -> & Fi & _).
    destruct (runs_trace _ _ _ _ _ Hruns) as (<- & _).
    destruct (executeCommand_calls env d cmd w1) as (tail & Htail & Ft).
    destruct (executorCalls_silent _ Ft) as (Tq & Tc & _).
    exists (CCandidateNodes d (cands, None) :: inner),
      (CComputeCommand d cands (cmd, None)),
      (trace (executeCommand env d cmd) w1).
    split_and!.
    + simpl. by rewrite <- app_assoc.
    + constructor; [done|]. by apply consolidationCall_idle.
    + by intros [_ E].
    + rewrite Htail.
      change (consulted (CMetric (ActionsPerformed d (cmdAction cmd)) :: tail))
        with (consulted tail). done.
    + rewrite Htail.
      change (computed (CMetric (ActionsPerformed d (cmdAction cmd)) :: tail))
        with (computed tail). done.
Qed.

(** The strategy whose candidates were found, without an error, has its
    [ComputeCommand] called on them. *)
Lemma sweep_computes env ds w r tr w' d cands :
  sweep env ds w r tr w' →
  CCandidateNodes d (cands, None) ∈ tr → cands ≠ [] →
  ∃ res, CComputeCommand d cands res ∈ tr.
Proof.
  assert (Hnot : ∀ d0 cands0 res trc,
            computePost d0 cands0 res trc →
            CCandidateNodes d (cands, None) ∈ trc → False).
  { intros d0 cands0 res trc (inner & -> & Fi & _) Hin.
    apply elem_of_app in Hin as [Hin|Hin].
    - by apply (proj1 (Forall_forall _ _) Fi) in Hin.
    - apply elem_of_cons in Hin as [Hin|Hin]; [done|].
      by apply elem_of_nil in Hin. }
  assert (Hlast : ∀ d0 cands0 res trc,
            computePost d0 cands0 res trc → CComputeCommand d0 cands0 res ∈ trc).
  { intros d0 cands0 res trc (inner & -> & _). apply elem_of_app. right.
    apply elem_of_cons. by left. }
  induction 1 as [ w w' Hc
                 | d0 rest w cands0 e w'
                 | d0 rest w w1 r tr w' Hh Hs IH
                 | d0 rest w cands0 cmd e trc w' Hne Hp
                 | d0 rest w cands0 cmd trc w1 r tr w' Hne Hp Ha Hh Hs IH
                 | d0 rest w cands0 cmd trc w' Hne Hp Ha
                 | d0 rest w cands0 cmd trc w1 err tre w' Hne Hp Hn Hr Hh Hruns ];
    intros Hin Hcands; apply elem_of_cons in Hin as [Hin|Hin].
  - done.
  - by apply elem_of_nil in Hin.
  - done.
  - by apply elem_of_nil in Hin.
  - inversion Hin; subst. done.
  - destruct (IH Hin Hcands) as [res Hres]. exists res.
    apply elem_of_cons. by right.
  - inversion Hin; subst. exists (cmd, Some e). apply elem_of_cons. right.
    by eapply Hlast.
  - by destruct (Hnot _ _ _ _ Hp Hin).
  - inversion Hin; subst. exists (cmd, None). apply elem_of_cons. right.
    apply elem_of_app. left. by eapply Hlast.
  - apply elem_of_app in Hin as [Hin|Hin]; [by destruct (Hnot _ _ _ _ Hp Hin)|].
    destruct (IH Hin Hcands) as [res Hres]. exists res.
    apply elem_of_cons. right. apply elem_of_app. by right.
  - inversion Hin; subst. exists (cmd, None). apply elem_of_cons. right.
    by eapply Hlast.
  - by destruct (Hnot _ _ _ _ Hp Hin).
  - inversion Hin; subst. exists (cmd, None). apply elem_of_cons. right.
    apply elem_of_app. left. by eapply Hlast.
  - apply elem_of_app in Hin as [Hin|Hin]; [by destruct (Hnot _ _ _ _ Hp Hin)|].
    exfalso. destruct (runs_trace _ _ _ _ _ Hruns) as (<- & _).
    destruct (executeCommand_calls env d0 cmd w1) as (tail & Htr & Ft).
    rewrite Htr in Hin. apply elem_of_cons in Hin as [Hin|Hin]; [done|].
    by apply (proj1 (Forall_forall _ _) Ft) in Hin.
Qed.

(** C3.  Every tick begins by asking for the candidates of Expiration, and
    the strategies are consulted in the order Expiration, Drift, Emptiness,
    EmptyNodeConsolidation, MultiNodeConsolidation, SingleNodeConsolidation:
    all six when every answer is idle (no error, no candidates or a
    [doNothing] command); otherwise the loop goes on up to the first answer
    that is not, and no strategy is consulted and no command computed after
    it.  The strategy whose candidates were found has its [ComputeCommand]
    called on them.  A computed command that is neither [doNothing] nor
    [retry] comes after [doNothing] commands only, is executed at once, and
    [Reconcile] returns when its execution returns; it is the only command
    executed.  At most one command is executed, and a command is executed
    only if it was computed in the tick and is of that kind. *)
Theorem first_actionable_command_is_executed env w :
  consulted (trace (Reconcile env) w)
    `prefix_of` [Expiration; Drift; Emptiness; EmptyNodeConsolidation;
                 MultiNodeConsolidation; SingleNodeConsolidation] ∧
  (∃ res tl, trace (Reconcile env) w = CCandidateNodes Expiration res :: tl) ∧
  ((Forall idle (trace (Reconcile env) w) ∧
    consulted (trace (Reconcile env) w)
      = [Expiration; Drift; Emptiness; EmptyNodeConsolidation;
         MultiNodeConsolidation; SingleNodeConsolidation]) ∨
   (∃ pre call post,
      trace (Reconcile env) w = pre ++ call :: post ∧
      Forall idle pre ∧ ¬ idle call ∧
      consulted post = [] ∧ computed post = [])) ∧
  (∀ d cands,
     CCandidateNodes d (cands, None) ∈ trace (Reconcile env) w → cands ≠ [] →
     ∃ res, CComputeCommand d cands res ∈ trace (Reconcile env) w) ∧
  (length (executions (trace (Reconcile env) w)) ≤ 1)%nat ∧
  (∀ d cmd,
     (d, cmd) ∈ computed (trace (Reconcile env) w) → actionable cmd →
     executedFirst env w (trace (Reconcile env) w) (Reconcile env w).2 d cmd ∧
     executions (trace (Reconcile env) w) = [(d, cmdAction cmd)]) ∧
  (∀ d a,
     (d, a) ∈ executions (trace (Reconcile env) w) →
     ∃ cmd, (d, cmd) ∈ computed (trace (Reconcile env) w) ∧
            actionable cmd ∧ a = cmdAction cmd).
Proof.
  pose proof (spec_elim _ _ _ (reconcileLoop_spec env deprovisioners w)) as H.
  destruct (sweep_order _ _ _ _ _ _ H) as (H1 & H2 & H3).
  unfold Reconcile. split_and!.
  - done.
  - by apply sweep_first in H.
  - destruct (sweep_stops _ _ _ _ _ _ H) as [F|Hstop]; [|by right].
    left. split; [done|]. by destruct (sweep_idle _ _ _ _ _ _ H F) as (_ & _ & ?).
  - intros d cands. by apply (sweep_computes _ _ _ _ _ _ _ _ H).
  - destruct H2 as [->|(d & cmd & -> & _)]; simpl; lia.
  - intros d cmd. by apply (sweep_executes_once _ _ _ _ _ _ _ _ H).
  - intros d a Hin. destruct H2 as [E|(d' & cmd' & E & Hin' & Hact')].
    + rewrite E in Hin. by apply elem_of_nil in Hin.
    + rewrite E in Hin. apply elem_of_cons in Hin as [Hin|Hin];
        [|by apply elem_of_nil in Hin].
      inversion Hin; subst. eauto.
Qed.

(** * The liveness reconciler of machines: [machine/liveness.go] *)

Module Liveness.

(** [corev1.ConditionStatus] *)
Inductive ConditionStatus := ConditionTrue | ConditionFalse | ConditionUnknown.

Global Instance ConditionStatus_eq_dec : EqDecision ConditionStatus.
Proof. solve_decision. Defined.

(** [apis.Condition] *)
Record Condition := mkCondition {
  condType : string;
  condStatus : ConditionStatus;
}.

(** [v1alpha5.Machine], with the fields the reconciler reads.  The creation
    timestamp is a [metav1.Time] value, zero when unset. *)
Record Machine := mkMachine {
  machineName : string;
  CreationTimestamp : Time;
  StatusConditions : list Condition;
}.

(** [GetCondition]: the condition of that type, nil if there is none. *)
Definition GetCondition (m : Machine) (t : string) : option Condition :=
  find (λ c, bool_decide (condType c = t)) (StatusConditions m).

(** [IsTrue]: false on nil. *)
Definition IsTrue (c : option Condition) : bool :=
  match c with
  | Some c => bool_decide (condStatus c = ConditionTrue)
  | None => false
  end.

(** [time.Time]: [IsZero], [Add], [Before], on instants counted from Go's zero
    time; the limits of Go's representation are not modelled. *)
Definition TimeIsZero (t : Time) : bool := t =? 0.
Definition TimeAdd (t : Time) (d : Duration) : Time := t + d.
Definition TimeBefore (t u : Time) : bool := t <? u.

(** [client.IgnoreNotFound] *)
Definition IgnoreNotFound (e : option error) : option error :=
  if IsNotFound e then None else e.

Section Reconciler.

(** The condition type [v1alpha5.MachineRegistered], declared outside the
    files at hand. *)
Context (MachineRegistered : string).

(** [Liveness.Reconcile], given the setting [TTLAfterNotRegistered] of the
    context, the reading [now] of the clock and the answer [delete] of the API
    server to a delete.  It returns its result and the machines it has asked
    the API server to delete. *)
Definition Reconcile (TTLAfterNotRegistered : option Duration) (now : Time)
    (delete : Machine → option error) (machine : Machine)
  : (Result * option error) * list Machine :=
  match TTLAfterNotRegistered with
  | None => ((emptyResult, None), [])
  | Some ttl =>
      (* delete the machine if we believe the machine won't register *)
      if negb (IsTrue (GetCondition machine MachineRegistered)) then
        if negb (TimeIsZero (CreationTimestamp machine))
           && TimeBefore (TimeAdd (CreationTimestamp machine) ttl) now
        then ((emptyResult, IgnoreNotFound (delete machine)), [machine])
        else (({| Requeue := false; RequeueAfter := ttl |}, None), [])
      else ((emptyResult, None), [])
  end.

(** The machine carries the registered condition with status true. *)
Definition registered (machine : Machine) : Prop :=
  ∃ c, GetCondition machine MachineRegistered = Some c ∧
       condStatus c = ConditionTrue.

Lemma IsTrue_registered machine :
  IsTrue (GetCondition machine MachineRegistered) = true ↔ registered machine.
Proof.
  unfold registered, IsTrue.
  destruct (GetCondition machine MachineRegistered) as [c|].
  - rewrite bool_decide_eq_true. split; [eauto|]. by intros (c' & [= <-] & H).
  - split; [done|]. by intros (c' & H & _).
Qed.

(** C10.  The reconciler asks for the deletion of the machine, and of that
    machine only, exactly when the setting is there, the machine is not
    registered, its creation timestamp is not zero, and the timestamp plus the
    setting is before the clock's reading.  When it does not, it returns no
    error, with a requeue after the setting when the setting is there and the
    machine is not registered, and the empty result when the setting is not
    there or the machine is registered. *)
Theorem deletes_iff_unregistered_past_ttl ttl now delete machine :
  ((Reconcile ttl now delete machine).2 = [machine] ↔
   ∃ d, ttl = Some d ∧ ¬ registered machine ∧
        CreationTimestamp machine ≠ 0 ∧ CreationTimestamp machine + d < now) ∧
  ((Reconcile ttl now delete machine).2 = [machine] ∨
   (Reconcile ttl now delete machine).2 = [] ∧
   (Reconcile ttl now delete machine).1
     = (match ttl with
        | Some d =>
            if IsTrue (GetCondition machine MachineRegistered)
            then emptyResult
            else {| Requeue := false; RequeueAfter := d |}
        | None => emptyResult
        end, None)).
Proof.
  unfold Reconcile, TimeIsZero, TimeBefore, TimeAdd.
  destruct ttl as [d|]; simpl.
  2: { split; [|by right]. split; [done|]. by intros (d & ? & _). }
  pose proof (IsTrue_registered machine) as Hreg.
  destruct (IsTrue (GetCondition machine MachineRegistered)); simpl.
  { split; [|by right]. split; [done|]. intros (d' & _ & Hn & _).
    destruct Hn. by apply Hreg. }
  destruct (Z.eqb_spec (CreationTimestamp machine) 0) as [Hz|Hz]; simpl.
  { split; [|by right]. split; [done|]. by intros (d' & _ & _ & Hn & _). }
  destruct (Z.ltb_spec (CreationTimestamp machine + d) now) as [Hlt|Hge]; simpl.
  - split; [|by left]. split; [|done]. intros _. exists d. split_and!; try done.
    intros Hr. apply Hreg in Hr. done.
  - split; [|by right]. split; [done|]. intros (d' & [= <-] & _ & _ & Hlt). lia.
Qed.

End Reconciler.

End Liveness.

(** * The event recorder

    The recorder itself is outside the files at hand; its test suite, with the
    downstream recorder [InternalRecorder] that counts the events it receives
    by reason, is among them. *)

Module Recorder.

(** Modelled from the spec: the events of the recorder.  "Each event has a
    stable reason string and a per-entity identity." *)
Record Event := mkEvent {
  Reason : string;
  UID : string;
}.

(** Modelled from the spec: the options of the recorder.  "a token bucket per
    reason-class (e.g., NominatePod: 5 tokens/sec, burst 10)"; "identical
    (reason, entity-UID) within a short window".  The window is in
    milliseconds. *)
Record RateLimit := mkRateLimit {
  tokensPerSec : Z;
  burst : Z;
}.

Record Config := mkConfig {
  dedupeWindow : Z;
  eventRateLimits : string → option RateLimit;
}.

(** Modelled from the spec: a token bucket.  Tokens are counted in
    thousandths and time in milliseconds, so that a bucket of [r] tokens per
    second gains [r] thousandths per millisecond. *)
Record Bucket := mkBucket {
  tokens : Z;
  last : Z;
}.

(** [InternalRecorder.Event]: [i.calls[reason]++] *)
Definition InternalRecorder_Event (reason : string) (calls : gmap string nat)
  : gmap string nat :=
  <[reason := S (default 0%nat (calls !! reason))]> calls.

(** [InternalRecorder.Calls] *)
Definition Calls (reason : string) (calls : gmap string nat) : nat :=
  default 0%nat (calls !! reason).

(** Modelled from the spec: the state of the recorder: when each (reason,
    entity) was let through, the bucket of each reason, the number of events
    dropped by the rate limit ("dropped events are counted"), and the
    downstream recorder. *)
Record State := mkState {
  seen : gmap (string * string) Z;
  buckets : gmap string Bucket;
  dropped : nat;
  downstream : gmap string nat;
}.

Definition initial : State :=
  {| seen := ∅; buckets := ∅; dropped := 0; downstream := ∅ |}.

(** Modelled from the spec: the bucket at [now]: it has gained the tokens of
    the time elapsed, up to [burst]. *)
Definition refill (rl : RateLimit) (now : Z) (b : Bucket) : Z :=
  Z.min (1000 * burst rl) (tokens b + tokensPerSec rl * Z.max 0 (now - last b)).

(** Modelled from the spec: one token is taken if there is one; a bucket
    starts full. *)
Definition tryAccept (rl : RateLimit) (now : Z) (b : option Bucket)
  : bool * Bucket :=
  let b := default {| tokens := 1000 * burst rl; last := now |} b in
  let t := refill rl now b in
  if 1000 <=? t
  then (true, {| tokens := t - 1000; last := Z.max (last b) now |})
  else (false, {| tokens := t; last := Z.max (last b) now |}).

(** Modelled from the spec: "identical (reason, entity-UID) within a short
    window coalesce to one downstream emission". *)
Definition duplicate (cfg : Config) (now : Z) (ev : Event) (st : State) : bool :=
  match seen st !! (Reason ev, UID ev) with
  | Some t => now <? t + dedupeWindow cfg
  | None => false
  end.

(** Modelled from the spec: [Publish] at the time [now]: a duplicate is
    coalesced; otherwise the event is remembered, and goes downstream unless
    the bucket of its reason has no token, in which case it is dropped and
    counted. *)
Definition Publish (cfg : Config) (now : Z) (ev : Event) (st : State) : State :=
  if duplicate cfg now ev st then st
  else
    let seen' := <[(Reason ev, UID ev) := now]> (seen st) in
    match eventRateLimits cfg (Reason ev) with
    | None =>
        {| seen := seen'; buckets := buckets st; dropped := dropped st;
           downstream := InternalRecorder_Event (Reason ev) (downstream st) |}
    | Some rl =>
        let (ok, b) := tryAccept rl now (buckets st !! Reason ev) in
        if ok then
          {| seen := seen'; buckets := <[Reason ev := b]> (buckets st);
             dropped := dropped st;
             downstream := InternalRecorder_Event (Reason ev) (downstream st) |}
        else
          {| seen := seen'; buckets := <[Reason ev := b]> (buckets st);
             dropped := S (dropped st); downstream := downstream st |}
    end.

(** Publishing a list of events, each at its time. *)
Definition publishAll (cfg : Config) (evs : list (Z * Event)) (st : State)
  : State :=
  foldl (λ st te, Publish cfg te.1 te.2 st) st evs.

(** The options of the test suite: [NominatePod] has the bucket
    [NewTokenBucketRateLimiter(5, 10)], the other reasons have none.
    Modelled from the spec: the window, "short", is taken to be two
    minutes. *)
Definition testConfig : Config :=
  {| dedupeWindow := 120000;
     eventRateLimits := λ reason,
       if bool_decide (reason = "NominatePod")
       then Some {| tokensPerSec := 5; burst := 10 |}
       else None |}.

(** Events of one reason at the given times, about entities that are all
    different: the entities number [i], [i + 1], ... *)
Fixpoint distinctFrom (i : nat) (reason : string) (times : list Z)
  : list (Z * Event) :=
  match times with
  | [] => []
  | t :: ts =>
      (t, {| Reason := reason; UID := pretty i |})
        :: distinctFrom (S i) reason ts
  end.

Definition distinctEvents (reason : string) (times : list Z)
  : list (Z * Event) :=
  distinctFrom 0 reason times.

(** The four tests of "Dedupe" and "Rate Limiting", all publishes of a tight
    loop taken to be at the same millisecond. *)
Example dedupe_same_entity :
  Calls "EvictPod"
    (downstream
       (publishAll testConfig
          (replicate 100 (0, {| Reason := "EvictPod"; UID := "pod" |}))
          initial)) = 1%nat.
Proof. vm_compute. reflexivity. Qed.

Example dedupe_different_entities :
  Calls "EvictPod"
    (downstream
       (publishAll testConfig (distinctEvents "EvictPod" (replicate 100 0))
          initial)) = 100%nat.
Proof. vm_compute. reflexivity. Qed.

Example rate_limit_max_burst :
  Calls "NominatePod"
    (downstream
       (publishAll testConfig (distinctEvents "NominatePod" (replicate 100 0))
          initial)) = 10%nat.
Proof. vm_compute. reflexivity. Qed.

Example rate_limit_smoothed :
  Calls "NominatePod"
    (downstream
       (publishAll testConfig
          (distinctEvents "NominatePod"
             (replicate 5 0 ++ replicate 5 1000 ++ replicate 5 2000))
          initial)) = 15%nat.
Proof. vm_compute. reflexivity. Qed.

(** ** Buckets *)

(** The number of publishes, at the given times, that find a token. *)
Fixpoint accepted (rl : RateLimit) (times : list Z) (b : option Bucket) : nat :=
  match times with
  | [] => 0
  | t :: ts =>
      let (ok, b') := tryAccept rl t b in
      ((if ok then 1 else 0) + accepted rl ts (Some b'))%nat
  end.

(** Times that do not go back, from [t] on. *)
Fixpoint ascending (t : Z) (times : list Z) : Prop :=
  match times with
  | [] => True
  | u :: us => t ≤ u ∧ ascending u us
  end.

Lemma accepted_upper rl tend : ∀ times bk,
  0 ≤ tokensPerSec rl →
  ascending (last bk) times →
  last bk ≤ tend →
  Forall (λ t, t ≤ tend) times →
  1000 * Z.of_nat (accepted rl times (Some bk))
    ≤ Z.max 0 (tokens bk) + tokensPerSec rl * (tend - last bk).
Proof.
  induction times as [|t ts IH]; intros bk Hr Hasc Hl Hend.
  - simpl. nia.
  - destruct Hasc as [Ht Hasc]. apply Forall_cons in Hend as [Hte Hend].
    cbn [accepted]. unfold tryAccept, refill, default. cbn [from_option id].
    set (t' := Z.min (1000 * burst rl)
                 (tokens bk + tokensPerSec rl * Z.max 0 (t - last bk))).
    assert (Ht' : t' ≤ tokens bk + tokensPerSec rl * (t - last bk)).
    { unfold t'. rewrite Z.max_r by lia. lia. }
    destruct (Z.leb_spec 1000 t') as [Hok|Hno].
    + specialize (IH {| tokens := t' - 1000; last := Z.max (last bk) t |} Hr).
      cbn [tokens last] in IH. rewrite Z.max_r in IH by lia.
      specialize (IH Hasc Hte Hend). cbv beta iota. rewrite Nat2Z.inj_add.
      change (Z.of_nat 1) with 1. rewrite (Z.max_r (last bk) t) by lia.
      clearbody t'. lia.
    + specialize (IH {| tokens := t'; last := Z.max (last bk) t |} Hr).
      cbn [tokens last] in IH. rewrite Z.max_r in IH by lia.
      specialize (IH Hasc Hte Hend). cbv beta iota. rewrite Nat2Z.inj_add.
      change (Z.of_nat 0) with 0. rewrite (Z.max_r (last bk) t) by lia.
      assert (0 ≤ tokensPerSec rl * (t - last bk)) by nia.
      clearbody t'. lia.
Qed.

Lemma accepted_lower rl : ∀ times bk j,
  0 ≤ tokensPerSec rl →
  1000 * Z.of_nat j ≤ tokens bk ≤ 1000 * burst rl →
  (Nat.min (length times) j ≤ accepted rl times (Some bk))%nat.
Proof.
  induction times as [|t ts IH]; intros bk j Hr Htok.
  - simpl. lia.
  - cbn [accepted length]. unfold tryAccept, refill, default. cbn [from_option id].
    set (t' := Z.min (1000 * burst rl)
                 (tokens bk + tokensPerSec rl * Z.max 0 (t - last bk))).
    assert (Ht' : tokens bk ≤ t' ≤ 1000 * burst rl) by (unfold t'; nia).
    destruct j as [|j]; [lia|].
    destruct (Z.leb_spec 1000 t') as [Hok|Hno]; [|lia].
    specialize (IH {| tokens := t' - 1000; last := Z.max (last bk) t |} j Hr).
    cbn [tokens] in IH. cbv beta iota. lia.
Qed.

Lemma accepted_None rl t ts :
  accepted rl (t :: ts) None
  = accepted rl (t :: ts) (Some {| tokens := 1000 * burst rl; last := t |}).
Proof. reflexivity. Qed.

(** A bucket whose clock is not ahead of [t0]. *)
Definition notAhead (t0 : Z) (b : option Bucket) : Prop :=
  match b with
  | Some bk => last bk ≤ t0
  | None => True
  end.

Lemma accepted_window rl times b t0 tend :
  0 ≤ tokensPerSec rl → 0 ≤ burst rl → t0 ≤ tend →
  notAhead t0 b →
  ascending t0 times →
  Forall (λ t, t ≤ tend) times →
  1000 * Z.of_nat (accepted rl times b)
    ≤ 1000 * burst rl + tokensPerSec rl * (tend - t0).
Proof.
  intros Hr Hb Ht0 Hahead Hasc Hend.
  destruct times as [|t ts]; [simpl; nia|].
  destruct Hasc as [Ht Hasc]. apply Forall_cons in Hend as [Hte Hend].
  assert (Hstep : ∀ bk, last bk ≤ t →
            1000 * Z.of_nat (accepted rl (t :: ts) (Some bk))
              ≤ 1000 * burst rl + tokensPerSec rl * (tend - t0)).
  { intros bk Hl. cbn [accepted]. unfold tryAccept, refill, default.
    cbn [from_option id].
    set (t' := Z.min (1000 * burst rl)
                 (tokens bk + tokensPerSec rl * Z.max 0 (t - last bk))).
    assert (Ht' : t' ≤ 1000 * burst rl) by (unfold t'; lia).
    rewrite (Z.max_r (last bk) t) by lia.
    assert (0 ≤ tokensPerSec rl * (t - t0)) by nia.
    destruct (Z.leb_spec 1000 t') as [Hok|Hno]; cbv beta iota;
      rewrite Nat2Z.inj_add.
    - pose proof (accepted_upper rl tend ts
                    {| tokens := t' - 1000; last := t |} Hr Hasc Hte Hend) as H1.
      cbn [tokens last] in H1. change (Z.of_nat 1) with 1. clearbody t'.
      lia.
    - pose proof (accepted_upper rl tend ts
                    {| tokens := t'; last := t |} Hr Hasc Hte Hend) as H1.
      cbn [tokens last] in H1. change (Z.of_nat 0) with 0. clearbody t'. lia. }
  destruct b as [bk|].
  - apply Hstep. simpl in Hahead. lia.
  - rewrite accepted_None. apply Hstep. simpl. lia.
Qed.

(** ** The recorder on events about new entities *)

Lemma Calls_Event reason calls :
  Calls reason (InternalRecorder_Event reason calls) = S (Calls reason calls).
Proof. unfold Calls, InternalRecorder_Event. by rewrite lookup_insert_eq. Qed.

(** Events of the reason [r], about entities that are all different and that
    the recorder has not seen. *)
Definition fresh (r : string) (evs : list (Z * Event)) (st : State) : Prop :=
  Forall (λ te, Reason te.2 = r) evs ∧
  NoDup (map (λ te, UID te.2) evs) ∧
  Forall (λ te, seen st !! (r, UID te.2) = None) evs.

Lemma fresh_cons r t ev evs st st' :
  fresh r ((t, ev) :: evs) st →
  seen st' = <[(r, UID ev) := t]> (seen st) →
  Reason ev = r ∧ seen st !! (r, UID ev) = None ∧ fresh r evs st'.
Proof.
  intros (Hr & Hnd & Hs) Hseen.
  apply Forall_cons in Hr as [Hr1 Hr]. apply Forall_cons in Hs as [Hs1 Hs].
  apply NoDup_cons in Hnd as [Hnin Hnd]. split_and!; try done.
  unfold fresh. split_and!; try done.
  apply Forall_forall. intros te Hte. rewrite Hseen.
  rewrite lookup_insert_ne.
  - by apply (proj1 (Forall_forall _ _) Hs).
  - intros [= E]. apply Hnin. simpl. rewrite E.
    by apply (list_elem_of_fmap_2 (λ te, UID te.2)) in Hte.
Qed.

Lemma publishAll_limited cfg r rl :
  eventRateLimits cfg r = Some rl →
  ∀ evs st, fresh r evs st →
    Calls r (downstream (publishAll cfg evs st))
    = (Calls r (downstream st)
       + accepted rl (map fst evs) (buckets st !! r))%nat.
Proof.
  intros Hrl. induction evs as [|[t ev] evs IH]; intros st Hfresh.
  - simpl. lia.
  - change (publishAll cfg ((t, ev) :: evs) st)
      with (publishAll cfg evs (Publish cfg t ev st)).
    cbn [map fst accepted].
    assert (Hpub : ∃ st', Publish cfg t ev st = st' ∧
              seen st' = <[(r, UID ev) := t]> (seen st) ∧
              buckets st' !! r = Some (tryAccept rl t (buckets st !! r)).2 ∧
              Calls r (downstream st')
              = ((if (tryAccept rl t (buckets st !! r)).1 then 1 else 0)
                 + Calls r (downstream st))%nat).
    { destruct Hfresh as (Hr & _ & Hs).
      apply Forall_cons in Hr as [Hr _]. apply Forall_cons in Hs as [Hs _].
      simpl in Hr, Hs. subst r. unfold Publish, duplicate. rewrite Hs, Hrl.
      destruct (tryAccept rl t (buckets st !! Reason ev)) as [[] b];
        eexists; (split; [reflexivity|]); cbn [seen buckets downstream];
        rewrite lookup_insert_eq; split_and!; try done.
      by rewrite Calls_Event. }
    destruct Hpub as (st' & -> & Hseen & Hb & Hc).
    destruct (fresh_cons _ _ _ _ _ _ Hfresh Hseen) as (_ & _ & Hfresh').
    rewrite (IH st' Hfresh'), Hb, Hc.
    destruct (tryAccept rl t (buckets st !! r)) as [ok b]. simpl. lia.
Qed.

Lemma publishAll_unlimited cfg r :
  eventRateLimits cfg r = None →
  ∀ evs st, fresh r evs st →
    Calls r (downstream (publishAll cfg evs st))
    = (Calls r (downstream st) + length evs)%nat.
Proof.
  intros Hrl. induction evs as [|[t ev] evs IH]; intros st Hfresh.
  - simpl. lia.
  - change (publishAll cfg ((t, ev) :: evs) st)
      with (publishAll cfg evs (Publish cfg t ev st)).
    assert (Hpub : ∃ st', Publish cfg t ev st = st' ∧
              seen st' = <[(r, UID ev) := t]> (seen st) ∧
              Calls r (downstream st') = S (Calls r (downstream st))).
    { destruct Hfresh as (Hr & _ & Hs).
      apply Forall_cons in Hr as [Hr _]. apply Forall_cons in Hs as [Hs _].
      simpl in Hr, Hs. subst r. unfold Publish, duplicate. rewrite Hs, Hrl.
      eexists. split; [reflexivity|]. cbn [seen downstream].
      by rewrite Calls_Event. }
    destruct Hpub as (st' & -> & Hseen & Hc).
    destruct (fresh_cons _ _ _ _ _ _ Hfresh Hseen) as (_ & _ & Hfresh').
    rewrite (IH st' Hfresh'), Hc. simpl. lia.
Qed.

(** ** The recorder on any events *)

Lemma ascending_weaken t u times : t ≤ u → ascending u times → ascending t times.
Proof. destruct times as [|v vs]; [done|]. intros Htu [Huv H]. split; [lia|done]. Qed.

Lemma ascending_sublist ts times :
  ts `sublist_of` times → ∀ t, ascending t times → ascending t ts.
Proof.
  induction 1 as [|u ts times _ IH|u ts times _ IH]; intros t Hasc; [done| |].
  - destruct Hasc as [Htu Hasc]. split; [done|]. by apply IH.
  - destruct Hasc as [Htu Hasc]. apply IH. by apply ascending_weaken with u.
Qed.

Lemma Forall_sublist (P : Z → Prop) ts times :
  ts `sublist_of` times → Forall P times → Forall P ts.
Proof.
  induction 1 as [|u ts times _ IH|u ts times _ IH]; intros F; [done| |].
  - apply Forall_cons in F as [Hu F]. constructor; auto.
  - apply Forall_cons in F as [_ F]. auto.
Qed.

(** Whatever is published, the events of the reason [r] that go downstream
    are those that find a token in the bucket of [r]; the bucket is asked at
    some of the times of the publishes: those of the events of the reason [r]
    that are not coalesced. *)
Lemma publishAll_bucket cfg r rl :
  eventRateLimits cfg r = Some rl →
  ∀ evs st, ∃ ts,
    ts `sublist_of` map fst evs ∧
    Calls r (downstream (publishAll cfg evs st))
    = (Calls r (downstream st) + accepted rl ts (buckets st !! r))%nat.
Proof.
  intros Hrl. induction evs as [|[t ev] evs IH]; intros st.
  - exists []. split; [done|]. simpl. lia.
  - change (publishAll cfg ((t, ev) :: evs) st)
      with (publishAll cfg evs (Publish cfg t ev st)).
    destruct (IH (Publish cfg t ev st)) as (ts & Hsub & Hcalls).
    rewrite Hcalls. clear Hcalls. cbn [map fst].
    unfold Publish. destruct (duplicate cfg t ev st).
    { exists ts. split; [by apply sublist_cons | done]. }
    destruct (decide (Reason ev = r)) as [<-|Hne].
    + rewrite Hrl. exists (t :: ts). split; [by apply sublist_skip|].
      cbn [accepted].
      destruct (tryAccept rl t (buckets st !! Reason ev)) as [[] b];
        cbn [buckets downstream]; rewrite lookup_insert_eq, ?Calls_Event; lia.
    + exists ts. split; [by apply sublist_cons|].
      assert (Hc : ∀ calls, Calls r (InternalRecorder_Event (Reason ev) calls)
                            = Calls r calls).
      { intros calls. unfold Calls, InternalRecorder_Event.
        by rewrite lookup_insert_ne. }
      destruct (eventRateLimits cfg (Reason ev)) as [rl'|].
      * destruct (tryAccept rl' t (buckets st !! Reason ev)) as [[] b];
          cbn [buckets downstream]; rewrite lookup_insert_ne, ?Hc by done;
          done.
      * cbn [buckets downstream]. by rewrite Hc.
Qed.

(** ** The recorder on one event published again and again *)

Lemma publishAll_duplicates cfg ev t0 times : ∀ st,
  seen st !! (Reason ev, UID ev) = Some t0 →
  Forall (λ t, t < t0 + dedupeWindow cfg) times →
  publishAll cfg (map (λ t, (t, ev)) times) st = st.
Proof.
  induction times as [|t ts IH]; intros st Hseen Hwin; [done|].
  apply Forall_cons in Hwin as [Ht Hwin].
  change (publishAll cfg (map (λ t, (t, ev)) (t :: ts)) st)
    with (publishAll cfg (map (λ t, (t, ev)) ts) (Publish cfg t ev st)).
  assert (Publish cfg t ev st = st) as ->; [|by apply IH].
  unfold Publish, duplicate. rewrite Hseen.
  by rewrite (proj2 (Z.ltb_lt _ _) Ht).
Qed.

Lemma distinctFrom_fresh reason times : ∀ i,
  map fst (distinctFrom i reason times) = times ∧
  map (λ te, UID te.2) (distinctFrom i reason times)
    = pretty <$> seq i (length times) ∧
  Forall (λ te, Reason te.2 = reason) (distinctFrom i reason times).
Proof.
  induction times as [|t ts IH]; intros i; [done|].
  destruct (IH (S i)) as (H1 & H2 & H3). simpl.
  rewrite H1, H2. split_and!; [done | done | by constructor].
Qed.

Lemma distinctEvents_fresh reason times :
  fresh reason (distinctEvents reason times) initial ∧
  map fst (distinctEvents reason times) = times.
Proof.
  destruct (distinctFrom_fresh reason times 0) as (H1 & H2 & H3).
  split; [|done]. split_and!; [done | |].
  - unfold distinctEvents. rewrite H2.
    apply (NoDup_fmap_2 _), NoDup_seq.
  - apply Forall_forall. intros te _. apply lookup_empty.
Qed.

Lemma Forall_fst (P : Z → Prop) (evs : list (Z * Event)) :
  Forall P (map fst evs) → Forall (λ te, P te.1) evs.
Proof.
  induction evs as [|te evs IH]; intros H; [done|].
  inversion H; subst. constructor; auto.
Qed.

(** ** The claim *)

(** C8, as the model has it.  For a reason with a bucket: the publishes
    made from the time [t0] to the time [t1], whatever their reasons and
    entities, send downstream at most [burst] events of that reason plus the
    tokens refilled in that time, [tokensPerSec * (t1 - t0) / 1000]; on a
    recorder that starts, [burst] publishes or more about new entities made
    in less time than one token takes to refill send exactly [burst] events:
    for [NominatePod], 5 tokens per second with burst 10, 100 publishes
    within 200 ms send exactly 10.  For any reason,
    publishing an event again within the window changes nothing; for a reason
    without a bucket the first publish of an entity goes downstream, and so
    do all the publishes about new entities that are all different. *)
Theorem recorder_limits_and_dedupes cfg r :
  (∀ rl evs st t0 t1,
     eventRateLimits cfg r = Some rl →
     0 ≤ tokensPerSec rl → 0 ≤ burst rl →
     notAhead t0 (buckets st !! r) →
     t0 ≤ t1 → ascending t0 (map fst evs) → Forall (λ te, te.1 ≤ t1) evs →
     1000 * (Z.of_nat (Calls r (downstream (publishAll cfg evs st)))
             - Z.of_nat (Calls r (downstream st)))
       ≤ 1000 * burst rl + tokensPerSec rl * (t1 - t0)) ∧
  (∀ rl evs t0 t1,
     eventRateLimits cfg r = Some rl →
     0 ≤ tokensPerSec rl → 0 ≤ burst rl →
     fresh r evs initial →
     t0 ≤ t1 → ascending t0 (map fst evs) → Forall (λ te, te.1 ≤ t1) evs →
     tokensPerSec rl * (t1 - t0) < 1000 →
     (Z.to_nat (burst rl) ≤ length evs)%nat →
     Calls r (downstream (publishAll cfg evs initial)) = Z.to_nat (burst rl)) ∧
  (∀ times t0,
     length times = 100%nat → ascending t0 times →
     Forall (λ t, t < t0 + 200) times →
     Calls "NominatePod"
       (downstream
          (publishAll testConfig (distinctEvents "NominatePod" times) initial))
     = 10%nat) ∧
  (∀ ev t rest st,
     Reason ev = r →
     seen st !! (r, UID ev) = None →
     Forall (λ u, u < t + dedupeWindow cfg) rest →
     publishAll cfg (map (λ u, (u, ev)) (t :: rest)) st = Publish cfg t ev st ∧
     (eventRateLimits cfg r = None →
      Calls r (downstream (Publish cfg t ev st)) = S (Calls r (downstream st)))) ∧
  (∀ evs st,
     eventRateLimits cfg r = None →
     fresh r evs st →
     Calls r (downstream (publishAll cfg evs st))
     = (Calls r (downstream st) + length evs)%nat).
Proof.
  assert (Hbound : ∀ cfg r rl evs st t0 t1,
     eventRateLimits cfg r = Some rl →
     0 ≤ tokensPerSec rl → 0 ≤ burst rl →
     notAhead t0 (buckets st !! r) →
     t0 ≤ t1 → ascending t0 (map fst evs) → Forall (λ te, te.1 ≤ t1) evs →
     1000 * (Z.of_nat (Calls r (downstream (publishAll cfg evs st)))
             - Z.of_nat (Calls r (downstream st)))
       ≤ 1000 * burst rl + tokensPerSec rl * (t1 - t0)).
  { clear. intros cfg r rl evs st t0 t1 Hrl Hr Hb Hahead Ht Hasc Hend.
    destruct (publishAll_bucket cfg r rl Hrl evs st) as (ts & Hsub & ->).
    assert (Hend' : Forall (λ t, t ≤ t1) (map fst evs)).
    { by rewrite Forall_fmap. }
    pose proof (accepted_window rl ts (buckets st !! r) t0 t1
                  Hr Hb Ht Hahead (ascending_sublist _ _ Hsub _ Hasc)
                  (Forall_sublist _ _ _ Hsub Hend')) as H.
    lia. }
  assert (Hexact : ∀ cfg r rl evs t0 t1,
     eventRateLimits cfg r = Some rl →
     0 ≤ tokensPerSec rl → 0 ≤ burst rl →
     fresh r evs initial →
     t0 ≤ t1 → ascending t0 (map fst evs) → Forall (λ te, te.1 ≤ t1) evs →
     tokensPerSec rl * (t1 - t0) < 1000 →
     (Z.to_nat (burst rl) ≤ length evs)%nat →
     Calls r (downstream (publishAll cfg evs initial)) = Z.to_nat (burst rl)).
  { clear -Hbound.
    intros cfg r rl evs t0 t1 Hrl Hr Hb Hfresh Ht Hasc Hend Hspan Hlen.
    pose proof (Hbound cfg r rl evs initial t0 t1 Hrl Hr Hb I Ht Hasc Hend)
      as Hup.
    rewrite (publishAll_limited cfg r rl Hrl evs initial Hfresh) in *.
    change (Calls r (downstream initial)) with 0%nat in *.
    change (buckets initial !! r) with (@None Bucket) in *.
    assert (Hlow : (Z.to_nat (burst rl)
                    ≤ accepted rl (map fst evs) None)%nat).
    { destruct evs as [|[t ev] evs]; [simpl in *; lia|].
      cbn [map fst]. rewrite accepted_None.
      pose proof (accepted_lower rl (t :: map fst evs)
                    {| tokens := 1000 * burst rl; last := t |}
                    (Z.to_nat (burst rl)) Hr) as H.
      cbn [tokens length] in H. rewrite length_map in H.
      cbn [length] in Hlen. lia. }
    lia. }
  split_and!.
  - apply Hbound.
  - apply Hexact.
  - intros times t0 Hlen Hasc Hwin.
    destruct (distinctEvents_fresh "NominatePod" times) as [Hfresh Hfst].
    apply (Hexact testConfig "NominatePod" {| tokensPerSec := 5; burst := 10 |}
             _ t0 (t0 + 199)); try done.
    + lia.
    + by rewrite Hfst.
    + assert (H : Forall (λ t, t ≤ t0 + 199)
                    (map fst (distinctEvents "NominatePod" times))).
      { rewrite Hfst. eapply Forall_impl; [apply Hwin|]. simpl. lia. }
      by apply Forall_fst in H.
    + simpl. lia.
    + rewrite <- (length_map fst), Hfst, Hlen. simpl. lia.
  - intros ev t rest st Hr Hseen Hwin. split.
    + change (publishAll cfg (map (λ u, (u, ev)) (t :: rest)) st)
        with (publishAll cfg (map (λ u, (u, ev)) rest) (Publish cfg t ev st)).
      apply (publishAll_duplicates cfg ev t); [|done].
      subst r. unfold Publish, duplicate. rewrite Hseen.
      destruct (eventRateLimits cfg (Reason ev)) as [rl|].
      * destruct (tryAccept rl t (buckets st !! Reason ev)) as [[] b];
          cbn [seen]; apply lookup_insert_eq.
      * cbn [seen]. apply lookup_insert_eq.
    + intros Hrl. subst r. unfold Publish, duplicate. rewrite Hseen, Hrl.
      cbn [downstream]. apply Calls_Event.
  - intros evs st Hrl Hfresh. by apply publishAll_unlimited.
Qed.

Lemma recorder_limits_and_dedupes_witness :
  length (replicate 100 0) = 100%nat ∧
  ascending 0 (replicate 100 0) ∧
  Forall (λ t, t < 0 + 200) (replicate 100 0) ∧
  Calls "NominatePod"
    (downstream
       (publishAll testConfig
          (distinctEvents "NominatePod" (replicate 100 0)) initial))
  = 10%nat.
Proof.
  assert (Hasc : ascending 0 (replicate 100 0)).
  { vm_compute. repeat split; discriminate. }
  assert (Hwin : Forall (λ t, t < 0 + 200) (replicate 100 0)).
  { apply Forall_replicate. lia. }
  split_and!; [reflexivity | exact Hasc | exact Hwin |].
  destruct (recorder_limits_and_dedupes testConfig "NominatePod")
    as (_ & _ & H & _).
  apply (H (replicate 100 0) 0); [reflexivity | exact Hasc | exact Hwin].
Defined.

(** C8, as the spec states it: 100 publishes of [NominatePod] within one
    second send exactly 10 events downstream. *)
Definition burst_within_one_second : Prop :=
  ∀ times t0,
    length times = 100%nat → ascending t0 times →
    Forall (λ t, t < t0 + 1000) times →
    Calls "NominatePod"
      (downstream
         (publishAll testConfig (distinctEvents "NominatePod" times) initial))
    = 10%nat.

(** 99 publishes at once and one more 999 ms later: the bucket has refilled
    4 tokens by then, and 11 events go downstream. *)
Lemma burst_within_one_second_fails : ¬ burst_within_one_second.
Proof.
  intros H. specialize (H (replicate 99 0 ++ [999]) 0).
  assert (Hcalls :
    Calls "NominatePod"
      (downstream
         (publishAll testConfig
            (distinctEvents "NominatePod" (replicate 99 0 ++ [999])) initial))
    = 11%nat).
  { vm_compute. reflexivity. }
  rewrite Hcalls in H. discriminate H.
  - reflexivity.
  - vm_compute. repeat split; discriminate.
  - apply Forall_app_2; [apply Forall_replicate; lia | repeat constructor; lia].
Qed.

End Recorder.

(** * Further properties of the code

    What the executor, the control loop, single node consolidation, the
    liveness reconciler and the downstream recorder of the test suite do
    besides: their errors, their edge cases, the order and the number of
    their calls. *)

(** ** [setNodesUnschedulable] *)

(** X1.  [setNodesUnschedulable] asks the API server for every name once, in
    the order given, and does nothing but [Get] and [Patch].  Every [Patch]
    comes right after a [Get], carries the node this [Get] answered with
    [unschedulable] set as wanted, and is sent only when the field was
    different; an un-cordon never patches a node that is being deleted. *)
Theorem cordon_asks_each_name_once env v names w :
  gets (trace (setNodesUnschedulable env v names) w) = names ∧
  Forall (λ c, match c with CGet _ _ | CPatch _ _ => True | _ => False end)
    (trace (setNodesUnschedulable env v names) w) ∧
  ∀ i n res,
    trace (setNodesUnschedulable env v names) w !! i = Some (CPatch n res) →
    ∃ j x node err,
      i = S j ∧
      trace (setNodesUnschedulable env v names) w !! j
        = Some (CGet x (node, err)) ∧
      n = setUnschedulable v node ∧ Unschedulable node ≠ v ∧
      (v = false → IsZero (DeletionTimestamp node) = true).
Proof.
  destruct (spec_elim _ _ _ (setNodesUnschedulable_steps env v names w))
    as [Hs _].
  split_and!.
  - by eapply cordonSteps_gets.
  - eapply Forall_impl; [by eapply cordonSteps_calls|]. by intros [].
  - by eapply cordonSteps_patch_after_get.
Qed.

(** X2.  The error of [setNodesUnschedulable] joins, in order, one error for
    each [Get] that failed ("getting node") and one for each [Patch] that
    failed ("patching node"): none is lost.  It is nil exactly when no call
    failed. *)
Theorem cordon_joins_every_error env v names w :
  errorList (setNodesUnschedulable env v names w).1
    = cordonErrors (trace (setNodesUnschedulable env v names) w) ∧
  ((setNodesUnschedulable env v names w).1 = None ↔
   Forall (λ c, failedCall c = false)
     (trace (setNodesUnschedulable env v names) w)).
Proof.
  destruct (spec_elim _ _ _ (setNodesUnschedulable_steps env v names w))
    as [Hs He].
  split; [done|]. rewrite <- cordonErrors_nil.
  - rewrite <- He. destruct (setNodesUnschedulable env v names w).1 as [[]|];
      simpl; split; done.
  - destruct v; [left|right]; by eapply cordonSteps_calls.
Qed.

Section CordonEdges.

Context (env : Env).

Lemma setNodeUnschedulable_failed_get v acc x e w :
  apiFault env (history w) (ReqGet x) = Some e →
  spec (setNodeUnschedulable env v acc x) w (λ r tr _,
    r ≠ None ∧
    if v
    then ∃ res, tr = [CGet x (zeroNode, Some e);
                      CPatch (setUnschedulable true zeroNode) res]
    else tr = [CGet x (zeroNode, Some e)]).
Proof.
  intros Hf. unfold setNodeUnschedulable. spec_step. unfold kubeGet.
  apply spec_call. rewrite Hf. simpl. destruct v; simpl.
  - spec_step. apply (kubePatch_spec env (λ _, False)). intros err0 w2 _ _.
    destruct err0 as [e0|]; spec_step.
    + split; [apply multierr_Append_Some | eauto].
    + split; [apply multierr_Append_Some | eauto].
  - spec_step. split; [apply multierr_Append_Some | done].
Qed.

Lemma forRange_cordon_quiet (Q : string → Prop) v names : ∀ acc w,
  quietOn env Q →
  (∀ x, x ∈ names → Q x ∧ ∀ h, apiFault env h (ReqGet x) = None) →
  (∀ x, x ∈ names →
     ∃ n, apiNodes (sys w) !! x = Some n ∧ Unschedulable n = v) →
  spec (forRange (setNodeUnschedulable env v) acc names) w (λ r tr w',
    r = acc ∧ patches tr = [] ∧ sameOn Q w w').
Proof.
  induction names as [|x rest IH]; intros acc w Hq Hs Hn; simpl.
  - spec_step. split_and!; [done | done | apply sameOn_refl].
  - spec_step.
    assert (H1 : spec (setNodeUnschedulable env v acc x) w (λ r tr w',
              r = acc ∧ patches tr = [] ∧ sameOn Q w w')).
    { unfold setNodeUnschedulable. spec_step. apply (kubeGet_spec env Q).
      intros node err w1 Hsame Hget Hserved.
      destruct (Hs x) as [HQ Hfault]; [by left|].
      destruct (Hn x) as (n & Hx & Hu); [by left|].
      destruct (Hsame Hq x HQ) as [E _]. rewrite Hx in E.
      assert (err = None) as ->.
      { apply Hserved; [apply Hfault | by rewrite E]. }
      destruct Hget as (n0 & Hn0 & ->).
      assert (n0 = n) as -> by congruence.
      destruct (negb v && negb (IsZero (DeletionTimestamp (setName x n)))).
      { spec_step. split_and!; [done | done | by apply Hsame]. }
      simpl. rewrite bool_decide_eq_true_2 by done.
      spec_step. split_and!; [done | done | by apply Hsame]. }
    eapply spec_mono; [apply H1|]. intros r1 tr1 w1 (-> & P1 & S1).
    eapply spec_mono.
    { apply IH; [done | |].
      - intros y Hy. apply Hs. by right.
      - intros y Hy. destruct (Hs y) as [HQ _]; [by right|].
        destruct (S1 y HQ) as [E _]. rewrite E. apply Hn. by right. }
    intros r tr2 w2 (-> & P2 & S2). split_and!; [done | |].
    + unfold patches in *. by rewrite omap_app, P1, P2.
    + by eapply sameOn_trans.
Qed.

End CordonEdges.

(** X3.  A [Get] that fails does not end the turn of its name in the loop:
    the node is still the zero value, so a cordon goes on to patch a node with
    an empty name, while an un-cordon finds the zero node schedulable and
    sends no [Patch].  Either way the error returned is not nil. *)
Theorem cordon_patches_after_failed_get env x rest e w :
  apiFault env (history w) (ReqGet x) = Some e →
  (∃ res tail,
     trace (setNodesUnschedulable env true (x :: rest)) w
     = CGet x (zeroNode, Some e)
         :: CPatch (setUnschedulable true zeroNode) res :: tail) ∧
  (∃ tail,
     trace (setNodesUnschedulable env false (x :: rest)) w
     = CGet x (zeroNode, Some e) :: tail ∧
     ∀ n res, head tail ≠ Some (CPatch n res)) ∧
  ∀ v, (setNodesUnschedulable env v (x :: rest) w).1 ≠ None.
Proof.
  intros Hf.
  assert (H : ∀ v, spec (setNodesUnschedulable env v (x :: rest)) w (λ r tr _,
            r ≠ None ∧
            ∃ tail,
              cordonSteps v rest tail ∧
              if v
              then ∃ res, tr = CGet x (zeroNode, Some e)
                                 :: CPatch (setUnschedulable true zeroNode) res
                                 :: tail
              else tr = CGet x (zeroNode, Some e) :: tail)).
  { intros v. unfold setNodesUnschedulable. simpl. spec_step.
    eapply spec_mono; [by apply setNodeUnschedulable_failed_get|].
    intros acc1 tr1 w1 [Hacc Htr].
    pose proof (forRange_cordon_steps env v rest acc1 w1) as Hsteps.
    pose proof (forRange_cordon_spec env (λ _, False) v rest acc1 w1) as Hpost.
    destruct Hsteps as (r & tr2 & w2 & Hruns & Hs & _).
    destruct Hpost as (r' & tr2' & w2' & Hruns' & _ & Hnone & _).
    destruct (runs_trace _ _ _ _ _ Hruns) as (T1 & R1 & _).
    destruct (runs_trace _ _ _ _ _ Hruns') as (T2 & R2 & _).
    exists r, tr2, w2. split; [done|]. split.
    - intros ->. apply Hacc, Hnone. congruence.
    - exists tr2. split; [done|]. destruct v.
      + destruct Htr as [res ->]. by exists res.
      + by rewrite Htr. }
  split_and!.
  - destruct (spec_elim _ _ _ (H true)) as (_ & tail & _ & res & ->). eauto.
  - destruct (spec_elim _ _ _ (H false)) as (_ & tail & Hs & ->).
    exists tail. split; [done|]. intros n res Hh.
    inversion Hs; subst; discriminate Hh.
  - intros v. by destruct (spec_elim _ _ _ (H v)) as (Hne & _).
Qed.

(** X4.  When the others leave the nodes alone, every [Get] is answered and
    every node is as wanted already, [setNodesUnschedulable] sends no [Patch],
    returns nil and leaves the nodes as they are. *)
Theorem cordon_of_cordoned_nodes_patches_nothing env v names w :
  quietOn env (λ x, x ∈ names) →
  (∀ x h, x ∈ names → apiFault env h (ReqGet x) = None) →
  (∀ x, x ∈ names →
     ∃ n, apiNodes (sys w) !! x = Some n ∧ Unschedulable n = v) →
  (setNodesUnschedulable env v names w).1 = None ∧
  patches (trace (setNodesUnschedulable env v names) w) = [] ∧
  ∀ x, x ∈ names →
    apiNodes (sys (setNodesUnschedulable env v names w).2) !! x
    = apiNodes (sys w) !! x.
Proof.
  intros Hq Hs Hn.
  assert (H : spec (setNodesUnschedulable env v names) w (λ r tr w',
            r = None ∧ patches tr = [] ∧ sameOn (λ x, x ∈ names) w w')).
  { apply forRange_cordon_quiet; [done | | done]. intros x Hx. split; [done|].
    intros h. by apply Hs. }
  destruct (spec_elim _ _ _ H) as (Hr & Hp & Hsame). split_and!; [done..|].
  intros x Hx. by destruct (Hsame x Hx).
Qed.

(** ** The waits: [waitForDeletion] and the wait for readiness *)

(** The calls of the attempts of [waitForDeletion] that found the node still
    there, or could not tell: the [Get] with its answer, and the
    [WaitingOnDeletion] event. *)
Definition deletionWaits (node : Node) (answers : list (Node * option error))
  : list Call :=
  concat (map (λ a, [CGet (Name node) a; CPublish (WaitingOnDeletion node)])
            answers).

(** The nodes of the [LaunchingNode] events of [tr]. *)
Definition launchingEvents (tr : list Call) : list Node :=
  omap (λ c, match c with
             | CPublish (LaunchingNode n _) => Some n
             | _ => None
             end) tr.

(** The call is a [Get] that answered a node. *)
Definition answered (c : Call) : bool :=
  match c with CGet _ (_, None) => true | _ => false end.

Section Waits.

Context (env : Env).

Lemma deletionAttempt_calls node u w :
  spec (deletionAttempt env node u) w (λ r tr _,
    ∃ a,
      (IsNotFound a.2 = true ∧ tr = [CGet (Name node) a] ∧ r.1 = None) ∨
      (IsNotFound a.2 = false ∧
       tr = [CGet (Name node) a; CPublish (WaitingOnDeletion node)] ∧
       r.1 ≠ None)).
Proof.
  unfold deletionAttempt. spec_step. apply (kubeGet_spec env (λ _, False)).
  intros n nerr w1 _ _ _. destruct (IsNotFound nerr) eqn:Hnf.
  - spec_step. exists (n, nerr). by left.
  - spec_step. spec_step. destruct nerr; spec_step;
      exists (n, Some e) || exists (n, @None error); by right.
Qed.

Lemma retry_deletion node n : ∀ w,
  spec (retry_Do (S n) (deletionAttempt env node) tt) w (λ _ tr _,
    ∃ answers last,
      tr = deletionWaits node answers ++ last ∧
      Forall (λ a, IsNotFound a.2 = false) answers ∧
      ((last = [] ∧ length answers = S n) ∨
       (∃ a, last = [CGet (Name node) a] ∧ IsNotFound a.2 = true ∧
             (length answers < S n)%nat))).
Proof.
  induction n as [|n IH]; intros w.
  - simpl. spec_step. eapply spec_mono; [apply deletionAttempt_calls|].
    intros [err []] tr1 w1 (a & [(Ha & -> & Hr)|(Ha & -> & Hr)]);
      simpl in Hr.
    + subst err. spec_step. exists [], [CGet (Name node) a]. split_and!;
        [done | constructor |]. right. exists a. split_and!; [done..|simpl; lia].
    + destruct err as [e|]; [|done]. spec_step. exists [a], [].
      split_and!; [done | by repeat constructor | by left].
  - change (retry_Do (S (S n)) (deletionAttempt env node) tt)
      with (let* '(err, l') := deletionAttempt env node tt in
            match err with
            | None => ret None
            | Some e => retry_Do (S n) (deletionAttempt env node) l'
            end).
    spec_step. eapply spec_mono; [apply deletionAttempt_calls|].
    intros [err []] tr1 w1 (a & [(Ha & -> & Hr)|(Ha & -> & Hr)]);
      simpl in Hr.
    + subst err. spec_step. exists [], [CGet (Name node) a]. split_and!;
        [done | constructor |]. right. exists a. split_and!; [done..|simpl; lia].
    + destruct err as [e|]; [|done]. eapply spec_mono; [apply IH|].
      intros r tr2 w2 (answers & last & -> & F & Hlast).
      exists (a :: answers), last. split_and!; [done | by constructor |].
      destruct Hlast as [[-> Hlen]|(a' & -> & Ha' & Hlen)].
      * left. split; [done|]. simpl. lia.
      * right. exists a'. split_and!; [done..|simpl; lia].
Qed.

Lemma readinessAttempt_calls c name once w :
  spec (readinessAttempt env c name once) w (λ r tr _,
    gets tr = [name] ∧
    (if existsb answered tr
     then r.2 = true ∧
          length (launchingEvents tr) = (if once then 0 else 1)%nat
     else r.2 = once ∧ launchingEvents tr = [])).
Proof.
  unfold readinessAttempt. spec_step. apply (kubeGet_spec env (λ _, False)).
  intros node err w1 _ _ _. destruct err as [e|].
  { spec_step. by simpl. }
  spec_step. destruct once; spec_step;
    (destruct (initialized node); simpl; [spec_step | do 3 spec_step]; by simpl).
Qed.

Lemma launchingEvents_app tr1 tr2 :
  launchingEvents (tr1 ++ tr2) = launchingEvents tr1 ++ launchingEvents tr2.
Proof. apply omap_app. Qed.

Lemma gets_app tr1 tr2 : gets (tr1 ++ tr2) = gets tr1 ++ gets tr2.
Proof. apply omap_app. Qed.

Lemma retry_readiness c name n : ∀ once w,
  spec (retry_Do (S n) (readinessAttempt env c name) once) w (λ _ tr _,
    Forall (λ x, x = name) (gets tr) ∧
    (1 ≤ length (gets tr) ≤ S n)%nat ∧
    length (launchingEvents tr)
    = (if once then 0 else if existsb answered tr then 1 else 0)%nat).
Proof.
  assert (Hone : ∀ (once r : bool) tr,
            gets tr = [name] ∧
            (if existsb answered tr
             then r = true ∧
                  length (launchingEvents tr) = (if once then 0 else 1)%nat
             else r = once ∧ launchingEvents tr = []) →
            Forall (λ x, x = name) (gets (tr ++ [])) ∧
            (1 ≤ length (gets (tr ++ [])) ≤ 1)%nat ∧
            length (launchingEvents (tr ++ []))
            = (if once then 0
               else if existsb answered (tr ++ []) then 1 else 0)%nat).
  { intros once r tr [Hg He]. rewrite app_nil_r, Hg.
    split_and!; [by repeat constructor | simpl; lia | simpl; lia |].
    destruct (existsb answered tr), once; destruct He as [_ He];
      by rewrite He. }
  induction n as [|n IH]; intros once w.
  - simpl. spec_step. eapply spec_mono; [apply readinessAttempt_calls|].
    intros [err once'] tr1 w1 H. simpl in H.
    destruct err as [e|]; spec_step; by eapply Hone.
  - change (retry_Do (S (S n)) (readinessAttempt env c name) once)
      with (let* '(err, l') := readinessAttempt env c name once in
            match err with
            | None => ret None
            | Some e => retry_Do (S n) (readinessAttempt env c name) l'
            end).
    spec_step. eapply spec_mono; [apply readinessAttempt_calls|].
    intros [err once'] tr1 w1 H. simpl in H. destruct err as [e|].
    + eapply spec_mono; [apply IH|]. intros r tr2 w2 (F2 & L2 & E2).
      destruct H as [Hg He].
      rewrite gets_app, launchingEvents_app, existsb_app, Hg, !length_app, E2.
      split_and!; [by constructor | simpl; lia | simpl; lia |].
      destruct (existsb answered tr1).
      * destruct He as [-> ->]. simpl. destruct once; lia.
      * destruct He as [-> ->]. simpl. done.
    + spec_step. destruct (Hone once once' tr1 H) as (H1 & H2 & H3).
      split_and!; [done | lia | lia | done].
Qed.

End Waits.

(** X5.  [waitForDeletion] asks for the node at most 60 times.  Each attempt
    that does not find the node gone (the node is there, or the [Get] failed
    otherwise) publishes [WaitingOnDeletion]; the first attempt answered with
    a not-found error ends the wait, with no event; after 60 attempts without
    such an answer the wait gives up. *)
Theorem waitForDeletion_gives_up_after_60_gets env node w :
  ∃ answers last,
    trace (waitForDeletion env node) w = deletionWaits node answers ++ last ∧
    Forall (λ a, IsNotFound a.2 = false) answers ∧
    ((last = [] ∧ length answers = 60%nat) ∨
     (∃ a, last = [CGet (Name node) a] ∧ IsNotFound a.2 = true ∧
           (length answers < 60)%nat)).
Proof.
  assert (H : spec (waitForDeletion env node) w (λ _ tr _,
            ∃ answers last,
              tr = deletionWaits node answers ++ last ∧
              Forall (λ a, IsNotFound a.2 = false) answers ∧
              ((last = [] ∧ length answers = 60%nat) ∨
               (∃ a, last = [CGet (Name node) a] ∧ IsNotFound a.2 = true ∧
                     (length answers < 60)%nat)))).
  { unfold waitForDeletion. spec_step.
    eapply spec_mono; [apply (retry_deletion env node 59)|].
    intros r tr w1 Hr. spec_step. by rewrite app_nil_r. }
  apply (spec_elim _ _ _ H).
Qed.

(** X6.  The wait for the readiness of one replacement asks for that node
    only, at least once and at most 60 times, and publishes [LaunchingNode]
    once if a [Get] answered the node, never otherwise. *)
Theorem readiness_wait_publishes_launching_once env c names errs i w :
  Forall (λ x, x = default "" (names !! i))
    (gets (trace (waitForReadiness env c names errs i) w)) ∧
  (1 ≤ length (gets (trace (waitForReadiness env c names errs i) w)) ≤ 60)%nat ∧
  length (launchingEvents (trace (waitForReadiness env c names errs i) w))
  = (if existsb answered (trace (waitForReadiness env c names errs i) w)
     then 1 else 0)%nat.
Proof.
  assert (H : spec (waitForReadiness env c names errs i) w (λ _ tr _,
            Forall (λ x, x = default "" (names !! i)) (gets tr) ∧
            (1 ≤ length (gets tr) ≤ 60)%nat ∧
            length (launchingEvents tr)
            = (if existsb answered tr then 1 else 0)%nat)).
  { unfold waitForReadiness. spec_step.
    eapply spec_mono;
      [apply (retry_readiness env c (default "" (names !! i)) 59 false)|].
    intros r tr w1 Hr. destruct r; spec_step; by rewrite app_nil_r. }
  apply (spec_elim _ _ _ H).
Qed.

(** ** [executeCommand] and [launchReplacementNodes] *)

(** The labels of the increments of the nodes-terminated counter, and the
    nodes whose [Delete] succeeded, in order. *)
Definition terminatedCounts (tr : list Call) : list (Deprovisioner * action) :=
  omap (λ c, match c with
             | CMetric (NodesTerminated d a) => Some (d, a)
             | _ => None
             end) tr.

Definition deleted (tr : list Call) : list Node :=
  omap (λ c, match c with CDelete n None => Some n | _ => None end) tr.

Lemma omap_none {A B} (f : A → option B) (l : list A) :
  Forall (λ x, f x = None) l → omap f l = [].
Proof. induction 1 as [|x l Hx _ IH]; [done|]. simpl. by rewrite Hx. Qed.

Lemma cordonCalls_uncounted v tr :
  Forall (cordonCall v) tr → terminatedCounts tr = [] ∧ deleted tr = [].
Proof.
  intros F. split; apply omap_none; (eapply Forall_impl; [apply F|]);
    by intros [].
Qed.

Lemma readinessCalls_uncounted tr :
  Forall readinessCall tr → terminatedCounts tr = [] ∧ deleted tr = [].
Proof.
  intros F. split; apply omap_none; (eapply Forall_impl; [apply F|]);
    by intros [| | | | | | | |[]| | | | | |].
Qed.

Lemma deletionWaitCalls_uncounted tr :
  Forall deletionWaitCall tr → terminatedCounts tr = [] ∧ deleted tr = [].
Proof.
  intros F. split; apply omap_none; (eapply Forall_impl; [apply F|]);
    by intros [| | | | | | | |[]| | | | | |].
Qed.

Lemma launchOutcome_uncounted env c w r tr w' :
  launchOutcome env c w r tr w' → terminatedCounts tr = [] ∧ deleted tr = [].
Proof.
  unfold terminatedCounts, deleted.
  destruct 1;
    repeat match goal with
           | F : Forall (cordonCall _) _ |- _ =>
               apply cordonCalls_uncounted in F as [? ?]
           | F : Forall readinessCall _ |- _ =>
               apply readinessCalls_uncounted in F as [? ?]
           end;
    unfold terminatedCounts, deleted in *;
    rewrite ?omap_app; simpl; rewrite ?omap_app; simpl;
    by repeat match goal with E : omap _ _ = [] |- _ => rewrite E; clear E end.
Qed.

Lemma deletePhase_counted c d nodes tr :
  deletePhase c d nodes tr →
  terminatedCounts tr = map (λ _, (d, cmdAction c)) (deleted tr).
Proof.
  unfold terminatedCounts, deleted. induction 1; simpl; [done | done |].
  by f_equal.
Qed.

(** X7.  The errors of the [Delete] calls are not returned: a command that
    is not a replace always executes to nil, and so does every execution that
    has sent a [Delete].  An error of [executeCommand] is the error of
    [launchReplacementNodes] on a replace command, wrapped as "launching
    replacement node". *)
Theorem delete_errors_are_not_returned env d c w :
  (cmdAction c ≠ actionReplace → (executeCommand env d c w).1 = None) ∧
  (∀ n res, CDelete n res ∈ trace (executeCommand env d c) w →
            (executeCommand env d c w).1 = None) ∧
  (∀ e, (executeCommand env d c w).1 = Some e →
        cmdAction c = actionReplace ∧
        ∃ e', e = Errorf "launching replacement node, %w" [ArgError e'] ∧
              (launchReplacementNodes env c
                 (count env (ActionsPerformed d (cmdAction c)) w).2).1
              = Some e').
Proof.
  split_and!.
  - intros Hne.
    pose proof (spec_elim _ _ _ (executeCommand_spec env c d w)) as H.
    by inversion H.
  - intros n res Hin.
    pose proof (spec_elim _ _ _ (executeCommand_spec env c d w)) as H.
    inversion H as [w1 e trl w' Hrep Hm Hl Hr Htr|]; [|done].
    rewrite <- Htr in Hin. apply elem_of_cons in Hin as [Hin|Hin]; [done|].
    apply (proj1 (Forall_forall _ _) (launchOutcome_kind _ _ _ _ _ _ Hl)) in Hin.
    by destruct Hin.
  - unfold executeCommand, bind.
    destruct (count env (ActionsPerformed d (cmdAction c)) w) as [[] w1].
    simpl. destruct (bool_decide (cmdAction c = actionReplace)) eqn:Hrep.
    + apply bool_decide_eq_true in Hrep.
      destruct (launchReplacementNodes env c w1) as [[e'|] w2]; simpl.
      * intros e [= <-]. eauto.
      * destruct (forRange _ tt (nodesToRemove c) w2) as [[] w3].
        by destruct (forRange _ tt (nodesToRemove c) w3) as [[] w4].
    + unfold ret at 1. destruct (forRange _ tt (nodesToRemove c) w1) as [[] w3].
      by destruct (forRange _ tt (nodesToRemove c) w3) as [[] w4].
Qed.

(** X8.  The nodes-terminated counter is incremented once for each [Delete]
    that succeeded, with the strategy and the action of the command as its
    label, and never for a [Delete] that failed. *)
Theorem terminated_counter_counts_successful_deletes env d c w :
  terminatedCounts (trace (executeCommand env d c) w)
  = map (λ _, (d, cmdAction c)) (deleted (trace (executeCommand env d c) w)).
Proof.
  assert (Hcons : ∀ tr,
            terminatedCounts (CMetric (ActionsPerformed d (cmdAction c)) :: tr)
            = terminatedCounts tr ∧
            deleted (CMetric (ActionsPerformed d (cmdAction c)) :: tr)
            = deleted tr) by done.
  pose proof (spec_elim _ _ _ (executeCommand_spec env c d w)) as H.
  inversion H as [w1 e trl w' Hrep Hm Hl | w1 w2 trl trd trw w' Hm Hl Hd Hw].
  - destruct (Hcons trl) as [-> ->].
    destruct (launchOutcome_uncounted _ _ _ _ _ _ Hl) as [-> ->]. done.
  - destruct (Hcons (trl ++ trd ++ trw)) as [-> ->].
    assert (terminatedCounts trl = [] ∧ deleted trl = []) as [Ht Hdel].
    { destruct (bool_decide (cmdAction c = actionReplace));
        [by eapply launchOutcome_uncounted | by subst]. }
    destruct (deletionWaitCalls_uncounted _ Hw) as [Ht' Hdel'].
    pose proof (deletePhase_counted _ _ _ _ Hd) as Hc.
    unfold terminatedCounts, deleted in *.
    by rewrite !omap_app, Ht, Hdel, Ht', Hdel', Hc, !app_nil_r.
Qed.

(** X9.  [MarkForDeletion] is called with the names of the old nodes, and
    only after a launch that returned as many names as replacements were
    asked for; [UnmarkForDeletion] is called with the same names.  When
    [launchReplacementNodes] returns nil the old nodes have been marked and
    not unmarked; when it returns an error after marking them, it has
    unmarked them after the mark, and only an un-cordon follows. *)
Theorem mark_is_taken_back_on_failure env c w :
  (∀ names, CMarkForDeletion names ∈ trace (launchReplacementNodes env c) w →
     names = map Name (nodesToRemove c) ∧
     ∃ launched,
       CLaunchMachines (replacementNodes c) (launched, None)
         ∈ trace (launchReplacementNodes env c) w ∧
       length launched = length (replacementNodes c)) ∧
  (∀ names, CUnmarkForDeletion names ∈ trace (launchReplacementNodes env c) w →
     names = map Name (nodesToRemove c)) ∧
  match (launchReplacementNodes env c w).1 with
  | None =>
      CMarkForDeletion (map Name (nodesToRemove c))
        ∈ trace (launchReplacementNodes env c) w ∧
      ∀ names,
        CUnmarkForDeletion names ∉ trace (launchReplacementNodes env c) w
  | Some _ =>
      CMarkForDeletion (map Name (nodesToRemove c))
        ∈ trace (launchReplacementNodes env c) w →
      ∃ pre post,
        trace (launchReplacementNodes env c) w
        = pre ++ CUnmarkForDeletion (map Name (nodesToRemove c)) :: post ∧
        CMarkForDeletion (map Name (nodesToRemove c)) ∈ pre ∧
        Forall (cordonCall false) post
  end.
Proof.
  pose proof (spec_elim _ _ _ (launchReplacementNodes_spec env c w)) as H.
  destruct (launchReplacementNodes env c w).1 as [e0|] eqn:Hres.
  - remember (Some e0) as r0 eqn:Hr0 in H.
    inversion H as [ e tr w' Fc Hst
                   | names' e err' trc tru w' Fc Fu Hst
                   | names' trc w' Fc Hlen' Hst
                   | names' trc trw w' Fc Hlen' Fw Hobs Hst
                   | names' e err' trc trw tru w' Fc Hlen' Fw Fu Hst ];
      match goal with E : _ = trace _ _ |- _ => rewrite <- E in *; clear E end;
      subst; try congruence.
    + split_and!; [intros names Hin | intros names Hin | intros Hin];
        elem_cases Hin.
    + split_and!; [intros names Hin | intros names Hin | intros Hin];
        elem_cases Hin.
    + split_and!; [intros names Hin | intros names Hin | intros Hin];
        elem_cases Hin.
    + split_and!.
      * intros names Hin. elem_cases Hin. split; [done|]. exists names'.
        split; [|done]. apply elem_of_app. right. apply elem_of_cons. by left.
      * intros names Hin. by elem_cases Hin.
      * intros _.
        exists (trc ++ [CLaunchMachines (replacementNodes c) (names', None);
                        CMetric (NodesCreated (length names'));
                        CMarkForDeletion (map Name (nodesToRemove c))] ++ trw),
          tru.
        split_and!; [by rewrite <- !app_assoc | | done].
        apply elem_of_app. right. apply elem_of_app. left.
        apply elem_of_cons. right. apply elem_of_cons. right.
        apply elem_of_cons. by left.
  - remember (@None error) as r0 eqn:Hr0 in H.
    inversion H as [ e tr w' Fc Hst
                   | names' e err' trc tru w' Fc Fu Hst Hr
                   | names' trc w' Fc Hlen' Hst
                   | names' trc trw w' Fc Hlen' Fw Hobs Hst
                   | names' e err' trc trw tru w' Fc Hlen' Fw Fu Hst Hr ];
      match goal with E : _ = trace _ _ |- _ => rewrite <- E in *; clear E end;
      subst; try congruence; try absurd_err.
    split_and!.
    + intros names Hin. elem_cases Hin. split; [done|]. exists names'.
      split; [|done]. apply elem_of_app. right. apply elem_of_cons. by left.
    + intros names Hin. elem_cases Hin.
    + apply elem_of_app. right. apply elem_of_cons. right.
      apply elem_of_cons. right. apply elem_of_cons. by left.
    + intros names Hin. elem_cases Hin.
Qed.

(** *** Histories only grow *)

(** [m] adds calls to the history and removes none. *)
Definition grows {A} (m : M A) : Prop :=
  ∀ w, ∃ tr, history (m w).2 = history w ++ tr.

Lemma grows_ret {A} (a : A) : grows (ret a).
Proof. intros w. exists []. by rewrite app_nil_r. Qed.

Lemma grows_bind {A B} (m : M A) (k : A → M B) :
  grows m → (∀ a, grows (k a)) → grows (bind m k).
Proof.
  intros Hm Hk w. unfold bind. destruct (Hm w) as [tr1 H1].
  destruct (m w) as [a w1]. destruct (Hk a w1) as [tr2 H2].
  exists (tr1 ++ tr2). simpl in H1. by rewrite H2, H1, app_assoc.
Qed.

Lemma grows_call {A} env (f : History → Sys → A * Sys) (record : A → Call) :
  grows (call env f record).
Proof.
  intros w. unfold call. destruct (f _ _) as [a s']. by exists [record a].
Qed.

Lemma grows_spec {A} (m : M A) (Φ : World → A → list Call → World → Prop) :
  (∀ w, spec m w (Φ w)) → grows m.
Proof.
  intros H w. destruct (H w) as (a & tr & w' & [Hm Hh] & _). exists tr.
  by rewrite Hm.
Qed.

Lemma spec_total {A} (m : M A) w :
  grows m → spec m w (λ _ _ _, True).
Proof.
  intros H. destruct (H w) as [tr Htr]. exists (m w).1, tr, (m w).2.
  split; [|done]. split; [by destruct (m w) | done].
Qed.

Lemma grows_setNodesUnschedulable env v names :
  grows (setNodesUnschedulable env v names).
Proof.
  eapply grows_spec. intros w. apply (setNodesUnschedulable_steps env v names w).
Qed.

Lemma grows_readiness env c names :
  grows (ParallelizeUntil env (length names) (waitForReadiness env c names)
           (replicate (length names) None)).
Proof.
  eapply grows_spec. intros w.
  apply (ParallelizeUntil_readiness_spec env (λ _, False) c names w).
Qed.

(** The calls of [tr] that launch machines. *)
Definition launches (tr : list Call) : list (list Machine) :=
  omap (λ c, match c with CLaunchMachines ms _ => Some ms | _ => None end) tr.

Lemma launches_none tr :
  Forall (λ c, isLaunch c = false) tr → launches tr = [].
Proof. intros F. apply omap_none. eapply Forall_impl; [apply F|]. by intros []. Qed.

Lemma launchOutcome_launches env c w r tr w' :
  launchOutcome env c w r tr w' → (length (launches tr) ≤ 1)%nat.
Proof.
  assert (Hc : ∀ v l, Forall (cordonCall v) l → launches l = []).
  { intros v l F. apply launches_none. eapply Forall_impl; [apply F|].
    intros call Hcall. apply cordonCall_kind in Hcall. tauto. }
  assert (Hr : ∀ l, Forall readinessCall l → launches l = []).
  { intros l F. apply launches_none. eapply Forall_impl; [apply F|].
    intros call Hcall. apply readinessCall_kind in Hcall. tauto. }
  destruct 1;
    repeat match goal with
           | F : Forall (cordonCall _) _ |- _ => apply Hc in F
           | F : Forall readinessCall _ |- _ => apply Hr in F
           end;
    unfold launches in *;
    rewrite ?omap_app; simpl; rewrite ?omap_app; simpl;
    repeat match goal with E : omap _ _ = [] |- _ => rewrite E; clear E end;
    simpl; lia.
Qed.

Lemma launchReplacementNodes_cordon_first env c w :
  spec (launchReplacementNodes env c) w (λ r tr _,
    ∃ trc rest,
      tr = trc ++ rest ∧ cordonSteps true (map Name (nodesToRemove c)) trc ∧
      ((∃ e, r = Some (Errorf "cordoning nodes, %w" [ArgError e]) ∧
             errorList (Some e) = cordonErrors trc ∧ rest = []) ∨
       (cordonErrors trc = [] ∧
        ∃ res rest',
          rest = CLaunchMachines (replacementNodes c) res :: rest'))).
Proof.
  unfold launchReplacementNodes. spec_step.
  eapply spec_mono; [apply setNodesUnschedulable_steps|].
  intros err trc w1 [Hs He]. destruct err as [e|].
  { spec_step. exists trc, []. split_and!; [done | done |]. left. eauto. }
  spec_step. unfold LaunchMachines. apply spec_call. simpl.
  set (res := launchMachines env (history w1) (replacementNodes c)).
  set (w2 := {| sys := _; history := _ |}).
  assert (Hk : ∀ a,
            grows (let '(nodeNames, err) := a in
                   match err with
                   | Some e =>
                       let* err' :=
                         setNodesUnschedulable env false
                           (map Name (nodesToRemove c)) in
                       ret (multierr_Append (Some e) err')
                   | None =>
                       if negb (length nodeNames
                                =? length (replacementNodes c))%nat
                       then
                         ret (Some (Errorf "expected %d node names, got %d"
                                      [ArgInt (Z.of_nat
                                                 (length (replacementNodes c)));
                                       ArgInt (Z.of_nat (length nodeNames))]))
                       else
                         count env (NodesCreated (length nodeNames));;
                         MarkForDeletion env (map Name (nodesToRemove c));;
                         let* errs :=
                           ParallelizeUntil env (length nodeNames)
                             (waitForReadiness env c nodeNames)
                             (replicate (length nodeNames) None) in
                         match multierr_Combine errs with
                         | Some e =>
                             UnmarkForDeletion env
                               (map Name (nodesToRemove c));;
                             let* err' :=
                               setNodesUnschedulable env false
                                 (map Name (nodesToRemove c)) in
                             ret (multierr_Combine
                                    [err';
                                     Some (Errorf
                                             "timed out checking node readiness, %w"
                                             [ArgError e])])
                         | None => ret None
                         end
                   end)).
  { intros [nodeNames [e|]].
    - apply grows_bind; [apply grows_setNodesUnschedulable|].
      intros ?. apply grows_ret.
    - destruct (negb _); [apply grows_ret|].
      apply grows_bind; [apply grows_call|]. intros _.
      apply grows_bind; [apply grows_call|]. intros _.
      apply grows_bind; [apply grows_readiness|]. intros errs.
      destruct (multierr_Combine errs); [|apply grows_ret].
      apply grows_bind; [apply grows_call|]. intros _.
      apply grows_bind; [apply grows_setNodesUnschedulable|].
      intros ?. apply grows_ret. }
  eapply spec_mono; [apply spec_total, (Hk res)|].
  intros r tr2 w3 _. exists trc, ([CLaunchMachines (replacementNodes c) res] ++ tr2).
  split_and!; [done | done |]. right. split; [by rewrite <- He|]. eauto.
Qed.

Lemma launches_nil tr :
  launches tr = [] → Forall (λ c, isLaunch c = false) tr.
Proof.
  unfold launches. induction tr as [|c tr IH]; [done|]. simpl.
  destruct c; try done; intros H; constructor; auto.
Qed.

(** A list splits in one way around its only element with a property. *)
Lemma unique_split {A} (P : A → Prop) l1 a r1 l2 b r2 :
  l1 ++ a :: r1 = l2 ++ b :: r2 →
  Forall (λ x, ¬ P x) l1 → Forall (λ x, ¬ P x) r1 → P b →
  l1 = l2 ∧ r1 = r2.
Proof.
  revert l2. induction l1 as [|x l1 IH]; intros l2 Heq F1 Fr Hb.
  - destruct l2 as [|p l2]; simpl in Heq.
    + by inversion Heq.
    + inversion Heq as [[Ha Hr]]. exfalso.
      assert (Hin : b ∈ r1).
      { rewrite Hr. apply elem_of_app. right. by left. }
      by apply (proj1 (Forall_forall _ _) Fr) in Hin.
  - apply Forall_cons in F1 as [Hx F1]. destruct l2 as [|p l2]; simpl in Heq.
    + inversion Heq; subst. done.
    + inversion Heq as [[Hp Heq']]. subst p.
      destruct (IH l2 Heq' F1 Fr Hb) as [-> ->]. done.
Qed.

(** X10.  [launchReplacementNodes] launches at most once, and only after a
    cordon that asked for every old node and in which every [Get] and every
    [Patch] succeeded.  When it does not launch, it returns the "cordoning
    nodes" error, some call of the cordon has failed, and nothing is
    un-cordoned: all its calls are those of the cordon. *)
Theorem launch_only_after_clean_cordon env c w :
  (∀ pre call post,
     trace (launchReplacementNodes env c) w = pre ++ call :: post →
     isLaunch call = true →
     gets pre = map Name (nodesToRemove c) ∧
     Forall (λ call', cordonCall true call' ∧ failedCall call' = false) pre ∧
     Forall (λ call', isLaunch call' = false) post) ∧
  (Forall (λ call, isLaunch call = false)
     (trace (launchReplacementNodes env c) w) →
   (∃ e, (launchReplacementNodes env c w).1
         = Some (Errorf "cordoning nodes, %w" [ArgError e])) ∧
   Forall (cordonCall true) (trace (launchReplacementNodes env c) w) ∧
   Exists (λ call, failedCall call = true)
     (trace (launchReplacementNodes env c) w)).
Proof.
  pose proof (spec_elim _ _ _ (launchReplacementNodes_cordon_first env c w))
    as (trc & rest & Htr & Hs & Hcase).
  pose proof (spec_elim _ _ _ (launchReplacementNodes_spec env c w)) as Ho.
  apply launchOutcome_launches in Ho.
  pose proof (cordonSteps_calls _ _ _ Hs) as Fc.
  assert (Hquiet : launches trc = []).
  { apply launches_none. eapply Forall_impl; [apply Fc|].
    intros call Hcall. apply cordonCall_kind in Hcall. tauto. }
  destruct Hcase as [(e & Hr & He & ->)|(He & res & rest' & ->)].
  - rewrite app_nil_r in Htr. rewrite Htr. split.
    + intros pre call post Heq Hl. exfalso.
      assert (Hin : call ∈ trc).
      { rewrite Heq. apply elem_of_app. right. by left. }
      apply (proj1 (Forall_forall _ _) Fc) in Hin.
      apply cordonCall_kind in Hin. destruct Hin as (_ & Hin & _). congruence.
    + intros _. split_and!; [eauto | done |].
      apply Exists_exists.
      destruct (decide (Forall (λ c0, failedCall c0 = false) trc)) as [F|F].
      * apply cordonErrors_nil in F; [|by left]. rewrite F in He.
        by destruct e.
      * apply not_Forall_Exists in F; [|intros ?; apply _].
        apply Exists_exists in F as (call & Hin & Hcall).
        exists call. split; [done|].
        destruct (failedCall call) eqn:E; [done | by destruct Hcall].
  - rewrite Htr in *.
    assert (Hrest : Forall (λ call', isLaunch call' = false) rest').
    { apply launches_nil. apply nil_length_inv.
      assert (E : launches (trc ++ CLaunchMachines (replacementNodes c) res
                                       :: rest')
                    = replacementNodes c :: launches rest').
      { unfold launches in *. by rewrite omap_app, Hquiet. }
      rewrite E in Ho. simpl in Ho. lia. }
    split.
    + intros pre call post Heq Hl.
      destruct (unique_split (λ call', isLaunch call' = true)
                  trc (CLaunchMachines (replacementNodes c) res) rest'
                  pre call post) as [-> ->]; [done | | | done |].
      { eapply Forall_impl; [apply Fc|]. intros call' Hcall.
        apply cordonCall_kind in Hcall. destruct Hcall as (_ & -> & _). done. }
      { eapply Forall_impl; [apply Hrest|]. by intros call' ->. }
      split_and!; [by eapply cordonSteps_gets | | done].
      apply cordonErrors_nil in He; [|by left].
      apply Forall_forall. intros call' Hin. split.
      * by apply (proj1 (Forall_forall _ _) Fc).
      * by apply (proj1 (Forall_forall _ _) He).
    + intros F. apply Forall_app in F as [_ F].
      by apply Forall_cons in F as [F _].
Qed.

(** ** The wait for the deletions in [executeCommand] *)

(** The calls of one [waitForDeletion]: at most 60 attempts, each a [Get] of
    the node; the attempts that do not find the node gone publish
    [WaitingOnDeletion]; the attempt that finds it gone is the last. *)
Definition deletionWait (node : Node) (tr : list Call) : Prop :=
  ∃ answers last,
    tr = deletionWaits node answers ++ last ∧
    Forall (λ a, IsNotFound a.2 = false) answers ∧
    ((last = [] ∧ length answers = 60%nat) ∨
     (∃ a, last = [CGet (Name node) a] ∧ IsNotFound a.2 = true ∧
           (length answers < 60)%nat)).

Lemma deletes_none tr :
  Forall (λ call, isTerminating call = false ∧ isDelete call = false) tr →
  deletes tr = [].
Proof.
  intros F. apply omap_none. eapply Forall_impl; [apply F|].
  intros [] [_ H]; done.
Qed.

Section DeletionWaits.

Context (env : Env).

Lemma waitForDeletion_wait node w :
  spec (waitForDeletion env node) w (λ _ tr _, deletionWait node tr).
Proof.
  unfold waitForDeletion. spec_step.
  eapply spec_mono; [apply (retry_deletion env node 59)|].
  intros r tr w1 Hr. spec_step. by rewrite app_nil_r.
Qed.

Lemma forRange_waitForDeletion_waits nodes : ∀ w,
  spec (forRange (λ _ oldnode, waitForDeletion env oldnode) tt nodes) w
    (λ _ tr _, ∃ waits, tr = concat waits ∧ Forall2 deletionWait nodes waits).
Proof.
  induction nodes as [|n ns IH]; intros w; simpl.
  - spec_step. exists []. by split.
  - spec_step. eapply spec_mono; [apply waitForDeletion_wait|].
    intros [] tr1 w1 H1. eapply spec_mono; [apply IH|].
    intros u tr2 w2 (waits & -> & H2). exists (tr1 :: waits).
    split; [done | by constructor].
Qed.

Lemma executeCommand_waits c d w :
  spec (executeCommand env d c) w (λ r tr _,
    r = None →
    ∃ pre waits,
      tr = pre ++ concat waits ∧ deletes pre = nodesToRemove c ∧
      Forall2 deletionWait (nodesToRemove c) waits).
Proof.
  assert (Hrest : ∀ trl w2,
            deletes trl = [] →
            spec (forRange
                    (λ _ oldNode,
                       Publish env (TerminatingNode oldNode c);;
                       let* err := kubeDelete env oldNode in
                       match err with
                       | Some _ => ret tt
                       | None => count env (NodesTerminated d (cmdAction c))
                       end) tt (nodesToRemove c);;
                  forRange (λ _ oldnode, waitForDeletion env oldnode)
                    tt (nodesToRemove c);;
                  ret (@None error)) w2
              (λ r tr2 _,
                 r = None →
                 ∃ pre waits,
                   [CMetric (ActionsPerformed d (cmdAction c))] ++ trl ++ tr2
                   = pre ++ concat waits ∧
                   deletes pre = nodesToRemove c ∧
                   Forall2 deletionWait (nodesToRemove c) waits)).
  { intros trl w2 Hl. spec_step.
    eapply spec_mono; [apply forRange_delete_spec|].
    intros u1 trd w3 Hd. spec_step.
    eapply spec_mono; [apply forRange_waitForDeletion_waits|].
    intros u2 trw w4 (waits & -> & Hw). spec_step. intros _.
    exists ([CMetric (ActionsPerformed d (cmdAction c))] ++ trl ++ trd), waits.
    split_and!; [|
                 |done].
    - rewrite app_nil_r. by rewrite <- !app_assoc.
    - change (deletes ([CMetric (ActionsPerformed d (cmdAction c))]
                         ++ trl ++ trd))
        with (deletes (trl ++ trd)).
      by rewrite deletes_app, Hl, (deletePhase_deletes _ _ _ _ Hd). }
  unfold executeCommand. spec_step. spec_step. spec_step.
  destruct (bool_decide (cmdAction c = actionReplace)).
  - eapply spec_mono; [apply launchReplacementNodes_spec|].
    intros err trl w2 Hl. destruct err as [e|]; [by spec_step|].
    apply Hrest. apply deletes_none. by eapply launchOutcome_kind.
  - spec_step. by apply (Hrest []).
Qed.

End DeletionWaits.

(** X11.  When [executeCommand] returns nil, its last calls are the waits
    for the deletion of the old nodes, one for each old node in turn, whether
    or not the [Delete] of that node succeeded; all the [Delete] calls come
    before the first wait. *)
Theorem every_old_node_is_waited_for env d c w :
  (executeCommand env d c w).1 = None →
  ∃ pre waits,
    trace (executeCommand env d c) w = pre ++ concat waits ∧
    deletes pre = nodesToRemove c ∧
    Forall2 deletionWait (nodesToRemove c) waits.
Proof. apply (spec_elim _ _ _ (executeCommand_waits env c d w)). Qed.

(** ** The control loop *)

(** The values given to [SetConsolidated] in [tr]. *)
Definition flagCalls (tr : list Call) : list bool :=
  omap (λ c, match c with CSetConsolidated b => Some b | _ => None end) tr.

Lemma flagCalls_app tr1 tr2 : flagCalls (tr1 ++ tr2) = flagCalls tr1 ++ flagCalls tr2.
Proof. apply omap_app. Qed.

(** A call of a strategy: candidates asked for, or a command computed, or a
    call of single node consolidation. *)
Definition strategyCall (c : Call) : Prop :=
  match c with
  | CCandidateNodes _ _ | CComputeCommand _ _ _ => True
  | _ => consolidationCall c
  end.

Lemma strategyCalls_quiet tr :
  Forall strategyCall tr →
  flagCalls tr = [] ∧ executions tr = [] ∧
  Forall (λ c, isMutation c = false ∧ isExecution c = false) tr.
Proof.
  induction 1 as [|c tr Hc _ (IH1 & IH2 & IH3)]; [done|].
  unfold flagCalls, executions in *.
  destruct c; try done; simpl; by rewrite ?IH1, ?IH2; repeat constructor.
Qed.

Lemma computePost_strategy d cands res trc :
  computePost d cands res trc → Forall strategyCall trc.
Proof.
  intros (inner & -> & F & _). apply Forall_app_2; [|by repeat constructor].
  eapply Forall_impl; [apply F|]. by intros [].
Qed.

Lemma executorCalls_flagless tr :
  Forall (λ c, executorCall c = true) tr → flagCalls tr = [].
Proof.
  intros F. apply omap_none. eapply Forall_impl; [apply F|]. by intros [].
Qed.

Lemma sweep_flag env ds w r tr w' :
  sweep env ds w r tr w' →
  (flagCalls tr = [] ∧
   r ≠ ({| Requeue := false; RequeueAfter := pollingPeriod |}, None)) ∨
  (flagCalls tr = [true] ∧ last tr = Some (CSetConsolidated true) ∧
   r = ({| Requeue := false; RequeueAfter := pollingPeriod |}, None) ∧
   executions tr = [] ∧
   Forall (λ c, isMutation c = false ∧ isExecution c = false) tr).
Proof.
  induction 1 as [ w w' Hc
                 | d rest w cands e w'
                 | d rest w w1 r tr w' Hh Hs IH
                 | d rest w cands cmd e trc w' Hne Hp
                 | d rest w cands cmd trc w1 r tr w' Hne Hp Ha Hh Hs IH
                 | d rest w cands cmd trc w' Hne Hp Ha
                 | d rest w cands cmd trc w1 err tre w' Hne Hp Hn Hr Hh Hruns ].
  - right. split_and!; try done. by repeat constructor.
  - by left.
  - destruct IH as [[IH1 IH2]|(IH1 & IH2 & IH3 & IH4 & IH5)].
    + by left.
    + right. split_and!; try done.
      * rewrite last_cons, IH2. done.
      * by constructor.
  - left. split; [|done].
    destruct (strategyCalls_quiet _ (computePost_strategy _ _ _ _ Hp))
      as (H1 & _).
    change (flagCalls (CCandidateNodes d (cands, None) :: trc))
      with (flagCalls trc). done.
  - destruct (strategyCalls_quiet _ (computePost_strategy _ _ _ _ Hp))
      as (H1 & H2 & H3).
    change (flagCalls (CCandidateNodes d (cands, None) :: trc ++ tr))
      with (flagCalls (trc ++ tr)).
    change (executions (CCandidateNodes d (cands, None) :: trc ++ tr))
      with (executions (trc ++ tr)).
    rewrite flagCalls_app, executions_app, H1, H2. simpl.
    destruct IH as [[IH1 IH2]|(IH1 & IH2 & IH3 & IH4 & IH5)].
    + by left.
    + right. split_and!; try done.
      * rewrite last_cons, last_app, IH2. done.
      * constructor; [done|]. by apply Forall_app_2.
  - left. split; [|done].
    destruct (strategyCalls_quiet _ (computePost_strategy _ _ _ _ Hp))
      as (H1 & _).
    change (flagCalls (CCandidateNodes d (cands, None) :: trc))
      with (flagCalls trc). done.
  - left. split; [|by destruct err].
    destruct (strategyCalls_quiet _ (computePost_strategy _ _ _ _ Hp))
      as (H1 & _).
    destruct (runs_trace _ _ _ _ _ Hruns) as (<- & _).
    destruct (executeCommand_calls env d cmd w1) as (tail & -> & Ft).
    change (flagCalls (CCandidateNodes d (cands, None)
                         :: trc ++ CMetric (ActionsPerformed d (cmdAction cmd))
                         :: tail))
      with (flagCalls (trc ++ CMetric (ActionsPerformed d (cmdAction cmd))
                         :: tail)).
    rewrite flagCalls_app, H1. simpl.
    change (flagCalls (CMetric (ActionsPerformed d (cmdAction cmd)) :: tail))
      with (flagCalls tail). by apply executorCalls_flagless.
Qed.

(** X12.  [SetConsolidated] is called with [true] only, as the last call of
    a tick that executed no command and changed nothing in the cluster, and
    exactly in the ticks where [Reconcile] asks to be called again after
    [pollingPeriod]. *)
Theorem consolidated_flag_set_only_by_idle_sweep env w :
  (flagCalls (trace (Reconcile env) w) = [] ∧
   (Reconcile env w).1
   ≠ ({| Requeue := false; RequeueAfter := pollingPeriod |}, None)) ∨
  (flagCalls (trace (Reconcile env) w) = [true] ∧
   last (trace (Reconcile env) w) = Some (CSetConsolidated true) ∧
   (Reconcile env w).1
   = ({| Requeue := false; RequeueAfter := pollingPeriod |}, None) ∧
   executions (trace (Reconcile env) w) = [] ∧
   Forall (λ c, isMutation c = false ∧ isExecution c = false)
     (trace (Reconcile env) w)).
Proof.
  pose proof (spec_elim _ _ _ (reconcileLoop_spec env deprovisioners w)) as H.
  by apply (sweep_flag _ _ _ _ _ _ H).
Qed.

(** The formats of the errors of [Reconcile]. *)
Definition reconcileErrors : list string :=
  ["determining candidate nodes, %w"; "computing deprovisioning decision, %w";
   "deprovisioning nodes, %w"].

Lemma sweep_failures env ds w r tr w' :
  sweep env ds w r tr w' →
  (∀ d cands e, CCandidateNodes d (cands, Some e) ∈ tr →
     r = (emptyResult,
          Some (Errorf "determining candidate nodes, %w" [ArgError e])) ∧
     last tr = Some (CCandidateNodes d (cands, Some e))) ∧
  (∀ d cands cmd e, CComputeCommand d cands (cmd, Some e) ∈ tr →
     r = (emptyResult,
          Some (Errorf "computing deprovisioning decision, %w" [ArgError e])) ∧
     last tr = Some (CComputeCommand d cands (cmd, Some e))) ∧
  ((∃ format e, r = (emptyResult, Some (Errorf format [ArgError e])) ∧
                format ∈ reconcileErrors) ∨
   r = ({| Requeue := true; RequeueAfter := 0 |}, None) ∨
   r = ({| Requeue := false; RequeueAfter := pollingPeriod |}, None)).
Proof.
  assert (Hinner : ∀ (inner : list Call) c, Forall consolidationCall inner →
            c ∈ inner → consolidationCall c).
  { intros inner c F Hin. by apply (proj1 (Forall_forall _ _) F). }
  assert (Hexec : ∀ d cmd w1 c, c ∈ trace (executeCommand env d cmd) w1 →
            c = CMetric (ActionsPerformed d (cmdAction cmd)) ∨
            executorCall c = true).
  { intros d cmd w1 c Hin.
    destruct (executeCommand_calls env d cmd w1) as (tail & E & Ft).
    rewrite E in Hin. apply elem_of_cons in Hin as [->|Hin]; [by left|].
    right. by apply (proj1 (Forall_forall _ _) Ft). }
  induction 1 as [ w w' Hc
                 | d rest w cands e w'
                 | d rest w w1 r tr w' Hh Hs IH
                 | d rest w cands cmd e trc w' Hne Hp
                 | d rest w cands cmd trc w1 r tr w' Hne Hp Ha Hh Hs IH
                 | d rest w cands cmd trc w' Hne Hp Ha
                 | d rest w cands cmd trc w1 err tre w' Hne Hp Hn Hr Hh Hruns ].
  - split_and!; [| |by right; right].
    + intros d cands e Hin. apply elem_of_cons in Hin as [Hin|Hin]; [done|].
      by apply elem_of_nil in Hin.
    + intros d cands cmd e Hin. apply elem_of_cons in Hin as [Hin|Hin]; [done|].
      by apply elem_of_nil in Hin.
  - split_and!.
    + intros d' cands' e' Hin. apply elem_of_cons in Hin as [Hin|Hin];
        [|by apply elem_of_nil in Hin]. by inversion Hin.
    + intros d' cands' cmd e' Hin. apply elem_of_cons in Hin as [Hin|Hin];
        [done | by apply elem_of_nil in Hin].
    + left. eexists _, _. split; [done|]. apply elem_of_cons. by left.
  - destruct IH as (IH1 & IH2 & IH3). split_and!; [| |done].
    + intros d' cands' e' Hin. apply elem_of_cons in Hin as [Hin|Hin]; [done|].
      destruct (IH1 _ _ _ Hin) as [-> Hl]. split; [done|].
      by rewrite last_cons, Hl.
    + intros d' cands' cmd e' Hin. apply elem_of_cons in Hin as [Hin|Hin]; [done|].
      destruct (IH2 _ _ _ _ Hin) as [-> Hl]. split; [done|].
      by rewrite last_cons, Hl.
  - destruct Hp as (inner & -> & F & _). split_and!.
    + intros d' cands' e' Hin. apply elem_of_cons in Hin as [Hin|Hin]; [done|].
      apply elem_of_app in Hin as [Hin|Hin]; [by apply (Hinner _ _ F) in Hin|].
      apply elem_of_cons in Hin as [Hin|Hin]; [done | by apply elem_of_nil in Hin].
    + intros d' cands' cmd' e' Hin. apply elem_of_cons in Hin as [Hin|Hin]; [done|].
      apply elem_of_app in Hin as [Hin|Hin]; [by apply (Hinner _ _ F) in Hin|].
      apply elem_of_cons in Hin as [Hin|Hin]; [|by apply elem_of_nil in Hin].
      inversion Hin; subst. split; [done|].
      by rewrite last_cons, last_snoc.
    + left. eexists _, _. split; [done|]. apply elem_of_cons. right.
      apply elem_of_cons. by left.
  - destruct Hp as (inner & -> & F & _).
    destruct IH as (IH1 & IH2 & IH3). split_and!; [| |done].
    + intros d' cands' e' Hin. apply elem_of_cons in Hin as [Hin|Hin]; [done|].
      apply elem_of_app in Hin as [Hin|Hin].
      { apply elem_of_app in Hin as [Hin|Hin]; [by apply (Hinner _ _ F) in Hin|].
        apply elem_of_cons in Hin as [Hin|Hin];
          [done | by apply elem_of_nil in Hin]. }
      destruct (IH1 _ _ _ Hin) as [-> Hl]. split; [done|].
      by rewrite last_cons, last_app, Hl.
    + intros d' cands' cmd' e' Hin. apply elem_of_cons in Hin as [Hin|Hin]; [done|].
      apply elem_of_app in Hin as [Hin|Hin].
      { apply elem_of_app in Hin as [Hin|Hin]; [by apply (Hinner _ _ F) in Hin|].
        apply elem_of_cons in Hin as [Hin|Hin];
          [done | by apply elem_of_nil in Hin]. }
      destruct (IH2 _ _ _ _ Hin) as [-> Hl]. split; [done|].
      by rewrite last_cons, last_app, Hl.
  - destruct Hp as (inner & -> & F & _). split_and!; [| |by right; left].
    + intros d' cands' e' Hin. apply elem_of_cons in Hin as [Hin|Hin]; [done|].
      apply elem_of_app in Hin as [Hin|Hin]; [by apply (Hinner _ _ F) in Hin|].
      apply elem_of_cons in Hin as [Hin|Hin]; [done | by apply elem_of_nil in Hin].
    + intros d' cands' cmd' e' Hin. apply elem_of_cons in Hin as [Hin|Hin]; [done|].
      apply elem_of_app in Hin as [Hin|Hin]; [by apply (Hinner _ _ F) in Hin|].
      apply elem_of_cons in Hin as [Hin|Hin]; [done | by apply elem_of_nil in Hin].
  - destruct Hp as (inner & -> & F & _).
    destruct (runs_trace _ _ _ _ _ Hruns) as (<- & _). split_and!.
    + intros d' cands' e' Hin. apply elem_of_cons in Hin as [Hin|Hin]; [done|].
      apply elem_of_app in Hin as [Hin|Hin].
      { apply elem_of_app in Hin as [Hin|Hin]; [by apply (Hinner _ _ F) in Hin|].
        apply elem_of_cons in Hin as [Hin|Hin];
          [done | by apply elem_of_nil in Hin]. }
      by apply Hexec in Hin as [Hin|Hin].
    + intros d' cands' cmd' e' Hin. apply elem_of_cons in Hin as [Hin|Hin]; [done|].
      apply elem_of_app in Hin as [Hin|Hin].
      { apply elem_of_app in Hin as [Hin|Hin]; [by apply (Hinner _ _ F) in Hin|].
        apply elem_of_cons in Hin as [Hin|Hin];
          [done | by apply elem_of_nil in Hin]. }
      by apply Hexec in Hin as [Hin|Hin].
    + destruct err as [e|]; [left | by right; left].
      eexists _, _. split; [done|]. apply elem_of_cons. right.
      apply elem_of_cons. right. apply elem_of_cons. by left.
Qed.

(** X13.  A strategy that fails ends the tick: when [candidateNodes] or
    [ComputeCommand] answers an error, this is the last call of the tick and
    [Reconcile] returns the empty result with that error, wrapped as
    "determining candidate nodes" or "computing deprovisioning decision".
    [Reconcile] returns the empty result with one of its three errors, or a
    requeue at once without an error, or a requeue after [pollingPeriod]
    without an error. *)
Theorem failing_strategy_ends_the_tick env w :
  (∀ d cands e,
     CCandidateNodes d (cands, Some e) ∈ trace (Reconcile env) w →
     (Reconcile env w).1
     = (emptyResult,
        Some (Errorf "determining candidate nodes, %w" [ArgError e])) ∧
     last (trace (Reconcile env) w) = Some (CCandidateNodes d (cands, Some e))) ∧
  (∀ d cands cmd e,
     CComputeCommand d cands (cmd, Some e) ∈ trace (Reconcile env) w →
     (Reconcile env w).1
     = (emptyResult,
        Some (Errorf "computing deprovisioning decision, %w" [ArgError e])) ∧
     last (trace (Reconcile env) w)
     = Some (CComputeCommand d cands (cmd, Some e))) ∧
  ((∃ format e,
      (Reconcile env w).1 = (emptyResult, Some (Errorf format [ArgError e])) ∧
      format ∈ reconcileErrors) ∨
   (Reconcile env w).1 = ({| Requeue := true; RequeueAfter := 0 |}, None) ∨
   (Reconcile env w).1
   = ({| Requeue := false; RequeueAfter := pollingPeriod |}, None)).
Proof.
  pose proof (spec_elim _ _ _ (reconcileLoop_spec env deprovisioners w)) as H.
  by apply (sweep_failures _ _ _ _ _ _ H).
Qed.

Lemma sweep_mutations env ds w r tr w' :
  sweep env ds w r tr w' →
  ∃ pre exec,
    tr = pre ++ exec ∧
    Forall (λ c, isMutation c = false ∧ isExecution c = false) pre ∧
    (exec = [] ∨ ∃ d a tail, exec = CMetric (ActionsPerformed d a) :: tail).
Proof.
  induction 1 as [ w w' Hc
                 | d rest w cands e w'
                 | d rest w w1 r tr w' Hh Hs IH
                 | d rest w cands cmd e trc w' Hne Hp
                 | d rest w cands cmd trc w1 r tr w' Hne Hp Ha Hh Hs IH
                 | d rest w cands cmd trc w' Hne Hp Ha
                 | d rest w cands cmd trc w1 err tre w' Hne Hp Hn Hr Hh Hruns ].
  - exists [CSetConsolidated true], []. split_and!; [done | | by left].
    by repeat constructor.
  - exists [CCandidateNodes d (cands, Some e)], [].
    split_and!; [done | | by left]. by repeat constructor.
  - destruct IH as (pre & exec & -> & F & Hexec).
    exists (CCandidateNodes d ([], None) :: pre), exec.
    split_and!; [done | by constructor | done].
  - destruct (strategyCalls_quiet _ (computePost_strategy _ _ _ _ Hp))
      as (_ & _ & F).
    exists (CCandidateNodes d (cands, None) :: trc), [].
    split_and!; [by rewrite app_nil_r | by constructor | by left].
  - destruct (strategyCalls_quiet _ (computePost_strategy _ _ _ _ Hp))
      as (_ & _ & F).
    destruct IH as (pre & exec & -> & F' & Hexec).
    exists (CCandidateNodes d (cands, None) :: trc ++ pre), exec.
    split_and!; [simpl; by rewrite <- app_assoc | | done].
    constructor; [done|]. by apply Forall_app_2.
  - destruct (strategyCalls_quiet _ (computePost_strategy _ _ _ _ Hp))
      as (_ & _ & F).
    exists (CCandidateNodes d (cands, None) :: trc), [].
    split_and!; [by rewrite app_nil_r | by constructor | by left].
  - destruct (strategyCalls_quiet _ (computePost_strategy _ _ _ _ Hp))
      as (_ & _ & F).
    destruct (runs_trace _ _ _ _ _ Hruns) as (<- & _).
    destruct (executeCommand_calls env d cmd w1) as (tail & -> & Ft).
    exists (CCandidateNodes d (cands, None) :: trc),
      (CMetric (ActionsPerformed d (cmdAction cmd)) :: tail).
    split_and!; [done | by constructor | right; eauto].
Qed.

(** X14.  In a tick the cluster is changed inside [executeCommand] only:
    every [Patch], [Delete], launch, mark and unmark comes after the
    increment of the actions counter, and a tick without such an increment
    changes nothing. *)
Theorem cluster_changes_only_inside_executeCommand env w :
  (∀ i call,
     trace (Reconcile env) w !! i = Some call → isMutation call = true →
     ∃ j d a, (j < i)%nat ∧
       trace (Reconcile env) w !! j = Some (CMetric (ActionsPerformed d a))) ∧
  (executions (trace (Reconcile env) w) = [] →
   Forall (λ call, isMutation call = false) (trace (Reconcile env) w)).
Proof.
  pose proof (spec_elim _ _ _ (reconcileLoop_spec env deprovisioners w)) as H.
  unfold Reconcile.
  destruct (sweep_mutations _ _ _ _ _ _ H) as (pre & exec & -> & F & Hexec).
  split.
  - intros i call Hi Hm.
    destruct (decide (i < length pre)%nat) as [Hlt|Hge].
    { rewrite lookup_app_l in Hi by done.
      destruct (Forall_lookup_1 _ _ _ _ F Hi) as [Hn _]. congruence. }
    rewrite lookup_app_r in Hi by lia.
    destruct Hexec as [->|(d & a & tail & ->)]; [done|].
    destruct (i - length pre)%nat as [|k] eqn:Hk.
    { simpl in Hi. inversion Hi; subst. done. }
    exists (length pre), d, a. split; [lia|].
    rewrite lookup_app_r by lia. by rewrite Nat.sub_diag.
  - intros He. rewrite executions_app in He. apply app_eq_nil in He as [_ He].
    destruct Hexec as [->|(d & a & tail & ->)]; [|done].
    rewrite app_nil_r. eapply Forall_impl; [apply F|]. by intros call [? _].
Qed.

Lemma sweep_compute env ds w r tr w' :
  sweep env ds w r tr w' →
  ∀ d cands res, CComputeCommand d cands res ∈ tr →
    cands ≠ [] ∧
    ∃ pre inner post,
      tr = pre ++ CCandidateNodes d (cands, None)
               :: inner ++ CComputeCommand d cands res :: post ∧
      Forall consolidationCall inner ∧
      (d ≠ SingleNodeConsolidation → inner = []).
Proof.
  assert (Hinner : ∀ (inner : list Call) c, Forall consolidationCall inner →
            c ∈ inner → consolidationCall c).
  { intros inner c F Hin. by apply (proj1 (Forall_forall _ _) F). }
  assert (Hexec : ∀ d cmd w1 c, c ∈ trace (executeCommand env d cmd) w1 →
            c = CMetric (ActionsPerformed d (cmdAction cmd)) ∨
            executorCall c = true).
  { intros d cmd w1 c Hin.
    destruct (executeCommand_calls env d cmd w1) as (tail & E & Ft).
    rewrite E in Hin. apply elem_of_cons in Hin as [->|Hin]; [by left|].
    right. by apply (proj1 (Forall_forall _ _) Ft). }
  assert (Hhere : ∀ d cands res trc post d' cands' res',
            cands ≠ [] → computePost d cands res trc →
            CComputeCommand d' cands' res' ∈ trc →
            cands' ≠ [] ∧
            ∃ pre inner post',
              CCandidateNodes d (cands, None) :: trc ++ post
              = pre ++ CCandidateNodes d' (cands', None)
                    :: inner ++ CComputeCommand d' cands' res' :: post' ∧
              Forall consolidationCall inner ∧
              (d' ≠ SingleNodeConsolidation → inner = [])).
  { intros d cands res trc post d' cands' res' Hne (inner & -> & F & Hd & _) Hin.
    apply elem_of_app in Hin as [Hin|Hin]; [by apply (Hinner _ _ F) in Hin|].
    apply elem_of_cons in Hin as [Hin|Hin]; [|by apply elem_of_nil in Hin].
    inversion Hin; subst. split; [done|]. exists [], inner, post.
    split_and!; [by rewrite <- app_assoc | done | done]. }
  induction 1 as [ w w' Hc
                 | d rest w cands e w'
                 | d rest w w1 r tr w' Hh Hs IH
                 | d rest w cands cmd e trc w' Hne Hp
                 | d rest w cands cmd trc w1 r tr w' Hne Hp Ha Hh Hs IH
                 | d rest w cands cmd trc w' Hne Hp Ha
                 | d rest w cands cmd trc w1 err tre w' Hne Hp Hn Hr Hh Hruns ];
    intros d' cands' res' Hin;
    (apply elem_of_cons in Hin as [Hin|Hin]; [done|]).
  - by apply elem_of_nil in Hin.
  - by apply elem_of_nil in Hin.
  - destruct (IH _ _ _ Hin) as (Hne & pre & inner & post & -> & F & Hd).
    split; [done|]. exists (CCandidateNodes d ([], None) :: pre), inner, post.
    by split_and!.
  - rewrite <- (app_nil_r trc). by eapply Hhere.
  - apply elem_of_app in Hin as [Hin|Hin]; [by eapply Hhere|].
    destruct (IH _ _ _ Hin) as (Hne' & pre & inner & post & -> & F & Hd).
    split; [done|].
    exists (CCandidateNodes d (cands, None) :: trc ++ pre), inner, post.
    split_and!; [simpl; by rewrite <- app_assoc | done | done].
  - rewrite <- (app_nil_r trc). by eapply Hhere.
  - apply elem_of_app in Hin as [Hin|Hin]; [by eapply Hhere|].
    destruct (runs_trace _ _ _ _ _ Hruns) as (<- & _).
    by apply Hexec in Hin as [Hin|Hin].
Qed.

(** X15.  [ComputeCommand] of a strategy is called only when
    [candidateNodes] has just found candidates for this strategy, without an
    error, and with these candidates, of which there is at least one; between
    the two calls are at most the calls of single node consolidation. *)
Theorem command_is_computed_for_found_candidates env w :
  ∀ d cands res,
    CComputeCommand d cands res ∈ trace (Reconcile env) w →
    cands ≠ [] ∧
    ∃ pre inner post,
      trace (Reconcile env) w
      = pre ++ CCandidateNodes d (cands, None)
            :: inner ++ CComputeCommand d cands res :: post ∧
      Forall consolidationCall inner ∧
      (d ≠ SingleNodeConsolidation → inner = []).
Proof.
  pose proof (spec_elim _ _ _ (reconcileLoop_spec env deprovisioners w)) as H.
  by apply (sweep_compute _ _ _ _ _ _ H).
Qed.

(** ** [SingleNodeConsolidation.ComputeCommand] *)

(** The candidates for which a consolidation was computed, in order. *)
Definition examined (tr : list Call) : list CandidateNode :=
  omap (λ c, match c with
             | CComputeConsolidation cand _ => Some cand
             | _ => None
             end) tr.

(** Validation is asked only for a replace or a delete command that was
    computed for a candidate. *)
Definition validated (tr : list Call) : Prop :=
  ∀ cmd r, CIsValid cmd r ∈ tr →
    (cmdAction cmd = actionReplace ∨ cmdAction cmd = actionDelete) ∧
    ∃ cand, CComputeConsolidation cand (cmd, None) ∈ tr.

(** The calls of the loop over the candidates. *)
Definition candidateCall (c : Call) : Prop :=
  match c with
  | CComputeConsolidation _ _ | CIsValid _ _ => True
  | _ => False
  end.

Definition candidatesPost (failed : bool) (candidates : list CandidateNode)
    (res : Command * option error) (tr : list Call) : Prop :=
  Forall candidateCall tr ∧
  validated tr ∧
  ((res = (CommandOf actionDoNothing, None) ∧ failed = false ∧
    Forall (λ c, isRejection c = false) tr ∧ examined tr = candidates) ∨
   (res = (CommandOf actionRetry, None) ∧
    (failed = true ∨ Exists (λ c, isRejection c = true) tr) ∧
    examined tr = candidates) ∨
   (∃ pre cand cmd,
      res = (cmd, None) ∧
      tr = pre ++ [CComputeConsolidation cand (cmd, None);
                   CIsValid cmd (true, None)] ∧
      (cmdAction cmd = actionReplace ∨ cmdAction cmd = actionDelete) ∧
      examined tr `prefix_of` candidates)).

Lemma examined_app tr1 tr2 : examined (tr1 ++ tr2) = examined tr1 ++ examined tr2.
Proof. apply omap_app. Qed.

Lemma validated_app tr1 tr2 :
  validated tr1 → validated tr2 → validated (tr1 ++ tr2).
Proof.
  intros H1 H2 cmd r Hin. apply elem_of_app in Hin as [Hin|Hin].
  - destruct (H1 _ _ Hin) as [Ha [cand Hc]]. split; [done|]. exists cand.
    apply elem_of_app. by left.
  - destruct (H2 _ _ Hin) as [Ha [cand Hc]]. split; [done|]. exists cand.
    apply elem_of_app. by right.
Qed.

Lemma candidatesPost_skip failed failed' node rest res tr0 tr :
  examined tr0 = [node] →
  Forall candidateCall tr0 →
  validated tr0 →
  (failed' = failed ∧ Forall (λ c, isRejection c = false) tr0) ∨
  (failed' = true ∧ Exists (λ c, isRejection c = true) tr0) →
  candidatesPost failed' rest res tr →
  candidatesPost failed (node :: rest) res (tr0 ++ tr).
Proof.
  intros He Hk Hv Hf (Hk' & Hv' & Hpost).
  split; [by apply Forall_app_2|]. split; [by apply validated_app|].
  rewrite examined_app, He. simpl.
  destruct Hpost as [(-> & Hfalse & F & <-)
                    |[(-> & Hrej & <-)
                     |(pre & cand & cmd & -> & -> & Ha & Hp)]].
  - left. split_and!; try done.
    + destruct Hf as [[<- _]|[Hf _]]; [done | congruence].
    + apply Forall_app_2; [|done].
      destruct Hf as [[_ F0]|[Hf _]]; [done | congruence].
  - right; left. split_and!; try done.
    destruct Hrej as [Hrej|Hrej].
    + destruct Hf as [[<- _]|[_ Hf]]; [by left|].
      right. apply Exists_app. by left.
    + right. apply Exists_app. by right.
  - right; right. exists (tr0 ++ pre), cand, cmd.
    split_and!; [done | by rewrite <- app_assoc | done | by apply prefix_cons].
Qed.

Section Consolidation.

Context (env : Env).

Lemma singleNodeCandidates_result candidates : ∀ failed w,
  spec (singleNodeCandidates env failed candidates) w
    (λ res tr _, candidatesPost failed candidates res tr).
Proof.
  assert (Hnil : validated []).
  { intros cmd r Hin. by apply elem_of_nil in Hin. }
  induction candidates as [|node rest IH]; intros failed w; simpl.
  - destruct failed; spec_step; (split; [done|]); (split; [done|]).
    + right; left. split_and!; [done | by left | done].
    + left. by split_and!.
  - spec_step. spec_step.
    set (w1 := {| sys := _; history := _ |}).
    destruct (computeConsolidation env (history w) node) as [cmd err].
    simpl.
    assert (Hskip1 : ∀ err',
              (err' ≠ None ∨ cmdAction cmd = actionDoNothing ∨
               cmdAction cmd = actionRetry) →
              spec (singleNodeCandidates env failed rest) w1
                (λ res tr _,
                   candidatesPost failed (node :: rest) res
                     ([CComputeConsolidation node (cmd, err')] ++ tr))).
    { intros err' _. eapply spec_mono; [apply IH|]. intros res tr w' H.
      apply (candidatesPost_skip failed failed);
        [done | by repeat constructor | | | done].
      - intros cmd' r Hin. apply elem_of_cons in Hin as [Hin|Hin]; [done|].
        by apply elem_of_nil in Hin.
      - left. split; [done|]. by repeat constructor. }
    destruct err as [e|]; [by apply Hskip1; left|].
    destruct (bool_decide (cmdAction cmd = actionDoNothing)
              || bool_decide (cmdAction cmd = actionRetry)) eqn:Hidle.
    { apply Hskip1. right. apply orb_prop in Hidle as [H|H];
        apply bool_decide_eq_true in H; auto. }
    assert (Hact : cmdAction cmd = actionReplace ∨ cmdAction cmd = actionDelete).
    { apply orb_false_elim in Hidle as [H1 H2].
      apply bool_decide_eq_false in H1, H2.
      destruct (cmdAction cmd); auto; done. }
    spec_step. spec_step.
    destruct (isValid env _ cmd) as [valid err] eqn:Hvalid.
    simpl.
    set (w2 := {| sys := _; history := _ |}).
    assert (Hv2 : ∀ res, validated [CComputeConsolidation node (cmd, None);
                                    CIsValid cmd res]).
    { intros res cmd' r Hin. apply elem_of_cons in Hin as [Hin|Hin]; [done|].
      apply elem_of_cons in Hin as [Hin|Hin]; [|by apply elem_of_nil in Hin].
      inversion Hin; subst. split; [done|]. exists node.
      apply elem_of_cons. by left. }
    assert (Hskip2 : ∀ failed' res,
              (failed' = failed ∧ isRejection (CIsValid cmd res) = false) ∨
              (failed' = true ∧ isRejection (CIsValid cmd res) = true) →
              spec (singleNodeCandidates env failed' rest) w2
                (λ b tr2 _,
                   candidatesPost failed (node :: rest) b
                     ([CComputeConsolidation node (cmd, None)] ++
                      [CIsValid cmd res] ++ tr2))).
    { intros failed' res Hf. eapply spec_mono; [apply IH|].
      intros b tr w' H.
      apply (candidatesPost_skip failed failed' node rest b
               [CComputeConsolidation node (cmd, None); CIsValid cmd res]);
        [done | by repeat constructor | apply Hv2 | | done].
      destruct Hf as [[-> Hr]|[-> Hr]].
      - left. split; [done|]. by repeat constructor.
      - right. split; [done|]. apply Exists_cons_tl, Exists_cons_hd. done. }
    destruct err as [e|].
    { apply Hskip2. left. split; [done|]. by destruct valid. }
    destruct valid; simpl.
    + destruct (bool_decide (cmdAction cmd = actionReplace)
                || bool_decide (cmdAction cmd = actionDelete)) eqn:Hret.
      * spec_step. split; [by repeat constructor|].
        split; [apply Hv2|]. right; right.
        exists [], node, cmd. split_and!; [done | done | done |].
        apply prefix_cons, prefix_nil.
      * exfalso. apply orb_false_elim in Hret as [H1 H2].
        apply bool_decide_eq_false in H1, H2. by destruct Hact.
    + apply Hskip2. by right.
Qed.

(** The three ways of [SingleNodeConsolidation.ComputeCommand]. *)
Definition consolidationPost (candidates : list CandidateNode)
    (res : Command * option error) (tr : list Call) : Prop :=
  (tr = [CConsolidated true] ∧ res = (CommandOf actionDoNothing, None)) ∨
  (∃ sorted e,
     tr = [CConsolidated false; CSortAndFilter candidates (sorted, Some e)] ∧
     res = (zeroCommand, Some (Errorf "sorting candidates, %w" [ArgError e]))) ∨
  (∃ sorted tr',
     tr = CConsolidated false :: CSortAndFilter candidates (sorted, None) :: tr' ∧
     candidatesPost false sorted res tr').

Lemma SingleNodeConsolidation_ComputeCommand_result candidates w :
  spec (SingleNodeConsolidation_ComputeCommand env candidates) w
    (λ res tr _, consolidationPost candidates res tr).
Proof.
  unfold SingleNodeConsolidation_ComputeCommand. spec_step. spec_step.
  set (w1 := {| sys := _; history := _ |}).
  destruct (consolidated _).
  { spec_step. by left. }
  spec_step. spec_step.
  destruct (sortAndFilterCandidates env _ candidates) as [sorted err]. simpl.
  set (w2 := {| sys := _; history := _ |}).
  destruct err as [e|].
  { spec_step. right; left. eauto. }
  eapply spec_mono; [apply singleNodeCandidates_result|].
  intros res tr w' H. right; right. eauto.
Qed.

End Consolidation.

(** X16.  [SingleNodeConsolidation.ComputeCommand] returns
    - the [doNothing] command, with no command rejected by the validation; or
    - the [retry] command, with a command rejected by the validation; or
    - the "sorting candidates" error, right after the sort failed; or
    - a replace or delete command that [computeConsolidation] has just
      returned and [IsValid] has just approved: these are its last two calls.
    The errors of [computeConsolidation] and [IsValid] are not returned. *)
Theorem single_node_consolidation_returns_validated_command env candidates w :
  ((SingleNodeConsolidation_ComputeCommand env candidates w).1
   = (CommandOf actionDoNothing, None) ∧
   Forall (λ c, isRejection c = false)
     (trace (SingleNodeConsolidation_ComputeCommand env candidates) w)) ∨
  ((SingleNodeConsolidation_ComputeCommand env candidates w).1
   = (CommandOf actionRetry, None) ∧
   Exists (λ c, isRejection c = true)
     (trace (SingleNodeConsolidation_ComputeCommand env candidates) w)) ∨
  (∃ sorted e,
     (SingleNodeConsolidation_ComputeCommand env candidates w).1
     = (zeroCommand, Some (Errorf "sorting candidates, %w" [ArgError e])) ∧
     last (trace (SingleNodeConsolidation_ComputeCommand env candidates) w)
     = Some (CSortAndFilter candidates (sorted, Some e))) ∨
  (∃ pre cand cmd,
     (SingleNodeConsolidation_ComputeCommand env candidates w).1 = (cmd, None) ∧
     trace (SingleNodeConsolidation_ComputeCommand env candidates) w
     = pre ++ [CComputeConsolidation cand (cmd, None);
               CIsValid cmd (true, None)] ∧
     (cmdAction cmd = actionReplace ∨ cmdAction cmd = actionDelete)).
Proof.
  pose proof (spec_elim _ _ _
                (SingleNodeConsolidation_ComputeCommand_result env candidates w))
    as [[-> ->]|[(sorted & e & -> & ->)|(sorted & tr' & -> & Hk & Hv & Hpost)]].
  - left. split; [done|]. by repeat constructor.
  - right; right; left. exists sorted, e. by split.
  - destruct Hpost as [(-> & _ & F & _)
                      |[(-> & Hrej & _)
                       |(pre & cand & cmd & -> & -> & Ha & _)]].
    + left. split; [done|]. by repeat constructor.
    + right; left. split; [done|]. destruct Hrej as [Hrej|Hrej]; [done|].
      by apply Exists_cons_tl, Exists_cons_tl.
    + right; right; right.
      exists (CConsolidated false
                :: CSortAndFilter candidates (sorted, None) :: pre), cand, cmd.
      by split_and!.
Qed.

(** X17.  Single node consolidation examines the candidates in the order in
    which [sortAndFilterCandidates] returned them, each at most once, and all
    of them when it returns [doNothing] or [retry]; it examines none when the
    cluster is consolidated or the sort fails.  [IsValid] is asked only about
    replace and delete commands computed for a candidate. *)
Theorem candidates_are_examined_in_sorted_order env candidates w :
  (∀ sorted,
     CSortAndFilter candidates (sorted, None)
       ∈ trace (SingleNodeConsolidation_ComputeCommand env candidates) w →
     examined (trace (SingleNodeConsolidation_ComputeCommand env candidates) w)
       `prefix_of` sorted ∧
     (cmdAction (SingleNodeConsolidation_ComputeCommand env candidates w).1.1
      = actionDoNothing ∨
      cmdAction (SingleNodeConsolidation_ComputeCommand env candidates w).1.1
      = actionRetry →
      examined (trace (SingleNodeConsolidation_ComputeCommand env candidates) w)
      = sorted)) ∧
  ((∀ sorted,
      CSortAndFilter candidates (sorted, None)
        ∉ trace (SingleNodeConsolidation_ComputeCommand env candidates) w) →
   examined (trace (SingleNodeConsolidation_ComputeCommand env candidates) w)
   = [] ∧
   (SingleNodeConsolidation_ComputeCommand env candidates w).1.1
   ∈ [CommandOf actionDoNothing; zeroCommand]) ∧
  validated (trace (SingleNodeConsolidation_ComputeCommand env candidates) w).
Proof.
  pose proof (spec_elim _ _ _
                (SingleNodeConsolidation_ComputeCommand_result env candidates w))
    as [[-> ->]|[(sorted & e & -> & ->)|(sorted & tr' & -> & Hk & Hv & Hpost)]].
  - split_and!.
    + intros sorted Hin. apply elem_of_cons in Hin as [Hin|Hin]; [done|].
      by apply elem_of_nil in Hin.
    + intros _. split; [done|]. apply elem_of_cons. by left.
    + intros cmd r Hin. apply elem_of_cons in Hin as [Hin|Hin]; [done|].
      by apply elem_of_nil in Hin.
  - split_and!.
    + intros sorted' Hin. apply elem_of_cons in Hin as [Hin|Hin]; [done|].
      apply elem_of_cons in Hin as [Hin|Hin]; [done|].
      by apply elem_of_nil in Hin.
    + intros _. split; [done|]. apply elem_of_cons. right.
      apply elem_of_cons. by left.
    + intros cmd r Hin. apply elem_of_cons in Hin as [Hin|Hin]; [done|].
      apply elem_of_cons in Hin as [Hin|Hin]; [done|].
      by apply elem_of_nil in Hin.
  - change (examined (CConsolidated false
                        :: CSortAndFilter candidates (sorted, None) :: tr'))
      with (examined tr').
    split_and!.
    + intros sorted' Hin.
      assert (sorted' = sorted) as ->.
      { apply elem_of_cons in Hin as [Hin|Hin]; [done|].
        apply elem_of_cons in Hin as [Hin|Hin]; [by inversion Hin|].
        by apply (proj1 (Forall_forall _ _) Hk) in Hin. }
      destruct Hpost as [(-> & _ & _ & <-)
                        |[(-> & _ & <-)
                         |(pre & cand & cmd & -> & -> & Ha & Hp)]];
        [done | done |].
      split; [done|]. simpl. intros [Hn|Hn]; destruct Ha; congruence.
    + intros Hnot. exfalso. apply (Hnot sorted).
      apply elem_of_cons. right. apply elem_of_cons. by left.
    + apply (validated_app [CConsolidated false;
                            CSortAndFilter candidates (sorted, None)] tr');
        [|done].
      intros cmd r Hin. apply elem_of_cons in Hin as [Hin|Hin]; [done|].
      apply elem_of_cons in Hin as [Hin|Hin]; [done|].
      by apply elem_of_nil in Hin.
Qed.

(** ** [Liveness.Reconcile] *)

(** X18.  [Liveness.Reconcile] returns an error only when it has asked for
    the deletion of the machine and the delete answered an error other than
    not found; it returns that error as it is, with the empty result.  A
    not-found answer to the delete is not an error. *)
Theorem liveness_returns_only_the_delete_error reg ttl now delete machine e :
  ((Liveness.Reconcile reg ttl now delete machine).1.2 = Some e ↔
   (Liveness.Reconcile reg ttl now delete machine).2 = [machine] ∧
   delete machine = Some e ∧ IsNotFound (Some e) = false) ∧
  ((Liveness.Reconcile reg ttl now delete machine).2 = [machine] →
   (Liveness.Reconcile reg ttl now delete machine).1.1 = emptyResult).
Proof.
  assert (Hno : ∀ r : Result,
            (((r, @None error), @nil Liveness.Machine).1.2 = Some e ↔
             ((r, @None error), @nil Liveness.Machine).2 = [machine] ∧
             delete machine = Some e ∧ IsNotFound (Some e) = false) ∧
            (((r, @None error), @nil Liveness.Machine).2 = [machine] →
             ((r, @None error), @nil Liveness.Machine).1.1 = emptyResult)).
  { intros r. simpl. split; [|done]. split; [done|]. by intros (? & _). }
  unfold Liveness.Reconcile, Liveness.IgnoreNotFound.
  destruct ttl as [d|]; [|apply Hno].
  destruct (Liveness.IsTrue _); simpl; [apply Hno|].
  destruct (negb _ && _); [|apply Hno]. simpl.
  split; [|done]. destruct (delete machine) as [e'|].
  - destruct (IsNotFound (Some e')) eqn:Hnf.
    + split; [done|]. intros (_ & [= ->] & Hn).
      unfold IsNotFound in *. congruence.
    + split.
      * intros [= ->]. done.
      * by intros (_ & [= ->] & _).
  - simpl. split; [done|]. by intros (_ & ? & _).
Qed.

(** X19.  The requeue delay is long enough: for a machine that is not
    registered and was created before the clock's reading, [Reconcile] either
    asks for the deletion, or asks to be called again after the setting, and
    the call made that much later asks for the deletion. *)
Theorem liveness_requeue_reaches_deletion reg d now delete delete' machine :
  ¬ Liveness.registered reg machine →
  Liveness.CreationTimestamp machine ≠ 0 →
  Liveness.CreationTimestamp machine < now →
  ((Liveness.Reconcile reg (Some d) now delete machine).2 = [machine] ∨
   (Liveness.Reconcile reg (Some d) now delete machine)
   = (({| Requeue := false; RequeueAfter := d |}, None), [])) ∧
  (Liveness.Reconcile reg (Some d) (now + d) delete' machine).2 = [machine].
Proof.
  intros Hreg Hz Hlt. unfold Liveness.Reconcile.
  pose proof (Liveness.IsTrue_registered reg machine) as Hr.
  destruct (Liveness.IsTrue _); [destruct Hreg; by apply Hr|]. simpl.
  unfold Liveness.TimeIsZero, Liveness.TimeBefore, Liveness.TimeAdd.
  destruct (Z.eqb_spec (Liveness.CreationTimestamp machine) 0) as [|_]; [done|].
  simpl. split.
  - destruct (_ <? now); auto.
  - destruct (Z.ltb_spec (Liveness.CreationTimestamp machine + d) (now + d));
      [done | lia].
Qed.

(** X20.  Once [Reconcile] asks for the deletion of a machine, it asks for
    it at every later reading of the clock, whatever the deletes answer. *)
Theorem liveness_expiry_is_stable reg ttl now now' delete delete' machine :
  (Liveness.Reconcile reg ttl now delete machine).2 = [machine] →
  now ≤ now' →
  (Liveness.Reconcile reg ttl now' delete' machine).2 = [machine].
Proof.
  unfold Liveness.Reconcile. destruct ttl as [d|]; [|done].
  destruct (Liveness.IsTrue _); [done|]. simpl.
  unfold Liveness.TimeIsZero, Liveness.TimeBefore, Liveness.TimeAdd.
  destruct (negb _); [|done]. simpl.
  destruct (Z.ltb_spec (Liveness.CreationTimestamp machine + d) now);
    [|done].
  intros _ Hle.
  destruct (Z.ltb_spec (Liveness.CreationTimestamp machine + d) now');
    [done | lia].
Qed.

(** ** The downstream recorder of the test suite *)

Module InternalRecorder.

(** [NewInternalRecorder]: no event counted. *)
Definition NewInternalRecorder : gmap string nat := ∅.

(** [Event(object, eventtype, reason, message)]: only the reason counts. *)
Definition Event (object eventtype reason message : string)
    (calls : gmap string nat) : gmap string nat :=
  Recorder.InternalRecorder_Event reason calls.

(** [Eventf] and [AnnotatedEventf] hand their arguments to [Event], the
    format as the message. *)
Definition Eventf (object eventtype reason messageFmt : string)
    (args : list string) (calls : gmap string nat) : gmap string nat :=
  Event object eventtype reason messageFmt calls.

Definition AnnotatedEventf (object : string) (annotations : gmap string string)
    (eventtype reason messageFmt : string) (args : list string)
    (calls : gmap string nat) : gmap string nat :=
  Event object eventtype reason messageFmt calls.

(** A call of one of the three methods. *)
Inductive Method :=
| MEvent (object eventtype reason message : string)
| MEventf (object eventtype reason messageFmt : string) (args : list string)
| MAnnotatedEventf (object : string) (annotations : gmap string string)
    (eventtype reason messageFmt : string) (args : list string).

Definition invoke (calls : gmap string nat) (m : Method) : gmap string nat :=
  match m with
  | MEvent o t r msg => Event o t r msg calls
  | MEventf o t r f args => Eventf o t r f args calls
  | MAnnotatedEventf o a t r f args => AnnotatedEventf o a t r f args calls
  end.

Definition reasonOf (m : Method) : string :=
  match m with
  | MEvent _ _ r _ | MEventf _ _ r _ _ | MAnnotatedEventf _ _ _ r _ _ => r
  end.

Lemma Calls_invoke r calls m :
  Recorder.Calls r (invoke calls m)
  = ((if decide (reasonOf m = r) then 1 else 0) + Recorder.Calls r calls)%nat.
Proof.
  assert (H : ∀ reason,
            Recorder.Calls r (Recorder.InternalRecorder_Event reason calls)
            = ((if decide (reason = r) then 1 else 0)
               + Recorder.Calls r calls)%nat).
  { intros reason. unfold Recorder.Calls, Recorder.InternalRecorder_Event.
    destruct (decide (reason = r)) as [->|Hne].
    - by rewrite lookup_insert_eq.
    - by rewrite lookup_insert_ne. }
  destruct m; apply H.
Qed.

Lemma Calls_foldl r ms : ∀ calls,
  Recorder.Calls r (foldl invoke calls ms)
  = (length (filter (λ m, reasonOf m = r) ms) + Recorder.Calls r calls)%nat.
Proof.
  induction ms as [|m ms IH]; intros calls; simpl; [done|].
  rewrite IH, Calls_invoke, filter_cons.
  destruct (decide (reasonOf m = r)); simpl; lia.
Qed.

(** X21.  After any calls of [Event], [Eventf] and [AnnotatedEventf] on a
    new [InternalRecorder], [Calls(reason)] is the number of these calls that
    carried the reason, zero if there was none. *)
Theorem calls_counts_the_events_of_a_reason r ms :
  Recorder.Calls r (foldl invoke NewInternalRecorder ms)
  = length (filter (λ m, reasonOf m = r) ms).
Proof.
  rewrite Calls_foldl. unfold Recorder.Calls, NewInternalRecorder.
  rewrite lookup_empty. simpl. lia.
Qed.

End InternalRecorder.

(** ** The result of a tick *)

Lemma sweep_calls env ds w r tr w' : sweep env ds w r tr w' → tr ≠ [].
Proof. by destruct 1. Qed.

Lemma sweep_requeue env ds w r tr w' :
  sweep env ds w r tr w' →
  r = ({| Requeue := true; RequeueAfter := 0 |}, None) ↔
  (∃ d cands cmd,
     last tr = Some (CComputeCommand d cands (cmd, None)) ∧
     cmdAction cmd = actionRetry) ∨
  (executions tr ≠ [] ∧ r.2 = None).
Proof.
  assert (Hlast : ∀ (c : Call) tr0, tr0 ≠ [] → last (c :: tr0) = last tr0).
  { intros c tr0 Hne. rewrite last_cons.
    destruct (last tr0) eqn:E; [done|]. by apply last_None in E. }
  assert (Hexec : ∀ d cmd w1,
            executions (trace (executeCommand env d cmd) w1) ≠ [] ∧
            ∀ d' cands cmd',
              last (trace (executeCommand env d cmd) w1)
              ≠ Some (CComputeCommand d' cands (cmd', None))).
  { intros d cmd w1.
    destruct (executeCommand_calls env d cmd w1) as (tail & -> & Ft).
    split; [done|]. intros d' cands cmd' Hl.
    apply last_Some in Hl as [l' Hl].
    assert (Hin : CComputeCommand d' cands (cmd', None)
                    ∈ CMetric (ActionsPerformed d (cmdAction cmd)) :: tail).
    { rewrite Hl. apply elem_of_app. right. by left. }
    apply elem_of_cons in Hin as [Hin|Hin]; [done|].
    by apply (proj1 (Forall_forall _ _) Ft) in Hin. }
  induction 1 as [ w w' Hc
                 | d rest w cands e w'
                 | d rest w w1 r tr w' Hh Hs IH
                 | d rest w cands cmd e trc w' Hne Hp
                 | d rest w cands cmd trc w1 r tr w' Hne Hp Ha Hh Hs IH
                 | d rest w cands cmd trc w' Hne Hp Ha
                 | d rest w cands cmd trc w1 err tre w' Hne Hp Hn Hr Hh Hruns ].
  - split; [done|]. intros [(d & cands & cmd & Hl & _)|[He _]]; done.
  - split; [done|]. intros [(d' & cands' & cmd & Hl & _)|[He _]]; done.
  - rewrite IH, (Hlast _ _ (sweep_calls _ _ _ _ _ _ Hs)). done.
  - destruct (computePost_calls _ _ _ _ Hp) as (_ & He & _).
    destruct Hp as (inner & -> & _).
    split; [done|]. intros [(d' & cands' & cmd' & Hl & _)|[He' _]].
    + rewrite last_cons, last_snoc in Hl. done.
    + done.
  - destruct (computePost_calls _ _ _ _ Hp) as (_ & He & _).
    rewrite IH.
    change (executions (CCandidateNodes d (cands, None) :: trc ++ tr))
      with (executions (trc ++ tr)).
    rewrite executions_app, He. simpl.
    rewrite Hlast, last_app.
    + pose proof (sweep_calls _ _ _ _ _ _ Hs) as Hne'.
      destruct (last tr) eqn:E; [done | by apply last_None in E].
    + intros E. apply app_eq_nil in E as [_ E].
      by apply (sweep_calls _ _ _ _ _ _ Hs).
  - split; [intros _|done]. left. destruct Hp as (inner & -> & _).
    exists d, cands, cmd. split; [|done]. by rewrite last_cons, last_snoc.
  - destruct (runs_trace _ _ _ _ _ Hruns) as (<- & _).
    destruct (Hexec d cmd w1) as [He Hl].
    assert (Hne' : trace (executeCommand env d cmd) w1 ≠ []).
    { intros E. by rewrite E in He. }
    split.
    + intros Hr'. right. split.
      * change (executions (CCandidateNodes d (cands, None)
                              :: trc ++ trace (executeCommand env d cmd) w1))
          with (executions (trc ++ trace (executeCommand env d cmd) w1)).
        rewrite executions_app. intros E. by apply app_eq_nil in E as [_ E].
      * by destruct err.
    + intros [(d' & cands' & cmd' & Hl' & _)|[_ Hnil]].
      * exfalso. rewrite Hlast, last_app in Hl'.
        -- destruct (last (trace (executeCommand env d cmd) w1)) eqn:E;
             [|by apply last_None in E].
           by apply (Hl d' cands' cmd').
        -- intros E. by apply app_eq_nil in E as [_ E].
      * by destruct err.
Qed.

(** X22.  [Reconcile] asks to be called again at once, without an error, in
    two cases only: the last call of the tick is a [ComputeCommand] that
    returned a [retry] command, or a command was executed and
    [executeCommand] returned nil. *)
Theorem requeue_at_once_after_retry_or_execution env w :
  (Reconcile env w).1 = ({| Requeue := true; RequeueAfter := 0 |}, None) ↔
  (∃ d cands cmd,
     last (trace (Reconcile env) w)
     = Some (CComputeCommand d cands (cmd, None)) ∧
     cmdAction cmd = actionRetry) ∨
  (executions (trace (Reconcile env) w) ≠ [] ∧ (Reconcile env w).1.2 = None).
Proof.
  pose proof (spec_elim _ _ _ (reconcileLoop_spec env deprovisioners w)) as H.
  by apply (sweep_requeue _ _ _ _ _ _ H).
Qed.

(** ** The nodes-created counter *)

(** The increments of the nodes-created counter in [tr]. *)
Definition createdCounts (tr : list Call) : list nat :=
  omap (λ c, match c with CMetric (NodesCreated n) => Some n | _ => None end) tr.

(** X23.  [launchReplacementNodes] adds to the nodes-created counter at most
    once, the number of replacements asked for, and exactly when it marks the
    old nodes for deletion, that is when the launch has returned that many
    names: also when the replacements then fail to become ready. *)
Theorem created_counter_counts_launched_replacements env c w :
  (createdCounts (trace (launchReplacementNodes env c) w) = [] ∧
   ∀ names, CMarkForDeletion names ∉ trace (launchReplacementNodes env c) w) ∨
  (createdCounts (trace (launchReplacementNodes env c) w)
   = [length (replacementNodes c)] ∧
   CMarkForDeletion (map Name (nodesToRemove c))
     ∈ trace (launchReplacementNodes env c) w).
Proof.
  assert (Happ : ∀ l1 l2,
            createdCounts (l1 ++ l2) = createdCounts l1 ++ createdCounts l2).
  { intros l1 l2. apply omap_app. }
  assert (Hc : ∀ v l, Forall (cordonCall v) l → createdCounts l = []).
  { intros v l F. apply omap_none. eapply Forall_impl; [apply F|]. by intros []. }
  assert (Hr : ∀ l, Forall readinessCall l → createdCounts l = []).
  { intros l F. apply omap_none. eapply Forall_impl; [apply F|].
    by intros [| | | | | | | |[]| | | | | |]. }
  pose proof (spec_elim _ _ _ (launchReplacementNodes_spec env c w)) as H.
  inversion H as [ e tr w' Fc Hst
                 | names' e err' trc tru w' Fc Fu Hst
                 | names' trc w' Fc Hlen' Hst
                 | names' trc trw w' Fc Hlen' Fw Hobs Hst
                 | names' e err' trc trw tru w' Fc Hlen' Fw Fu Hst ];
    try match goal with
        | E : _ = trace _ _ |- _ => rewrite <- E in *; clear E
        end;
    repeat first
      [ rewrite Happ
      | match goal with
        | |- context [createdCounts (?call :: ?l)] =>
            lazymatch l with
            | [] => fail
            | _ => change (createdCounts (call :: l))
                     with (createdCounts [call] ++ createdCounts l)
            end
        end ].
  - left. split; [by eapply Hc|]. intros names Hin. elem_cases Hin.
  - left. split.
    + by rewrite (Hc _ _ Fc), (Hc _ _ Fu).
    + intros names Hin. elem_cases Hin.
  - left. split.
    + by rewrite (Hc _ _ Fc).
    + intros names Hin. elem_cases Hin.
  - right. split.
    + by rewrite (Hc _ _ Fc), (Hr _ Fw), Hlen'.
    + apply elem_of_app. right. apply elem_of_cons. right.
      apply elem_of_cons. right. apply elem_of_cons. by left.
  - right. split.
    + by rewrite (Hc _ _ Fc), (Hr _ Fw), (Hc _ _ Fu), Hlen'.
    + apply elem_of_app. right. apply elem_of_cons. right.
      apply elem_of_cons. right. apply elem_of_cons. by left.
Qed.

(** ** The properties with a premise, on the clusters of [Scenario] *)

Module Faults.

(** As [Scenario.calm], but every [Get] fails. *)
Definition getFails : Env :=
  {| others := λ _ s, s;
     apiFault := λ _ r,
       match r with
       | ReqGet _ => Some (ApiError "Timeout" 504)
       | _ => None
       end;
     clockNow := λ _, Scenario.now;
     cancelled := λ _, false;
     launchMachines := λ _ _, (["new"], None);
     candidateNodes := λ _ _, ([], None);
     computeCommand := λ _ _ _, (CommandOf actionDoNothing, None);
     sortAndFilterCandidates := λ _ cs, (cs, None);
     computeConsolidation := λ _ _, (CommandOf actionDoNothing, None);
     isValid := λ _ _, (true, None) |}.

(** A machine created at the instant 10, without conditions. *)
Definition unseen : Liveness.Machine :=
  {| Liveness.machineName := "m"; Liveness.CreationTimestamp := 10;
     Liveness.StatusConditions := [] |}.

End Faults.

Lemma cordon_patches_after_failed_get_witness :
  apiFault Faults.getFails (history Scenario.alone) (ReqGet "x")
  = Some (ApiError "Timeout" 504) ∧
  (∃ res tail,
     trace (setNodesUnschedulable Faults.getFails true ["x"]) Scenario.alone
     = CGet "x" (zeroNode, Some (ApiError "Timeout" 504))
         :: CPatch (setUnschedulable true zeroNode) res :: tail) ∧
  (setNodesUnschedulable Faults.getFails false ["x"] Scenario.alone).1 ≠ None.
Proof.
  assert (Hf : apiFault Faults.getFails (history Scenario.alone) (ReqGet "x")
               = Some (ApiError "Timeout" 504)) by reflexivity.
  destruct (cordon_patches_after_failed_get Faults.getFails "x" []
              (ApiError "Timeout" 504) Scenario.alone Hf) as (H1 & _ & H3).
  split_and!; [exact Hf | exact H1 | exact (H3 false)].
Defined.

Lemma cordon_of_cordoned_nodes_patches_nothing_witness :
  quietOn Scenario.calm (λ x, x ∈ ["x"]) ∧
  (∀ x h, x ∈ ["x"] → apiFault Scenario.calm h (ReqGet x) = None) ∧
  (∀ x, x ∈ ["x"] →
     ∃ n, apiNodes (sys Scenario.alone) !! x = Some n ∧
          Unschedulable n = false) ∧
  (setNodesUnschedulable Scenario.calm false ["x"] Scenario.alone).1 = None ∧
  patches (trace (setNodesUnschedulable Scenario.calm false ["x"])
             Scenario.alone) = [].
Proof.
  assert (Hq : quietOn Scenario.calm (λ x, x ∈ ["x"])).
  { intros h s x Hx. simpl. done. }
  assert (Hs : ∀ x h, x ∈ ["x"] → apiFault Scenario.calm h (ReqGet x) = None).
  { intros x h Hx. reflexivity. }
  assert (Hn : ∀ x, x ∈ ["x"] →
            ∃ n, apiNodes (sys Scenario.alone) !! x = Some n ∧
                 Unschedulable n = false).
  { intros x Hx. apply list_elem_of_singleton in Hx as ->.
    exists Scenario.nodeX. split; [vm_compute|]; reflexivity. }
  destruct (cordon_of_cordoned_nodes_patches_nothing Scenario.calm false ["x"]
              Scenario.alone Hq Hs Hn) as (H1 & H2 & _).
  split_and!; [exact Hq | exact Hs | exact Hn | exact H1 | exact H2].
Defined.

Lemma every_old_node_is_waited_for_witness :
  (executeCommand Scenario.calm SingleNodeConsolidation Scenario.replaceX
     Scenario.ready).1 = None ∧
  ∃ pre waits,
    trace (executeCommand Scenario.calm SingleNodeConsolidation
             Scenario.replaceX) Scenario.ready = pre ++ concat waits ∧
    deletes pre = nodesToRemove Scenario.replaceX ∧
    Forall2 deletionWait (nodesToRemove Scenario.replaceX) waits.
Proof.
  assert (Hr : (executeCommand Scenario.calm SingleNodeConsolidation
                  Scenario.replaceX Scenario.ready).1 = None).
  { vm_compute. reflexivity. }
  split; [exact Hr|].
  apply (every_old_node_is_waited_for Scenario.calm SingleNodeConsolidation
           Scenario.replaceX Scenario.ready Hr).
Defined.

Lemma command_is_computed_for_found_candidates_witness :
  CComputeCommand SingleNodeConsolidation
    [{| candNode := Scenario.nodeX |}; {| candNode := Scenario.nodeZ |}]
    (Scenario.deletion {| candNode := Scenario.nodeZ |}, None)
    ∈ trace (Reconcile Scenario.rejectsX) Scenario.pair ∧
  ∃ pre inner post,
    trace (Reconcile Scenario.rejectsX) Scenario.pair
    = pre ++ CCandidateNodes SingleNodeConsolidation
               ([{| candNode := Scenario.nodeX |};
                 {| candNode := Scenario.nodeZ |}], None)
          :: inner ++ CComputeCommand SingleNodeConsolidation
                        [{| candNode := Scenario.nodeX |};
                         {| candNode := Scenario.nodeZ |}]
                        (Scenario.deletion {| candNode := Scenario.nodeZ |},
                         None)
          :: post ∧
    Forall consolidationCall inner.
Proof.
  assert (Hin : CComputeCommand SingleNodeConsolidation
                  [{| candNode := Scenario.nodeX |};
                   {| candNode := Scenario.nodeZ |}]
                  (Scenario.deletion {| candNode := Scenario.nodeZ |}, None)
                  ∈ trace (Reconcile Scenario.rejectsX) Scenario.pair).
  { apply (list_elem_of_lookup_2 _ 12). vm_compute. reflexivity. }
  split; [exact Hin|].
  destruct (command_is_computed_for_found_candidates Scenario.rejectsX
              Scenario.pair _ _ _ Hin)
    as (_ & pre & inner & post & H1 & H2 & _).
  exists pre, inner, post. split; [exact H1 | exact H2].
Defined.

Lemma liveness_requeue_reaches_deletion_witness :
  ¬ Liveness.registered "Registered" Faults.unseen ∧
  Liveness.CreationTimestamp Faults.unseen ≠ 0 ∧
  Liveness.CreationTimestamp Faults.unseen < 12 ∧
  Liveness.Reconcile "Registered" (Some 5) 12 (λ _, None) Faults.unseen
  = (({| Requeue := false; RequeueAfter := 5 |}, None), []) ∧
  (Liveness.Reconcile "Registered" (Some 5) (12 + 5) (λ _, None)
     Faults.unseen).2 = [Faults.unseen].
Proof.
  assert (H1 : ¬ Liveness.registered "Registered" Faults.unseen).
  { intros (c & Hc & _). discriminate Hc. }
  assert (H2 : Liveness.CreationTimestamp Faults.unseen ≠ 0).
  { simpl. lia. }
  assert (H3 : Liveness.CreationTimestamp Faults.unseen < 12).
  { simpl. lia. }
  destruct (liveness_requeue_reaches_deletion "Registered" 5 12
              (λ _, None) (λ _, None) Faults.unseen H1 H2 H3) as [_ H].
  split_and!; [exact H1 | exact H2 | exact H3 | reflexivity | exact H].
Defined.

Lemma liveness_expiry_is_stable_witness :
  (Liveness.Reconcile "Registered" (Some 5) 16 (λ _, None) Faults.unseen).2
  = [Faults.unseen] ∧
  16 ≤ 20 ∧
  (Liveness.Reconcile "Registered" (Some 5) 20
     (λ _, Some (ApiError "Conflict" 409)) Faults.unseen).2 = [Faults.unseen].
Proof.
  assert (H1 : (Liveness.Reconcile "Registered" (Some 5) 16 (λ _, None)
                  Faults.unseen).2 = [Faults.unseen]) by reflexivity.
  assert (H2 : 16 ≤ 20) by lia.
  split_and!; [exact H1 | exact H2 |].
  apply (liveness_expiry_is_stable "Registered" (Some 5) 16 20 (λ _, None)
           (λ _, Some (ApiError "Conflict" 409)) Faults.unseen H1 H2).
Defined.
